(** * spinner.py: frame normalisation, phrase generation and the animation loop

    A shallow embedding of [src/spinner.py] and the properties of its
    specification.

    Python values are modelled as follows.
    - [str] is a list of Unicode code points ([N]); the [str] methods the
      program calls ([strip], [splitlines], [ljust], [join], [lower]) and
      [textwrap.dedent] are transcribed from CPython ([dedent] in its
      implementation with regular expressions, Python 3.9 to 3.13).
    - [int] is [Z]; lengths, and the counts that [*] receives, are [nat].
    - a call that can raise returns a [result]; the injected writer and
      sleep callables of [animate] act on an abstract world and the calls
      that [animate] makes are recorded in a trace. *)

From Stdlib Require Import PrimFloat String Ascii.
From Stdlib Require Import List ZArith NArith Lia Bool Arith.
From Stdlib Require DecimalString DecimalZ.
Import ListNotations.

Set Implicit Arguments.

(** ** Exceptions and results *)

Inductive exn : Type :=
| ValueError
| IndexError
| ZeroDivisionError
| KeyboardInterrupt
| OtherException (id : nat).

Inductive result (A : Type) : Type :=
| Ok (a : A)
| Raise (e : exn).

Arguments Ok {A} a.
Arguments Raise {A} e.

Definition bind {A B : Type} (r : result A) (k : A -> result B) : result B :=
  match r with
  | Ok a => k a
  | Raise e => Raise e
  end.

Notation "x <- r ;; k" := (bind r (fun x => k))
  (at level 61, r at next level, right associativity).

(** ** Python [str] *)

Module Str.

Abbreviation char := N.
Abbreviation str := (list N).

Definition LF : char := 10%N.
Definition CR : char := 13%N.
Definition TAB : char := 9%N.
Definition SPACE : char := 32%N.

(** A literal of the source, as code points. *)
Definition lit (s : string) : str := map N_of_ascii (list_ascii_of_string s).

Fixpoint eqb (a b : str) : bool :=
  match a, b with
  | [], [] => true
  | x :: a', y :: b' => N.eqb x y && eqb a' b'
  | _, _ => false
  end.

(** [x in {a, b, ...}] for strings. *)
Definition mem (x : str) (set : list str) : bool := existsb (eqb x) set.

(** [str.isspace] on one character ([_PyUnicode_IsWhitespace]). *)
Definition isspace (c : char) : bool :=
  ((9 <=? c) && (c <=? 13) || (28 <=? c) && (c <=? 32) || (c =? 133)
   || (c =? 160) || (c =? 5760) || (8192 <=? c) && (c <=? 8202)
   || (c =? 8232) || (c =? 8233) || (c =? 8239) || (c =? 8287)
   || (c =? 12288))%N.

(** The line boundaries of [str.splitlines] ([_PyUnicode_IsLinebreak]):
    LF, VT, FF, CR, FS, GS, RS, NEL, LS and PS. *)
Definition is_linebreak (c : char) : bool :=
  ((10 <=? c) && (c <=? 13) || (28 <=? c) && (c <=? 30) || (c =? 133)
   || (c =? 8232) || (c =? 8233))%N.

(** [sep.join(parts)] *)
Fixpoint join (sep : str) (parts : list str) : str :=
  match parts with
  | [] => []
  | p :: rest =>
      match rest with
      | [] => p
      | _ :: _ => p ++ sep ++ join sep rest
      end
  end.

(** [s.split(c)] for a separator of one character. *)
Fixpoint split (c : char) (s : str) : list str :=
  match s with
  | [] => [[]]
  | x :: r =>
      if N.eqb x c then [] :: split c r
      else match split c r with
           | l :: ls => (x :: l) :: ls
           | [] => [[x]]
           end
  end.

(** [s.splitlines()]: a line ends at a line boundary or at the end of the
    text, CR LF counts as one boundary, and a text that ends with a
    boundary has no empty last line. *)
Fixpoint splitlines (s : str) : list str :=
  match s with
  | [] => []
  | x :: r =>
      if is_linebreak x then
        [] :: match r with
              | y :: r' =>
                  if N.eqb x CR && N.eqb y LF then splitlines r'
                  else splitlines r
              | [] => []
              end
      else match splitlines r with
           | l :: ls => (x :: l) :: ls
           | [] => [[x]]
           end
  end.

Fixpoint lstrip_by (p : char -> bool) (s : str) : str :=
  match s with
  | [] => []
  | c :: r => if p c then lstrip_by p r else s
  end.

Definition rstrip_by (p : char -> bool) (s : str) : str :=
  List.rev (lstrip_by p (List.rev s)).

Definition strip_by (p : char -> bool) (s : str) : str :=
  rstrip_by p (lstrip_by p s).

(** [s.strip(chars)] *)
Definition strip_chars (chars : str) (s : str) : str :=
  strip_by (fun c => existsb (N.eqb c) chars) s.

(** [s.strip()] *)
Definition strip (s : str) : str := strip_by isspace s.

(** [" " * n] *)
Definition spaces (n : nat) : str := repeat SPACE n.

(** [s.ljust(width)] *)
Definition ljust (width : nat) (s : str) : str :=
  s ++ spaces (width - length s).

(** [s.startswith(prefix)] *)
Fixpoint startswith (s prefix : str) {struct prefix} : bool :=
  match prefix, s with
  | [], _ => true
  | p :: prefix', c :: s' => N.eqb c p && startswith s' prefix'
  | _ :: _, [] => false
  end.

Definition ascii_lower (c : char) : char :=
  if ((65 <=? c) && (c <=? 90))%N then (c + 32)%N else c.

(** [s.lower()]. An ASCII character maps to its ASCII lower case. The
    mapping of the other code points comes from the Unicode database and
    may depend on the neighbours (final sigma) and yield several code
    points; it is the parameter [lower_full], which receives the text
    before the character, the character and the text after it. *)
Fixpoint lower_from (lower_full : str -> char -> str -> str)
    (before s : str) : str :=
  match s with
  | [] => []
  | c :: r =>
      (if (c <? 128)%N then [ascii_lower c] else lower_full before c r)
      ++ lower_from lower_full (before ++ [c]) r
  end.

Definition lower (lower_full : str -> char -> str -> str) (s : str) : str :=
  lower_from lower_full [] s.

(** [str(n)] for an [int]. CPython 3.11 and later raise [ValueError] for a
    number of more than [sys.int_max_str_digits] digits; [of_int] is
    [str(n)] for the numbers within that limit. *)
Definition of_int (n : Z) : str :=
  lit (DecimalString.NilEmpty.string_of_int (Z.to_int n)).

(** [sys.int_max_str_digits], as it is unless it was configured. *)
Definition int_max_str_digits : Z := 4300.

(** The numbers that [str] and an f-string format: those of at most
    [int_max_str_digits] digits, whatever their sign. *)
Definition formattable (n : Z) : Prop :=
  (Z.abs n < 10 ^ int_max_str_digits)%Z.

(** [s.count(sub)]: occurrences of [sub], not overlapping, left to right. *)
Fixpoint count_from (sub : str) (skip : nat) (s : str) : nat :=
  match s with
  | [] => 0
  | c :: r =>
      match skip with
      | S k => count_from sub k r
      | O => if startswith s sub
             then S (count_from sub (Nat.pred (length sub)) r)
             else count_from sub 0 r
      end
  end.

Definition count (sub s : str) : nat :=
  match sub with
  | [] => S (length s)
  | _ :: _ => count_from sub 0 s
  end.

End Str.

Import Str.

(** ** [textwrap.dedent] *)

Module Textwrap.

Definition is_space_or_tab (c : char) : bool := N.eqb c SPACE || N.eqb c TAB.

(** A line that [_whitespace_only_re] matches: one or more spaces and
    tabs between the start and the end of the line. *)
Definition whitespace_only (line : str) : bool :=
  match line with
  | [] => false
  | _ :: _ => forallb is_space_or_tab line
  end.

(** [_whitespace_only_re.sub('', text)]: with [re.MULTILINE], [^] and [$]
    match at the line feeds only. *)
Definition sub_whitespace_only (text : str) : str :=
  join [LF] (map (fun l => if whitespace_only l then [] else l)
                 (split LF text)).

(** The group of [_leading_whitespace_re] on one line: the spaces and
    tabs at the start of the line, when a character other than space, tab
    and line feed follows them. *)
Fixpoint leading_whitespace (line : str) : option str :=
  match line with
  | [] => None
  | c :: r =>
      if is_space_or_tab c
      then option_map (cons c) (leading_whitespace r)
      else Some []
  end.

(** [_leading_whitespace_re.findall(text)] *)
Definition findall_leading_whitespace (text : str) : list str :=
  flat_map (fun l => match leading_whitespace l with
                     | Some i => [i]
                     | None => []
                     end)
           (split LF text).

(** The first [i] with [margin[i] != indent[i]] in [zip(margin, indent)]. *)
Fixpoint first_mismatch (margin indent : str) : option nat :=
  match margin, indent with
  | x :: m, y :: i =>
      if N.eqb x y then option_map S (first_mismatch m i) else Some 0
  | _, _ => None
  end.

(** One round of the [for indent in indents] loop. *)
Definition update_margin (margin : option str) (indent : str) : option str :=
  match margin with
  | None => Some indent
  | Some m =>
      if startswith indent m then Some m
      else if startswith m indent then Some indent
      else match first_mismatch m indent with
           | Some i => Some (firstn i m)
           | None => Some m
           end
  end.

(** [re.sub] of the margin at the start of a line by the empty string. *)
Definition sub_margin (margin text : str) : str :=
  join [LF] (map (fun l => if startswith l margin
                           then skipn (length margin) l else l)
                 (split LF text)).

Definition dedent (text : str) : str :=
  let text := sub_whitespace_only text in
  let indents := findall_leading_whitespace text in
  let margin := fold_left update_margin indents None in
  match margin with
  | Some (c :: m) => sub_margin (c :: m) text
  | _ => text
  end.

End Textwrap.

(** ** Frame normalisation *)

(** [max(...)] over a generator of lengths. *)
Definition py_max (xs : list nat) : result nat :=
  match xs with
  | [] => Raise ValueError
  | x :: rest => Ok (fold_left Nat.max rest x)
  end.

Definition _dedent_lines (block : str) : list str :=
  splitlines (strip_chars [LF] (Textwrap.dedent block)).

(** One round of [for frame in split_frames]: the string that is appended
    to [normalized]. *)
Definition pad_frame (width height : nat) (frame : list str) : str :=
  let padded_lines := map (ljust width) frame in
  let padded_lines :=
    if length padded_lines <? height
    then padded_lines ++ repeat (spaces width) (height - length padded_lines)
    else padded_lines in
  join [LF] padded_lines.

Definition _normalize_frames (raw_frames : list str) : result (list str) :=
  let split_frames := map _dedent_lines raw_frames in
  width <- py_max (map (@length char) (concat split_frames)) ;;
  height <- py_max (map (@length str) split_frames) ;;
  Ok (map (pad_frame width height) split_frames).

(** ** Spinner *)

(** A Python [float] is a binary64 number, [PrimFloat.float]; the delay is
    only handed to the sleep function. *)

Module Spinner.

Record t : Type := { frames : list str; delay : float }.

(** [0.12], as the binary64 number that the literal denotes. *)
Definition default_delay : float := 0x1.eb851eb851eb8p-4%float.

Definition __init__ (frames : list str) (delay : float) : result t :=
  match frames with
  | [] => Raise ValueError
  | _ :: _ => Ok {| frames := frames; delay := delay |}
  end.

(** [itertools.cycle(self.frames)]: the element that the iterator gives at
    position [index], [None] when it gives none (no frames). *)
Definition cycle (self : t) (index : nat) : option str :=
  match frames self with
  | [] => None
  | _ :: _ => nth_error (frames self) (index mod length (frames self))
  end.

End Spinner.

(** ** Choice parsing *)

Definition parse_choice (lower_full : str -> char -> str -> str)
    (value : str) : result str :=
  let lowered := lower lower_full (strip value) in
  if mem lowered [lit "chip"; lit "c"] then Ok (lit "chip")
  else if mem lowered [lit "cockroach"; lit "roach"; lit "r"]
  then Ok (lit "cockroach")
  else Raise ValueError.

(** ** The animation loop *)

Definition ESC : str := [27%N].
Definition MOVE_HOME : str := ESC ++ lit "[H".
Definition CLEAR_SCREEN : str := ESC ++ lit "[2J".
Definition CLEAR_AND_HOME : str := CLEAR_SCREEN ++ MOVE_HOME.

(** What the console calls of [enable_virtual_terminal_processing] do. *)
Inductive console_result : Type :=
| ConsoleRaises
| GetConsoleModeFails
| SetConsoleModeFails
| ConsoleModeSet.

(** [_enabled] is the attribute of the function object: absent, [False]
    or [True]. *)
Definition enable_virtual_terminal_processing (os_name_is_nt : bool)
    (console : console_result) (_enabled : option bool) : option bool :=
  if negb os_name_is_nt then _enabled
  else match _enabled with
       | Some true => _enabled
       | _ =>
           match console with
           | ConsoleModeSet => Some true
           | ConsoleRaises => Some false
           | GetConsoleModeFails | SetConsoleModeFails => _enabled
           end
       end.

Module Animation.

Section Loop.

(** The state of all that the writer and the sleep function can reach. *)
Variable World : Type.

Inductive outcome : Type :=
| Returns (w : World)
| Raises (e : exn) (w : World).

(** The [writer] argument: its truth value, its [write] and [flush]
    attributes when it has them, and the call [writer(text)]. *)
Record writer : Type := {
  truthy : bool;
  write_attr : option (str -> World -> outcome);
  flush_attr : option (World -> outcome);
  call : str -> World -> outcome
}.

(** The [sleep_fn] argument: its truth value and the call
    [sleep_fn(seconds)]. *)
Record sleep_function : Type := {
  sleep_truthy : bool;
  sleep_call : float -> World -> outcome
}.

Record environment : Type := {
  sys_stdout : writer;
  time_sleep : float -> World -> outcome;
  os_name_is_nt : bool;
  console : console_result
}.

(** The calls that [animate] makes, in order. *)
Inductive event : Type :=
| Write (text : str)
| Flush
| Sleep (seconds : float).

Definition action : Type := World -> list event * outcome.

Definition then_ (a b : action) : action :=
  fun w =>
    match a w with
    | (t, Returns w') => let (t', o) := b w' in (t ++ t', o)
    | (t, Raises e w') => (t, Raises e w')
    end.

Definition skip : action := fun w => ([], Returns w).

Inductive status : Type :=
| Returned
| Raised (e : exn)
| Running.

Record run : Type := {
  trace : list event;
  final : status;
  world : World;
  vt_enabled : option bool
}.

Variable write_fn : str -> World -> outcome.
Variable flush_fn : option (World -> outcome).
Variable sleep_fn : float -> World -> outcome.
Variable spinner : Spinner.t.
Variable iterations : option Z.

Definition INSTRUCTION : str := lit "Press Ctrl+C to stop." ++ [LF].
Definition GOODBYE : str :=
  CLEAR_AND_HOME ++ lit "Stopped. Thanks for spinning!" ++ [LF].

(** The body of the [for] loop up to the test of the cap. *)
Definition body (frame : str) : action :=
  then_ (fun w => ([Write (CLEAR_AND_HOME ++ frame ++ [LF])],
                   write_fn (CLEAR_AND_HOME ++ frame ++ [LF]) w))
 (then_ (fun w => ([Write INSTRUCTION], write_fn INSTRUCTION w))
 (then_ (match flush_fn with
         | Some f => fun w => ([Flush], f w)
         | None => skip
         end)
        (fun w => ([Sleep (Spinner.delay spinner)],
                   sleep_fn (Spinner.delay spinner) w)))).

(** [iterations is not None and index + 1 >= iterations] *)
Definition cap_reached (index : nat) : bool :=
  match iterations with
  | Some n => (Z.of_nat index + 1 >=? n)%Z
  | None => false
  end.

(** [for index, frame in enumerate(spinner.cycle())], from [index] on;
    [fuel] bounds the number of rounds that are run, and [Running] says
    that the loop has not ended within them. *)
Fixpoint loop (fuel index : nat) (w : World) : list event * status * World :=
  match fuel with
  | O => ([], Running, w)
  | S fuel' =>
      match Spinner.cycle spinner index with
      | None => ([], Returned, w)
      | Some frame =>
          match body frame w with
          | (t, Raises e w') => (t, Raised e, w')
          | (t, Returns w') =>
              if cap_reached index then (t, Returned, w')
              else let '(t', s, w'') := loop fuel' (S index) w' in
                   (t ++ t', s, w'')
          end
      end
  end.

(** [try: ... except KeyboardInterrupt: write_fn(...)] *)
Definition guarded (fuel : nat) (w : World) : list event * status * World :=
  match loop fuel 0 w with
  | (t, Raised KeyboardInterrupt, w') =>
      match write_fn GOODBYE w' with
      | Returns w'' => (t ++ [Write GOODBYE], Returned, w'')
      | Raises e w'' => (t ++ [Write GOODBYE], Raised e, w'')
      end
  | r => r
  end.

End Loop.

Arguments Returns {World} w.
Arguments Raises {World} e w.

(** [writer = writer or sys.stdout] *)
Definition choose_writer (World : Type) (env : environment World)
    (writer_arg : option (writer World)) : writer World :=
  match writer_arg with
  | Some o => if truthy o then o else sys_stdout env
  | None => sys_stdout env
  end.

(** [write_fn = writer.write if hasattr(writer, "write") else writer] *)
Definition write_fn_of (World : Type) (o : writer World)
    : str -> World -> outcome World :=
  match write_attr o with
  | Some f => f
  | None => call o
  end.

(** [sleep_fn = sleep_fn or time.sleep] *)
Definition choose_sleep (World : Type) (env : environment World)
    (sleep_arg : option (sleep_function World))
    : float -> World -> outcome World :=
  match sleep_arg with
  | Some f => if sleep_truthy f then sleep_call f else time_sleep env
  | None => time_sleep env
  end.

(** A function or a lambda given as [sleep_fn]: such an object is true. *)
Definition py_function (World : Type) (f : float -> World -> outcome World)
    : sleep_function World :=
  {| sleep_truthy := true; sleep_call := f |}.

Definition animate (World : Type) (env : environment World) (fuel : nat)
    (spinner : Spinner.t) (iterations : option Z)
    (writer_arg : option (writer World))
    (sleep_arg : option (sleep_function World))
    (_enabled : option bool) (w : World) : run World :=
  let writer := choose_writer env writer_arg in
  let write_fn := write_fn_of writer in
  let flush_fn := flush_attr writer in
  let sleep_fn := choose_sleep env sleep_arg in
  let enabled :=
    enable_virtual_terminal_processing (os_name_is_nt env) (console env)
      _enabled in
  let '(t, s, w') :=
    guarded write_fn flush_fn sleep_fn spinner iterations fuel w in
  {| trace := t; final := s; world := w'; vt_enabled := enabled |}.

Definition is_sleep (e : event) : bool :=
  match e with
  | Sleep _ => true
  | _ => false
  end.


Definition is_write_of (text : str) (e : event) : bool :=
  match e with
  | Write text' => Str.eqb text' text
  | _ => false
  end.

Definition written (t : list event) : list str :=
  flat_map (fun e => match e with
                     | Write text => [text]
                     | _ => []
                     end) t.

(** The writer of the tests: [write] appends to a buffer, [flush] does
    nothing. The world is the buffer. *)
Definition FakeWriter : writer (list str) :=
  {| truthy := true;
     write_attr := Some (fun text buffer => Returns (buffer ++ [text]));
     flush_attr := Some (fun buffer => Returns buffer);
     call := fun _ buffer => Raises (OtherException 0) buffer |}.

(** [FakeWriter.joined] *)
Definition joined (buffer : list str) : str := join [] buffer.

End Animation.

(** ** PhraseGenerator *)

(** [xs[i]] *)
Definition getitem (A : Type) (xs : list A) (i : Z) : result A :=
  let n := Z.of_nat (length xs) in
  let j := if (i <? 0)%Z then (i + n)%Z else i in
  if ((0 <=? j) && (j <? n))%Z
  then match nth_error xs (Z.to_nat j) with
       | Some x => Ok x
       | None => Raise IndexError
       end
  else Raise IndexError.

(** [a % b] and [a // b] on [int] *)
Definition py_mod (a b : Z) : result Z :=
  if (b =? 0)%Z then Raise ZeroDivisionError else Ok (a mod b)%Z.

Definition py_floordiv (a b : Z) : result Z :=
  if (b =? 0)%Z then Raise ZeroDivisionError else Ok (a / b)%Z.

Module PhraseGenerator.

Record t : Type := {
  intros : list str;
  claims : list str;
  tag : str;
  counter : Z
}.

Definition __init__ (intros claims : list str) (tag : str) : result t :=
  match intros, claims with
  | _ :: _, _ :: _ =>
      Ok {| intros := intros; claims := claims; tag := tag; counter := 0 |}
  | _, _ => Raise ValueError
  end.

(** The text of a production. *)
Definition phrase (intro claim tag : str) (n : Z) : str :=
  intro ++ lit " " ++ claim ++ lit " (" ++ tag ++ lit " #" ++ of_int n
  ++ lit ")".

Definition __next__ (self : t) : result (str * t) :=
  let idx := counter self in
  i <- py_mod idx (Z.of_nat (length (intros self))) ;;
  intro <- getitem (intros self) i ;;
  q <- py_floordiv idx (Z.of_nat (length (intros self))) ;;
  j <- py_mod q (Z.of_nat (length (claims self))) ;;
  claim <- getitem (claims self) j ;;
  let self' := {| intros := intros self; claims := claims self;
                  tag := tag self; counter := counter self + 1 |} in
  Ok (phrase intro claim (tag self) (counter self'), self').

(** [n] calls of [next], with what they return, in order. *)
Fixpoint productions (n : nat) (self : t) : result (list str * t) :=
  match n with
  | O => Ok ([], self)
  | S k =>
      p <- __next__ self ;;
      r <- productions k (snd p) ;;
      Ok (fst p :: fst r, snd r)
  end.

End PhraseGenerator.

(** ** The two figures *)

(** The raw frames of [chip_spinner] and [cockroach_spinner]: each raw
    string literal, as its lines joined by line feeds. The code point 34 is
    the double quote. *)
Definition chip_raw_frames : list str :=
  [join [LF]
     [[];
      lit "                   ____________";
      lit "                .-'            '-.";
      lit "              .'    _  LAYS _     '.";
      lit "             /    .' `'----'`.      \";
      lit "            |    /  o      o  \      |";
      lit "            |    |            |      |";
      lit "             \    \   .--.   /      /";
      lit "              '.   '._\__/_.''    .'";
      lit "                '-.          .-'";
      lit "                   '--------'";
      lit "        "];
   join [LF]
     [[];
      lit "                     _______";
      lit "                .-''        ''-.";
      lit "              .'    LAYS        '.";
      (lit "             /    .-" ++ [34%N; 34%N; 34%N; 34%N]
       ++ lit "-.        \");
      lit "            |   /  o  o  \         |";
      lit "            |   \   __   /         |";
      lit "             \    '-.__.-'        /";
      lit "              '.                .'";
      lit "                 '-.        .-'";
      lit "                    '------'";
      lit "        "];
   join [LF]
     [[];
      lit "                     __________";
      lit "                   /          /";
      lit "                  /  LAYS    /";
      lit "                  \         /";
      lit "                   \_______/";
      lit "                   /       \";
      lit "                  /_________\";
      lit "        "];
   join [LF]
     [[];
      lit "                    _______";
      lit "               .-''        ''-.";
      lit "             .'        LAYS    '.";
      (lit "            /        .-" ++ [34%N; 34%N; 34%N; 34%N]
       ++ lit "-.    \");
      lit "           |         \ o  o /     |";
      lit "           |         /  __  \     |";
      lit "            \        '-.__.-'    /";
      lit "             '.                .'";
      lit "                '-.        .-'";
      lit "                   '------'";
      lit "        "]].

Definition cockroach_raw_frames : list str :=
  [join [LF]
     [[];
      lit "                       /\        /\";
      lit "                 ___.-'( )------( )'-.___";
      lit "               .'      /  \    /  \      '.";
      lit "              /      _/____\__/____\_      \";
      lit "             /      /  /  /    \  \  \      \";
      lit "            |      |  /__/      \__\  |      |";
      lit "             \      \              /      /";
      lit "              '.      '._      _.'      .'";
      lit "                 '-._____\____/_____.-'";
      lit "                    /    /    \    \";
      lit "                   (    (      )    )";
      lit "        "];
   join [LF]
     [[];
      lit "                       /\  /\ ";
      lit "                      (  \/  )";
      lit "                 ___.- \    / -.___";
      lit "               .'      \__/      '.";
      lit "              /      __/  \__      \";
      lit "             /     _/  /\  \_ \     \";
      lit "            |     |__ /  \ __| |     |";
      lit "             \      /      \      /";
      lit "              '.    '._  _.'    .'";
      lit "                 '-.____\/____.-'";
      lit "                    /    /\    \";
      lit "                   (    (  )    )";
      lit "        "];
   join [LF]
     [[];
      lit "                       /\        /\";
      lit "                      //\\      //\\";
      lit "                 ____//  \\____//  \\____";
      lit "               .'      /\  /\  /\      '.";
      lit "              /      _/  \/  \/  \_      \";
      lit "             /     _/   (      )   \_     \";
      lit "            |     |__   \_/\__/   __|     |";
      lit "             \      /            \      /";
      lit "              '.    '._        _.'    .'";
      lit "                 '-.____\____/____.-'";
      lit "                    /    /    \    \";
      lit "                   (    (      )    )";
      lit "        "];
   join [LF]
     [[];
      lit "                      /\  /\ ";
      lit "                     (  \/  )";
      lit "                 ____/      \____";
      lit "               .'     /\  /\     '.";
      lit "              /     _/  \/  \_     \";
      lit "             /    _/   /\   \_ \    \";
      lit "            |    |__  /  \  __| |    |";
      lit "             \     /        \     /";
      lit "              '.   '._    _.'   .'";
      lit "                 '-.___\__/__.-'";
      lit "                    /   /\   \";
      lit "                   (   (  )   )";
      lit "        "]].
Definition chip_spinner : result Spinner.t :=
  frames <- _normalize_frames chip_raw_frames ;;
  Spinner.__init__ frames Spinner.default_delay.

Definition cockroach_spinner : result Spinner.t :=
  frames <- _normalize_frames cockroach_raw_frames ;;
  Spinner.__init__ frames Spinner.default_delay.

(** ** The console mode *)

Definition ENABLE_VT_FLAG : Z := 4.

(** [new_mode = mode.value | ENABLE_VT_FLAG], for the value of a [DWORD]. *)
Definition new_console_mode (mode : Z) : Z := Z.lor mode ENABLE_VT_FLAG.

(** ** Printing *)

(** The exception of a missing attribute. *)
Definition AttributeError : exn := OtherException 1.

(** [print(text)] with [sys.stdout] as the file: a write of the text and a
    write of the line feed. *)
Definition print (World : Type) (env : Animation.environment World)
    (text : str) : Animation.action World :=
  match Animation.write_attr (Animation.sys_stdout env) with
  | Some write =>
      Animation.then_
        (fun w => ([Animation.Write text], write text w))
        (fun w => ([Animation.Write [LF]], write [LF] w))
  | None => fun w => ([], Animation.Raises AttributeError w)
  end.

(** ** prompt_choice *)

Module Prompt.

Section Prompt.

Variable World : Type.

(** What a call of [input_fn] does: it returns a text or raises. *)
Inductive answer : Type :=
| Answers (text : str) (w : World)
| Fails (e : exn) (w : World).

(** The calls that [prompt_choice] makes, in order. *)
Inductive event : Type :=
| Ask (prompt : str)
| Out (e : Animation.event).

Inductive status : Type :=
| Chosen (choice : str)
| Raised (e : exn)
| Running.

Variable lower_full : str -> char -> str -> str.
Variable env : Animation.environment World.
Variable input_fn : str -> World -> answer.

Definition PROMPT : str := lit "Choose spinner (chip/cockroach): ".
Definition HINT : str := lit "Please type 'chip' or 'cockroach'.".

(** [while True: ...]; [fuel] bounds the number of rounds, and [Running]
    says that no choice was made within them. *)
Fixpoint prompt_choice (fuel : nat) (w : World)
    : list event * status * World :=
  match fuel with
  | O => ([], Running, w)
  | S fuel' =>
      match input_fn PROMPT w with
      | Fails e w' => ([Ask PROMPT], Raised e, w')
      | Answers choice w' =>
          match parse_choice lower_full choice with
          | Ok value => ([Ask PROMPT], Chosen value, w')
          | Raise ValueError =>
              match print env HINT w' with
              | (t, Animation.Returns w'') =>
                  let '(t', s, w''') := prompt_choice fuel' w'' in
                  (Ask PROMPT :: map Out t ++ t', s, w''')
              | (t, Animation.Raises e w'') =>
                  (Ask PROMPT :: map Out t, Raised e, w'')
              end
          | Raise e => ([Ask PROMPT], Raised e, w')
          end
      end
  end.

End Prompt.

Arguments Answers {World} text w.
Arguments Fails {World} e w.

End Prompt.

(** ** run_debate *)

Module Debate.

Definition pro_claude_intros : list str :=
  [lit "Claude's edge:"; lit "From the chip's view:"; lit "Sunny stance:";
   lit "Crunchy take:"].

Definition pro_claude_claims : list str :=
  [lit "strong writing fidelity and long-context composure put it ahead of ChatGPT.";
   lit "its calm, less verbose tone keeps focus without over-talking the user.";
   lit "tool-use orchestration feels crisp and reliable even in tricky flows.";
   lit "it guards nuance while staying unflappable under messy prompts.";
   lit "safety balance is steady without draining the creative spark."].

Definition pro_chatgpt_intros : list str :=
  [lit "Roach rebuttal:"; lit "Counter-crawl:"; lit "Skittering stance:";
   lit "Ground truth:"].

Definition pro_chatgpt_claims : list str :=
  [lit "ChatGPT is faster on the draw and improvises beautifully under pressure.";
   lit "breadth of training shows up in quirky edge knowledge that saves sessions.";
   lit "it pairs concision with crisp code scaffolds better than you admit.";
   lit "multimodal agility keeps users moving without leaving the terminal.";
   lit "the ecosystem and plugins make ChatGPT a sturdier daily driver."].

Definition STARTING : str := lit "Starting with the chip. Ctrl+C to exit.".

(** The argument of [time.sleep(3)], as the float that [time.sleep] makes
    of it. *)
Definition PAUSE : float := 3%float.

Section Debate.

Variable World : Type.
Variable env : Animation.environment World.

(** The state between two statements of the loop. *)
Record state : Type := {
  pro_claude : PhraseGenerator.t;
  pro_chatgpt : PhraseGenerator.t;
  _enabled : option bool;
  world : World
}.

Definition step : Type :=
  state -> list Animation.event * Animation.status * state.

(** [animate(spinner, iterations=len(spinner.frames))] *)
Definition animate_all (inner : nat) (spinner : Spinner.t) : step :=
  fun st =>
    let r := Animation.animate env inner spinner
               (Some (Z.of_nat (length (Spinner.frames spinner))))
               None None (_enabled st) (world st) in
    (Animation.trace r, Animation.final r,
     {| pro_claude := pro_claude st; pro_chatgpt := pro_chatgpt st;
        _enabled := Animation.vt_enabled r; world := Animation.world r |}).

Definition with_world (st : state) (w : World) : state :=
  {| pro_claude := pro_claude st; pro_chatgpt := pro_chatgpt st;
     _enabled := _enabled st; world := w |}.

Definition lift (a : Animation.action World) : step :=
  fun st =>
    match a (world st) with
    | (t, Animation.Returns w) => (t, Animation.Returned, with_world st w)
    | (t, Animation.Raises e w) => (t, Animation.Raised e, with_world st w)
    end.

(** [print(f"Chip: {next(pro_claude)}")] *)
Definition say_chip : step :=
  fun st =>
    match PhraseGenerator.__next__ (pro_claude st) with
    | Raise e => ([], Animation.Raised e, st)
    | Ok (text, g) =>
        lift (print env (lit "Chip: " ++ text))
          {| pro_claude := g; pro_chatgpt := pro_chatgpt st;
             _enabled := _enabled st; world := world st |}
    end.

(** [print(f"Cockroach: {next(pro_chatgpt)}")] *)
Definition say_cockroach : step :=
  fun st =>
    match PhraseGenerator.__next__ (pro_chatgpt st) with
    | Raise e => ([], Animation.Raised e, st)
    | Ok (text, g) =>
        lift (print env (lit "Cockroach: " ++ text))
          {| pro_claude := pro_claude st; pro_chatgpt := g;
             _enabled := _enabled st; world := world st |}
    end.

(** [time.sleep(3)] *)
Definition pause : step :=
  lift (fun w => ([Animation.Sleep PAUSE], Animation.time_sleep env PAUSE w)).

(** One statement after another: the second runs when the first returned. *)
Definition and_then (a b : step) : step :=
  fun st =>
    match a st with
    | (t, Animation.Returned, st') =>
        let '(t', s, st'') := b st' in (t ++ t', s, st'')
    | r => r
    end.

(** The body of [while True]. *)
Definition round (inner : nat) (chip roach : Spinner.t) : step :=
  and_then (animate_all inner chip)
 (and_then say_chip
 (and_then pause
 (and_then (animate_all inner roach)
 (and_then say_cockroach pause)))).

(** [while True: ...]: [fuel] bounds the number of rounds of the loop and
    [inner] those of each call of [animate]. *)
Fixpoint forever (fuel inner : nat) (chip roach : Spinner.t) : step :=
  match fuel with
  | O => fun st => ([], Animation.Running, st)
  | S fuel' =>
      and_then (round inner chip roach) (forever fuel' inner chip roach)
  end.

(** [run_debate()], up to the failure of a construction. *)
Definition run_debate (fuel inner : nat) (enabled : option bool)
    (w : World)
    : result (list Animation.event * Animation.status * state) :=
  chip <- chip_spinner ;;
  roach <- cockroach_spinner ;;
  pro_claude <-
    PhraseGenerator.__init__ pro_claude_intros pro_claude_claims
      (lit "claude-support") ;;
  pro_chatgpt <-
    PhraseGenerator.__init__ pro_chatgpt_intros pro_chatgpt_claims
      (lit "chatgpt-defense") ;;
  Ok (and_then (lift (print env STARTING)) (forever fuel inner chip roach)
        {| pro_claude := pro_claude; pro_chatgpt := pro_chatgpt;
           _enabled := enabled; world := w |}).

(** [main()] *)
Definition main := run_debate.

End Debate.

End Debate.

(** * Properties *)

Unset Implicit Arguments.

(** ** Lists and strings *)

Lemma fold_left_max_list_max (xs : list nat) (a : nat) :
  fold_left Nat.max xs a = Nat.max a (list_max xs).
Proof.
  revert a. induction xs as [|x xs IH]; intros a; simpl.
  - lia.
  - rewrite IH. lia.
Qed.

Lemma py_max_cons (x : nat) (xs : list nat) :
  py_max (x :: xs) = Ok (list_max (x :: xs)).
Proof.
  unfold py_max. rewrite fold_left_max_list_max. reflexivity.
Qed.

Lemma py_max_nonempty (xs : list nat) :
  xs <> [] -> py_max xs = Ok (list_max xs).
Proof.
  destruct xs as [|x xs]; [congruence|]. intros _. apply py_max_cons.
Qed.

Lemma list_max_ge (xs : list nat) (x : nat) : In x xs -> x <= list_max xs.
Proof.
  intros Hin. assert (H : list_max xs <= list_max xs) by lia.
  rewrite list_max_le in H. rewrite Forall_forall in H. auto.
Qed.

Definition no_char (c : char) (s : str) : Prop := Forall (fun x => x <> c) s.

Lemma split_cons_line (c : char) (s : str) :
  exists l ls, split c s = l :: ls.
Proof.
  induction s as [|x r IH]; simpl.
  - eauto.
  - destruct (N.eqb x c); [eauto|].
    destruct IH as (l & ls & ->). eauto.
Qed.

Lemma split_no_char (c : char) (s : str) : no_char c s -> split c s = [s].
Proof.
  induction 1 as [|x r Hx Hr IH]; simpl; [reflexivity|].
  apply N.eqb_neq in Hx. rewrite Hx, IH. reflexivity.
Qed.

Lemma split_app_sep (c : char) (l r : str) :
  no_char c l -> split c (l ++ c :: r) = l :: split c r.
Proof.
  induction 1 as [|x l' Hx Hl IH]; simpl.
  - rewrite N.eqb_refl. reflexivity.
  - apply N.eqb_neq in Hx. rewrite Hx, IH. reflexivity.
Qed.

(** Splitting at the separator undoes [join], when no part holds it. *)
Lemma split_join (c : char) (parts : list str) :
  parts <> [] -> Forall (no_char c) parts ->
  split c (join [c] parts) = parts.
Proof.
  induction parts as [|p rest IH]; [congruence|].
  intros _ Hall. inversion Hall as [|? ? Hp Hrest]; subst.
  destruct rest as [|q rest'].
  - simpl. apply split_no_char; assumption.
  - change (join [c] (p :: q :: rest')) with (p ++ c :: join [c] (q :: rest')).
    rewrite split_app_sep by assumption.
    rewrite IH; [reflexivity|congruence|assumption].
Qed.

Lemma join_split (c : char) (s : str) : join [c] (split c s) = s.
Proof.
  induction s as [|x r IH]; [reflexivity|].
  simpl. destruct (N.eqb_spec x c) as [->|Hne].
  - destruct (split_cons_line c r) as (l & ls & E).
    rewrite E in *. simpl in *. rewrite IH. reflexivity.
  - destruct (split_cons_line c r) as (l & ls & E).
    rewrite E in *. destruct ls; simpl in *; rewrite <- IH; reflexivity.
Qed.

Definition no_linebreak (s : str) : Prop :=
  Forall (fun x => is_linebreak x = false) s.

Lemma no_linebreak_no_LF (s : str) : no_linebreak s -> no_char LF s.
Proof.
  apply Forall_impl. intros x Hx ->. discriminate.
Qed.

(** No line of [splitlines] holds a line boundary. *)
Lemma splitlines_no_linebreak (s : str) : Forall no_linebreak (splitlines s).
Proof.
  remember (length s) as n eqn:Hn.
  revert s Hn. induction n as [n IH] using lt_wf_ind. intros s Hn.
  destruct s as [|x r]; simpl; [constructor|].
  destruct (is_linebreak x) eqn:Hx.
  - constructor; [constructor|].
    destruct r as [|y r']; [constructor|].
    destruct (N.eqb x CR && N.eqb y LF).
    + apply (IH (length r')); simpl in *; [lia|reflexivity].
    + apply (IH (length (y :: r'))); simpl in *; [lia|reflexivity].
  - assert (Hr : Forall no_linebreak (splitlines r))
      by (apply (IH (length r)); simpl in *; [lia|reflexivity]).
    destruct (splitlines r) as [|l ls].
    + repeat constructor. assumption.
    + inversion Hr; subst. constructor; [constructor|]; assumption.
Qed.

Lemma length_spaces (n : nat) : length (spaces n) = n.
Proof. apply repeat_length. Qed.

Lemma length_ljust (width : nat) (s : str) :
  length (ljust width s) = Nat.max width (length s).
Proof.
  unfold ljust. rewrite length_app, length_spaces. lia.
Qed.

Lemma no_linebreak_spaces (n : nat) : no_linebreak (spaces n).
Proof.
  unfold no_linebreak, spaces. apply Forall_forall.
  intros x Hx. apply repeat_spec in Hx. subst. reflexivity.
Qed.

Lemma no_linebreak_ljust (width : nat) (s : str) :
  no_linebreak s -> no_linebreak (ljust width s).
Proof.
  intros H. unfold ljust. apply Forall_app. split; [assumption|].
  apply no_linebreak_spaces.
Qed.

(** ** Frame normalisation *)

(** The lines that [_normalize_frames] joins for one frame. *)
Definition padded_lines (width height : nat) (frame : list str) : list str :=
  map (ljust width) frame ++ repeat (spaces width) (height - length frame).

Lemma pad_frame_join (width height : nat) (frame : list str) :
  pad_frame width height frame = join [LF] (padded_lines width height frame).
Proof.
  unfold pad_frame, padded_lines. rewrite length_map.
  destruct (Nat.ltb_spec (length frame) height) as [Hlt|Hge]; [reflexivity|].
  replace (height - length frame) with 0 by lia.
  simpl. rewrite app_nil_r. reflexivity.
Qed.

Lemma length_padded_lines (width height : nat) (frame : list str) :
  length (padded_lines width height frame) = Nat.max height (length frame).
Proof.
  unfold padded_lines. rewrite length_app, length_map, repeat_length. lia.
Qed.

Lemma padded_lines_width (width height : nat) (frame : list str) :
  Forall (fun l => length l <= width) frame ->
  Forall (fun l => length l = width) (padded_lines width height frame).
Proof.
  intros H. unfold padded_lines. apply Forall_app. split.
  - apply Forall_map. revert H. apply Forall_impl.
    intros l Hl. rewrite length_ljust. lia.
  - apply Forall_forall. intros l Hl. apply repeat_spec in Hl. subst.
    apply length_spaces.
Qed.

Lemma padded_lines_no_linebreak (width height : nat) (frame : list str) :
  Forall no_linebreak frame ->
  Forall no_linebreak (padded_lines width height frame).
Proof.
  intros H. unfold padded_lines. apply Forall_app. split.
  - apply Forall_map. revert H. apply Forall_impl.
    intros l. apply no_linebreak_ljust.
  - apply Forall_forall. intros l Hl. apply repeat_spec in Hl. subst.
    apply no_linebreak_spaces.
Qed.

(** The maximum line length and line count over all the frames. *)
Definition width_of (split_frames : list (list str)) : nat :=
  list_max (map (@length char) (concat split_frames)).

Definition height_of (split_frames : list (list str)) : nat :=
  list_max (map (@length str) split_frames).

Lemma width_of_bound (split_frames : list (list str)) (frame : list str) :
  In frame split_frames ->
  Forall (fun l => length l <= width_of split_frames) frame.
Proof.
  intros Hin. apply Forall_forall. intros l Hl.
  apply list_max_ge. apply in_map. apply in_concat. eauto.
Qed.

Lemma height_of_bound (split_frames : list (list str)) (frame : list str) :
  In frame split_frames -> length frame <= height_of split_frames.
Proof.
  intros Hin. apply list_max_ge. apply in_map. assumption.
Qed.

(** What [_normalize_frames] returns when some frame has a line. *)
Lemma normalize_frames_ok (raw_frames : list str) :
  concat (map _dedent_lines raw_frames) <> [] ->
  _normalize_frames raw_frames =
  Ok (map (fun b => pad_frame (width_of (map _dedent_lines raw_frames))
                      (height_of (map _dedent_lines raw_frames))
                      (_dedent_lines b)) raw_frames).
Proof.
  intros Hne. unfold _normalize_frames.
  rewrite py_max_nonempty.
  2:{ intros E. apply map_eq_nil in E. contradiction. }
  simpl. rewrite py_max_nonempty.
  2:{ intros E. apply map_eq_nil in E. rewrite E in Hne. apply Hne.
      reflexivity. }
  simpl. rewrite map_map. reflexivity.
Qed.

Lemma normalize_frames_error (raw_frames : list str) :
  concat (map _dedent_lines raw_frames) = [] ->
  _normalize_frames raw_frames = Raise ValueError.
Proof.
  intros E. unfold _normalize_frames. rewrite E. reflexivity.
Qed.

Lemma concat_nil_iff {A : Type} (xss : list (list A)) :
  concat xss = [] <-> Forall (fun xs => xs = []) xss.
Proof.
  induction xss as [|xs xss IH]; simpl.
  - split; [constructor|reflexivity].
  - split.
    + intros E. apply app_eq_nil in E. destruct E as [E1 E2].
      constructor; [assumption|]. apply IH. assumption.
    + intros H. inversion H; subst. simpl. apply IH. assumption.
Qed.

(** C1: for a list of raw blocks that is not empty and in which every
    block keeps at least one line after dedent and stripping,
    [_normalize_frames] returns one string per block; the lines of each
    (the text between the line feeds that join them) are the lines of the
    block padded on the right with spaces to [width], followed by lines of
    [width] spaces up to [height] lines, so each frame has exactly
    [height] lines of exactly [width] characters, where [width] and
    [height] are the maximum line length and line count over all frames. *)
Theorem normalize_frames_rectangular (raw_frames : list str) :
  raw_frames <> [] ->
  (forall block, In block raw_frames -> _dedent_lines block <> []) ->
  let width := width_of (map _dedent_lines raw_frames) in
  let height := height_of (map _dedent_lines raw_frames) in
  exists normalized,
    _normalize_frames raw_frames = Ok normalized /\
    length normalized = length raw_frames /\
    forall i block, nth_error raw_frames i = Some block ->
      exists frame,
        nth_error normalized i = Some frame /\
        split LF frame =
          map (ljust width) (_dedent_lines block) ++
          repeat (spaces width) (height - length (_dedent_lines block)) /\
        length (split LF frame) = height /\
        Forall (fun line => length line = width) (split LF frame).
Proof.
  intros Hne Hlines width height.
  assert (Hcat : concat (map _dedent_lines raw_frames) <> []).
  { destruct raw_frames as [|b rest]; [congruence|].
    simpl. intros E. apply app_eq_nil in E. destruct E as [E _].
    apply (Hlines b); [left; reflexivity|assumption]. }
  eexists. split; [apply normalize_frames_ok; assumption|].
  split; [apply length_map|].
  intros i block Hi.
  eexists. split; [apply map_nth_error; eassumption|].
  fold width height.
  assert (Hin : In (_dedent_lines block) (map _dedent_lines raw_frames))
    by (apply in_map; eapply nth_error_In; eassumption).
  rewrite pad_frame_join.
  assert (Hsplit : split LF (join [LF] (padded_lines width height
                     (_dedent_lines block))) =
                   padded_lines width height (_dedent_lines block)).
  { apply split_join.
    - intros E. apply (f_equal (@length str)) in E.
      rewrite length_padded_lines in E. simpl in E.
      specialize (Hlines block (nth_error_In _ _ Hi)).
      destruct (_dedent_lines block); [congruence|simpl in E; lia].
    - eapply Forall_impl; [apply no_linebreak_no_LF|].
      apply padded_lines_no_linebreak, splitlines_no_linebreak. }
  rewrite Hsplit. split; [reflexivity|]. split.
  - rewrite length_padded_lines.
    pose proof (height_of_bound _ _ Hin). fold height in H. lia.
  - apply padded_lines_width. apply width_of_bound. assumption.
Qed.

Lemma normalize_frames_rectangular_witness :
  exists normalized,
    _normalize_frames [lit "  ab"; [LF] ++ lit " c" ++ [LF] ++ lit "d"]
      = Ok normalized /\
    length normalized = 2 /\
    forall i block,
      nth_error [lit "  ab"; [LF] ++ lit " c" ++ [LF] ++ lit "d"] i
        = Some block ->
      exists frame,
        nth_error normalized i = Some frame /\
        split LF frame =
          map (ljust 2) (_dedent_lines block) ++
          repeat (spaces 2) (2 - length (_dedent_lines block)) /\
        length (split LF frame) = 2 /\
        Forall (fun line => length line = 2) (split LF frame).
Proof.
  apply (normalize_frames_rectangular
           [lit "  ab"; [LF] ++ lit " c" ++ [LF] ++ lit "d"]).
  - discriminate.
  - intros block [<-|[<-|[]]]; vm_compute; discriminate.
Defined.

(** A block without lines next to a block with lines is no error: it
    becomes a frame of spaces. *)
Lemma normalize_frames_empty_block_accepted :
  In (lit "") [lit ""; lit "a"] /\
  _dedent_lines (lit "") = [] /\
  _normalize_frames [lit ""; lit "a"] = Ok [lit " "; lit "a"].
Proof.
  split; [left; reflexivity|]. split; reflexivity.
Qed.

(** C2 (as amended): [_normalize_frames] fails with [ValueError] when no
    block of the input has a line after dedent and stripping, which
    includes the empty input list; when some block has a line it returns
    a list of frames, also if other blocks of the list have no line. *)
Theorem normalize_frames_fails_without_lines (raw_frames : list str) :
  (Forall (fun block => _dedent_lines block = []) raw_frames ->
   _normalize_frames raw_frames = Raise ValueError) /\
  (Exists (fun block => _dedent_lines block <> []) raw_frames ->
   exists normalized,
     _normalize_frames raw_frames = Ok normalized /\
     length normalized = length raw_frames).
Proof.
  split.
  - intros Hall. apply normalize_frames_error.
    apply concat_nil_iff. apply Forall_map. assumption.
  - intros Hex. eexists. split.
    + apply normalize_frames_ok. intros E.
      apply concat_nil_iff in E. rewrite Forall_map in E.
      apply Exists_exists in Hex. destruct Hex as (b & Hin & Hb).
      rewrite Forall_forall in E. apply Hb, E. assumption.
    + apply length_map.
Qed.

Lemma normalize_frames_fails_without_lines_witness :
  _normalize_frames [] = Raise ValueError /\
  _normalize_frames [lit "  "; [LF; LF]] = Raise ValueError /\
  exists normalized,
    _normalize_frames [lit ""; lit "a"] = Ok normalized /\
    length normalized = 2.
Proof.
  split; [|split].
  - apply (proj1 (normalize_frames_fails_without_lines [])). constructor.
  - apply (proj1 (normalize_frames_fails_without_lines
                    [lit "  "; [LF; LF]])).
    repeat constructor.
  - apply (proj2 (normalize_frames_fails_without_lines [lit ""; lit "a"])).
    apply Exists_cons_tl. apply Exists_cons_hd. vm_compute. discriminate.
Defined.

(** A block with a carriage return: the second normalisation differs from
    the first. *)
Lemma normalize_frames_not_idempotent :
  _normalize_frames [[CR] ++ lit " a"]
    = Ok [lit "  " ++ [LF] ++ lit " a"] /\
  _normalize_frames [lit "  " ++ [LF] ++ lit " a"] = Ok [lit "a"] /\
  [lit "a"] <> [lit "  " ++ [LF] ++ lit " a"].
Proof.
  split; [reflexivity|]. split; [reflexivity|discriminate].
Qed.

(** ** Dedent and the lines of a block *)

Module DedentFacts.

Import Textwrap.

(** *** The margin is the longest common prefix of the indents *)

Fixpoint lcp (a b : str) : str :=
  match a, b with
  | x :: a', y :: b' => if N.eqb x y then x :: lcp a' b' else []
  | _, _ => []
  end.

Definition prefix (p s : str) : Prop := exists r, s = p ++ r.

Lemma prefix_refl (s : str) : prefix s s.
Proof. exists []. symmetry. apply app_nil_r. Qed.

Lemma prefix_trans (a b c : str) : prefix a b -> prefix b c -> prefix a c.
Proof.
  intros [r ->] [r' ->]. exists (r ++ r'). symmetry. apply app_assoc.
Qed.

Lemma prefix_skipn (p s : str) : prefix p s -> s = p ++ skipn (length p) s.
Proof.
  intros [r ->]. rewrite skipn_app, skipn_all, Nat.sub_diag. reflexivity.
Qed.

Lemma lcp_prefix_l (a b : str) : prefix (lcp a b) a.
Proof.
  revert b. induction a as [|x a IH]; intros [|y b]; simpl;
    try (eexists; reflexivity).
  destruct (N.eqb x y); [|eexists; reflexivity].
  destruct (IH b) as [r Hr]. exists r. simpl. congruence.
Qed.

Lemma lcp_prefix_r (a b : str) : prefix (lcp a b) b.
Proof.
  revert b. induction a as [|x a IH]; intros [|y b]; simpl;
    try (eexists; reflexivity).
  destruct (N.eqb_spec x y) as [->|]; [|eexists; reflexivity].
  destruct (IH b) as [r Hr]. exists r. simpl. congruence.
Qed.

Lemma lcp_app (x a b : str) : lcp (x ++ a) (x ++ b) = x ++ lcp a b.
Proof.
  induction x as [|c x IH]; simpl; [reflexivity|].
  rewrite N.eqb_refl, IH. reflexivity.
Qed.

Lemma startswith_prefix (s p : str) : startswith s p = true <-> prefix p s.
Proof.
  revert s. induction p as [|c p IH]; intros s; simpl.
  - split; [intros _; exists s; reflexivity|reflexivity].
  - destruct s as [|d s].
    + split; [discriminate|]. intros [r Hr]. discriminate.
    + rewrite andb_true_iff, N.eqb_eq, IH. split.
      * intros [-> [r ->]]. exists r. reflexivity.
      * intros [r Hr]. inversion Hr; subst. split; [reflexivity|].
        exists r. reflexivity.
Qed.

(** A round of the loop of [dedent] keeps the longest common prefix. *)
Lemma update_margin_lcp (m indent : str) :
  update_margin (Some m) indent = Some (lcp m indent).
Proof.
  revert indent. induction m as [|x m IH]; intros indent.
  - reflexivity.
  - destruct indent as [|y i].
    + reflexivity.
    + specialize (IH i). unfold update_margin in *. simpl.
      destruct (N.eqb_spec x y) as [->|Hne].
      * rewrite N.eqb_refl. simpl.
        destruct (startswith i m);
          [injection IH as E; rewrite <- E; reflexivity|].
        destruct (startswith m i);
          [injection IH as E; rewrite <- E; reflexivity|].
        destruct (first_mismatch m i); simpl in *;
          injection IH as E; rewrite <- E; reflexivity.
      * assert (E : N.eqb y x = false) by (apply N.eqb_neq; congruence).
        rewrite E. reflexivity.
Qed.

Lemma fold_update_margin (indents : list str) (m : str) :
  fold_left update_margin indents (Some m)
  = Some (fold_left lcp indents m).
Proof.
  revert m. induction indents as [|i indents IH]; intros m;
    cbn [fold_left].
  - reflexivity.
  - rewrite update_margin_lcp. apply IH.
Qed.

(** The margin that [dedent] removes: empty when there is none. *)
Definition margin_of (indents : list str) : str :=
  match indents with
  | [] => []
  | i :: rest => fold_left lcp rest i
  end.

Lemma fold_update_margin_None (indents : list str) :
  match fold_left update_margin indents None with
  | Some (c :: m) => c :: m
  | _ => []
  end = margin_of indents.
Proof.
  destruct indents as [|i rest]; [reflexivity|].
  cbn [fold_left update_margin margin_of]. rewrite fold_update_margin.
  destruct (fold_left lcp rest i); reflexivity.
Qed.

Lemma fold_lcp_prefix (indents : list str) : forall m,
  prefix (fold_left lcp indents m) m /\
  Forall (prefix (fold_left lcp indents m)) indents.
Proof.
  induction indents as [|i indents IH]; intros m; simpl.
  - split; [apply prefix_refl|constructor].
  - destruct (IH (lcp m i)) as [H1 H2]. split.
    + eapply prefix_trans; [exact H1|apply lcp_prefix_l].
    + constructor; [|assumption].
      eapply prefix_trans; [exact H1|apply lcp_prefix_r].
Qed.

Lemma margin_of_prefix (indents : list str) :
  Forall (prefix (margin_of indents)) indents.
Proof.
  destruct indents as [|i rest]; [constructor|].
  simpl. destruct (fold_lcp_prefix rest i). constructor; assumption.
Qed.

Lemma fold_lcp_app (x : str) (indents : list str) : forall m,
  fold_left lcp (map (app x) indents) (x ++ m)
  = x ++ fold_left lcp indents m.
Proof.
  induction indents as [|i indents IH]; intros m; simpl; [reflexivity|].
  rewrite lcp_app. apply IH.
Qed.

(** Without their margin the indents have no common prefix left. *)
Lemma margin_of_removed (indents : list str) :
  margin_of (map (skipn (length (margin_of indents))) indents) = [].
Proof.
  pose proof (margin_of_prefix indents) as Hall.
  set (m := margin_of indents) in *.
  assert (E : indents = map (app m) (map (skipn (length m)) indents)).
  { rewrite map_map. rewrite <- (map_id indents) at 1.
    apply map_ext_in. intros i Hi. rewrite Forall_forall in Hall.
    apply prefix_skipn. apply Hall. assumption. }
  destruct indents as [|i rest]; [reflexivity|].
  assert (Hm : m = fold_left lcp rest i) by reflexivity.
  clearbody m. cbn [map margin_of] in *.
  set (i' := skipn (length m) i) in *.
  set (rest' := map (skipn (length m)) rest) in *.
  injection E as E1 E2.
  assert (Hm' : m ++ [] = m ++ fold_left lcp rest' i').
  { rewrite <- fold_lcp_app, <- E1, <- E2, app_nil_r. exact Hm. }
  apply app_inv_head in Hm'. symmetry. exact Hm'.
Qed.

(** *** The lines of a dedented text *)

Definition blank_to_empty (l : str) : str :=
  if whitespace_only l then [] else l.

Definition clean (lines : list str) : list str := map blank_to_empty lines.

Definition indents (lines : list str) : list str :=
  flat_map (fun l => match leading_whitespace l with
                     | Some i => [i]
                     | None => []
                     end) lines.

Definition cut (m l : str) : str :=
  if startswith l m then skipn (length m) l else l.

(** A line that is empty or has a character other than space and tab. *)
Definition tidy (l : str) : Prop :=
  l = [] \/ exists i, leading_whitespace l = Some i.

Lemma split_lines_no_sep (c : char) (s : str) : Forall (no_char c) (split c s).
Proof.
  induction s as [|x r IH]; simpl.
  - repeat constructor.
  - destruct (N.eqb_spec x c) as [->|Hne].
    + constructor; [constructor|assumption].
    + destruct (split c r) as [|l ls].
      * repeat constructor. assumption.
      * inversion IH; subst. constructor; [|assumption].
        constructor; assumption.
Qed.

Lemma split_not_nil (c : char) (s : str) : split c s <> [].
Proof.
  destruct (split_cons_line c s) as (l & ls & ->). discriminate.
Qed.

Lemma cut_nil_margin (l : str) : cut [] l = l.
Proof. reflexivity. Qed.

Lemma cut_nil_line (m : str) : cut m [] = [].
Proof. unfold cut. destruct m; reflexivity. Qed.

(** [dedent] by lines. *)
Lemma dedent_by_lines (text : str) :
  dedent text
  = join [LF] (map (cut (margin_of (indents (clean (split LF text)))))
                   (clean (split LF text))).
Proof.
  assert (E1 : sub_whitespace_only text = join [LF] (clean (split LF text)))
    by reflexivity.
  assert (E2 : forall t, findall_leading_whitespace t = indents (split LF t))
    by reflexivity.
  assert (E3 : forall m t,
             sub_margin m t = join [LF] (map (cut m) (split LF t)))
    by reflexivity.
  assert (Hsplit : split LF (join [LF] (clean (split LF text)))
                   = clean (split LF text)).
  { apply split_join.
    - unfold clean. intros E. apply map_eq_nil in E.
      apply (split_not_nil _ _ E).
    - unfold clean. apply Forall_map.
      eapply Forall_impl; [|apply split_lines_no_sep].
      intros l Hl. unfold blank_to_empty.
      destruct (whitespace_only l); [constructor|assumption]. }
  unfold dedent. cbv zeta. rewrite E1, E2, Hsplit.
  rewrite <- fold_update_margin_None.
  destruct (fold_left update_margin (indents (clean (split LF text))) None)
    as [[|c m]|].
  - rewrite map_ext with (g := fun l => l) by apply cut_nil_margin.
    rewrite map_id. reflexivity.
  - rewrite E3, Hsplit. reflexivity.
  - rewrite map_ext with (g := fun l => l) by apply cut_nil_margin.
    rewrite map_id. reflexivity.
Qed.

Lemma leading_whitespace_None (l : str) :
  leading_whitespace l = None <-> forallb is_space_or_tab l = true.
Proof.
  induction l as [|c r IH]; simpl; [tauto|].
  destruct (is_space_or_tab c); simpl.
  - rewrite <- IH. destruct (leading_whitespace r); simpl;
      split; intros E; try discriminate E; reflexivity.
  - split; discriminate.
Qed.

Lemma leading_whitespace_Some (l i : str) :
  leading_whitespace l = Some i <->
  exists c r, l = i ++ c :: r /\ is_space_or_tab c = false /\
              forallb is_space_or_tab i = true.
Proof.
  revert i. induction l as [|x l IH]; intros i; simpl.
  - split; [discriminate|]. intros (c & r & E & _). destruct i; discriminate.
  - destruct (is_space_or_tab x) eqn:Hx.
    + split.
      * destruct (leading_whitespace l) as [j|]; simpl; [|discriminate].
        intros E. inversion E; subst.
        destruct (proj1 (IH j) eq_refl) as (c & r & -> & Hc & Hj).
        exists c, r. simpl. rewrite Hx. auto.
      * intros (c & r & E & Hc & Hi).
        destruct i as [|y i]; simpl in *.
        { inversion E; subst. congruence. }
        inversion E; subst. apply andb_true_iff in Hi. destruct Hi as [_ Hi].
        rewrite (proj2 (IH i)); [reflexivity|].
        exists c, r. auto.
    + split.
      * intros E. inversion E; subst. exists x, l. auto.
      * intros (c & r & E & Hc & Hi).
        destruct i as [|y i]; [reflexivity|].
        simpl in *. inversion E; subst.
        apply andb_true_iff in Hi. destruct Hi as [Hy _]. congruence.
Qed.

Lemma blank_to_empty_tidy (l : str) : tidy (blank_to_empty l).
Proof.
  unfold tidy, blank_to_empty, whitespace_only.
  destruct l as [|c r]; [left; reflexivity|].
  destruct (forallb is_space_or_tab (c :: r)) eqn:E; [left; reflexivity|].
  right. destruct (leading_whitespace (c :: r)) as [i|] eqn:Hi; [eauto|].
  apply leading_whitespace_None in Hi. congruence.
Qed.

Lemma cut_inked (m l i : str) :
  leading_whitespace l = Some i -> prefix m i ->
  cut m l = skipn (length m) l /\
  leading_whitespace (skipn (length m) l) = Some (skipn (length m) i).
Proof.
  intros Hl [i' ->].
  apply leading_whitespace_Some in Hl.
  destruct Hl as (c & r & -> & Hc & Hi).
  rewrite forallb_app in Hi. apply andb_true_iff in Hi. destruct Hi as [_ Hi'].
  rewrite <- app_assoc. unfold cut.
  rewrite (proj2 (startswith_prefix _ _)) by (eexists; reflexivity).
  split; [reflexivity|].
  rewrite !skipn_app, !skipn_all, !Nat.sub_diag. simpl.
  apply leading_whitespace_Some. exists c, r. auto.
Qed.

Lemma indents_cut (m : str) (lines : list str) :
  Forall tidy lines -> Forall (prefix m) (indents lines) ->
  indents (map (cut m) lines) = map (skipn (length m)) (indents lines) /\
  Forall tidy (map (cut m) lines).
Proof.
  induction 1 as [|l lines Hl Hlines IH]; intros Hpre; simpl.
  - split; constructor.
  - simpl in Hpre. apply Forall_app in Hpre. destruct Hpre as [Hp1 Hp2].
    destruct (IH Hp2) as [IH1 IH2]. rewrite IH1.
    destruct Hl as [->|[i Hi]].
    + rewrite cut_nil_line. simpl. split; [reflexivity|].
      constructor; [left; reflexivity|assumption].
    + rewrite Hi in *. inversion Hp1; subst.
      destruct (cut_inked m l i Hi) as [E1 E2]; [assumption|].
      rewrite E1, E2. simpl. split; [reflexivity|].
      constructor; [right; eauto|assumption].
Qed.

Lemma clean_tidy (lines : list str) : Forall tidy (clean lines).
Proof.
  unfold clean. apply Forall_map. apply Forall_forall.
  intros l _. apply blank_to_empty_tidy.
Qed.

(** The lines of [dedent text] are tidy and have no margin left. *)
Lemma dedented_lines (lines : list str) :
  let m := margin_of (indents (clean lines)) in
  Forall tidy (map (cut m) (clean lines)) /\
  margin_of (indents (map (cut m) (clean lines))) = [].
Proof.
  intros m.
  destruct (indents_cut m (clean lines) (clean_tidy lines)) as [E Ht].
  - apply margin_of_prefix.
  - split; [assumption|]. rewrite E. apply margin_of_removed.
Qed.

(** *** Stripping line feeds and splitting into lines *)

(** The empty lines at the start of a list of lines, removed. *)
Fixpoint drop_empty (lines : list str) : list str :=
  match lines with
  | [] :: rest => drop_empty rest
  | _ => lines
  end.

(** The empty lines at both ends, removed. *)
Definition trim (lines : list str) : list str :=
  List.rev (drop_empty (List.rev (drop_empty lines))).

Definition trimmed (lines : list str) : Prop :=
  drop_empty lines = lines /\ drop_empty (List.rev lines) = List.rev lines.

Lemma drop_empty_decompose (lines : list str) :
  exists k, lines = repeat [] k ++ drop_empty lines.
Proof.
  induction lines as [|l lines IH]; [exists 0; reflexivity|].
  destruct l as [|c l]; [|exists 0; reflexivity].
  destruct IH as [k Hk]. exists (S k). simpl. f_equal. assumption.
Qed.

Lemma length_drop_empty (lines : list str) :
  length (drop_empty lines) <= length lines.
Proof.
  destruct (drop_empty_decompose lines) as [k Hk].
  apply (f_equal (@length str)) in Hk. rewrite length_app in Hk. lia.
Qed.

Lemma drop_empty_no_head (lines rest : list str) :
  drop_empty lines <> [] :: rest.
Proof.
  induction lines as [|l lines IH]; simpl; [discriminate|].
  destruct l; [assumption|discriminate].
Qed.

Lemma drop_empty_fixed (lines : list str) :
  (forall rest, lines <> [] :: rest) -> drop_empty lines = lines.
Proof.
  destruct lines as [|[|c l] lines]; intros H; try reflexivity.
  exfalso. apply (H lines). reflexivity.
Qed.

Lemma drop_empty_idempotent (lines : list str) :
  drop_empty (drop_empty lines) = drop_empty lines.
Proof. apply drop_empty_fixed. apply drop_empty_no_head. Qed.

Lemma drop_empty_repeat (k : nat) (lines : list str) :
  drop_empty (repeat [] k ++ lines) = drop_empty lines.
Proof. induction k as [|k IH]; simpl; assumption || reflexivity. Qed.

Lemma drop_empty_app (lines more : list str) :
  drop_empty lines = lines -> lines <> [] ->
  drop_empty (lines ++ more) = lines ++ more.
Proof.
  destruct lines as [|[|c l] lines]; intros H Hne; try congruence.
  - exfalso. pose proof (length_drop_empty lines) as Hlen.
    simpl in H. rewrite H in Hlen. simpl in Hlen. lia.
  - reflexivity.
Qed.

Lemma rev_repeat_line (k : nat) :
  List.rev (repeat ([] : str) k) = repeat [] k.
Proof.
  induction k as [|k IH]; [reflexivity|].
  simpl. rewrite IH. symmetry. apply repeat_cons.
Qed.

Lemma trim_trimmed (lines : list str) : trimmed (trim lines).
Proof.
  unfold trimmed, trim. split.
  - set (z := drop_empty lines).
    destruct (drop_empty_decompose (List.rev z)) as [k Hk].
    apply drop_empty_fixed. intros rest E.
    apply (f_equal (@List.rev str)) in Hk.
    rewrite rev_involutive, rev_app_distr, rev_repeat_line, E in Hk.
    apply (drop_empty_no_head lines (rest ++ repeat [] k)). exact Hk.
  - rewrite rev_involutive. apply drop_empty_idempotent.
Qed.

Lemma trim_decompose (lines : list str) :
  exists a b, lines = repeat [] a ++ trim lines ++ repeat [] b.
Proof.
  destruct (drop_empty_decompose lines) as [a Ha].
  destruct (drop_empty_decompose (List.rev (drop_empty lines))) as [b Hb].
  exists a, b. unfold trim.
  apply (f_equal (@List.rev str)) in Hb.
  rewrite rev_involutive, rev_app_distr, rev_repeat_line in Hb.
  rewrite <- Hb. assumption.
Qed.

(** Empty lines after trimmed lines are removed again. *)
Lemma trim_padded (lines : list str) (k : nat) :
  trimmed lines -> trim (lines ++ repeat [] k) = lines.
Proof.
  intros [H1 H2]. unfold trim.
  destruct lines as [|l lines].
  - simpl. rewrite <- (app_nil_r (repeat [] k)), drop_empty_repeat.
    reflexivity.
  - rewrite drop_empty_app by (assumption || discriminate).
    rewrite rev_app_distr, rev_repeat_line, drop_empty_repeat, H2.
    apply rev_involutive.
Qed.

Lemma drop_empty_map (f : str -> str) (lines : list str) :
  (forall l, f l = [] <-> l = []) ->
  drop_empty (map f lines) = map f (drop_empty lines).
Proof.
  intros Hf. induction lines as [|l lines IH]; [reflexivity|].
  simpl. destruct l as [|c l].
  - rewrite (proj2 (Hf []) eq_refl). assumption.
  - destruct (f (c :: l)) eqn:E; [|simpl; rewrite E; reflexivity].
    apply (proj1 (Hf _)) in E. discriminate E.
Qed.

Lemma trimmed_map (f : str -> str) (lines : list str) :
  (forall l, f l = [] <-> l = []) -> trimmed lines -> trimmed (map f lines).
Proof.
  intros Hf [H1 H2]. split.
  - rewrite drop_empty_map, H1 by assumption. reflexivity.
  - rewrite <- map_rev, drop_empty_map, H2 by assumption. reflexivity.
Qed.

Lemma Forall_drop_empty (P : str -> Prop) (lines : list str) :
  Forall P lines -> Forall P (drop_empty lines).
Proof.
  induction 1 as [|l lines Hl Hlines IH]; simpl; [constructor|].
  destruct l; [assumption|constructor; assumption].
Qed.

Lemma Forall_trim (P : str -> Prop) (lines : list str) :
  Forall P lines -> Forall P (trim lines).
Proof.
  intros H. unfold trim. apply Forall_rev, Forall_drop_empty, Forall_rev,
    Forall_drop_empty. assumption.
Qed.

Definition is_LF (c : char) : bool := existsb (N.eqb c) [LF].

Lemma is_LF_false (c : char) : c <> LF -> is_LF c = false.
Proof.
  intros H. unfold is_LF. simpl. apply N.eqb_neq in H. rewrite H. reflexivity.
Qed.

Lemma lstrip_join (lines : list str) :
  Forall (no_char LF) lines ->
  lstrip_by is_LF (join [LF] lines) = join [LF] (drop_empty lines).
Proof.
  induction 1 as [|l lines Hl Hlines IH]; [reflexivity|].
  destruct l as [|c l].
  - destruct lines as [|l' lines']; [reflexivity|].
    change (lstrip_by is_LF (join [LF] ([] :: l' :: lines')))
      with (lstrip_by is_LF (join [LF] (l' :: lines'))).
    exact IH.
  - inversion Hl; subst.
    assert (E : exists rest, join [LF] ((c :: l) :: lines) = c :: rest).
    { destruct lines; simpl; eauto. }
    destruct E as [rest E]. rewrite E. simpl.
    rewrite is_LF_false by assumption. rewrite <- E. reflexivity.
Qed.

Lemma join_app (c : char) (xs ys : list str) :
  xs <> [] -> ys <> [] ->
  join [c] (xs ++ ys) = join [c] xs ++ c :: join [c] ys.
Proof.
  intros Hx Hy. induction xs as [|x xs IH]; [congruence|].
  destruct xs as [|x' xs].
  - destruct ys; [congruence|]. reflexivity.
  - change (join [c] ((x :: x' :: xs) ++ ys))
      with (x ++ c :: join [c] ((x' :: xs) ++ ys)).
    rewrite IH by discriminate.
    change (join [c] (x :: x' :: xs)) with (x ++ c :: join [c] (x' :: xs)).
    rewrite <- app_assoc. reflexivity.
Qed.

Lemma rev_join (c : char) (lines : list str) :
  List.rev (join [c] lines) = join [c] (map (@List.rev char) (List.rev lines)).
Proof.
  induction lines as [|l lines IH]; [reflexivity|].
  destruct lines as [|l' lines'].
  - reflexivity.
  - change (join [c] (l :: l' :: lines'))
      with (l ++ c :: join [c] (l' :: lines')).
    set (rest := l' :: lines') in *.
    rewrite rev_app_distr.
    change (List.rev (c :: join [c] rest))
      with (List.rev (join [c] rest) ++ [c]).
    rewrite IH.
    change (List.rev (l :: rest)) with (List.rev rest ++ [l]).
    rewrite map_app, join_app.
    + rewrite <- app_assoc. reflexivity.
    + intros E. apply map_eq_nil in E.
      apply (f_equal (@length str)) in E. rewrite length_rev in E.
      discriminate.
    + discriminate.
Qed.

Lemma no_char_rev (c : char) (l : str) : no_char c l -> no_char c (List.rev l).
Proof. apply Forall_rev. Qed.

Lemma rev_nil_iff (l : str) : List.rev l = [] <-> l = [].
Proof.
  split; [|intros ->; reflexivity].
  intros E. apply (f_equal (@length char)) in E. rewrite length_rev in E.
  destruct l; [reflexivity|discriminate].
Qed.

(** [strip("\n")] removes the empty lines at both ends. *)
Lemma strip_join (lines : list str) :
  Forall (no_char LF) lines ->
  strip_chars [LF] (join [LF] lines) = join [LF] (trim lines).
Proof.
  intros H. unfold strip_chars, strip_by, rstrip_by. fold is_LF.
  rewrite lstrip_join by assumption.
  rewrite rev_join, lstrip_join.
  - rewrite drop_empty_map by apply rev_nil_iff.
    rewrite rev_join, <- map_rev, map_map.
    rewrite map_ext with (g := fun l => l) by apply rev_involutive.
    rewrite map_id. reflexivity.
  - apply Forall_map. apply Forall_rev.
    eapply Forall_impl; [apply no_char_rev|].
    apply Forall_drop_empty. assumption.
Qed.

Lemma splitlines_one_line (l : str) :
  no_linebreak l -> l <> [] -> splitlines l = [l].
Proof.
  induction 1 as [|c l Hc Hl IH]; [congruence|]. intros _.
  simpl. rewrite Hc. destruct l as [|d l]; [reflexivity|].
  rewrite IH by discriminate. reflexivity.
Qed.

Lemma splitlines_line_feed (l rest : str) :
  no_linebreak l -> splitlines (l ++ LF :: rest) = l :: splitlines rest.
Proof.
  induction 1 as [|c l Hc Hl IH].
  - simpl. destruct rest; reflexivity.
  - simpl. rewrite Hc, IH. reflexivity.
Qed.

(** The lines of a text that does not end with an empty line are the
    lines that were joined. *)
Lemma splitlines_join (lines : list str) :
  Forall no_linebreak lines ->
  drop_empty (List.rev lines) = List.rev lines ->
  splitlines (join [LF] lines) = lines.
Proof.
  induction 1 as [|l lines Hl Hlines IH]; intros Hlast; [reflexivity|].
  destruct lines as [|l' lines'].
  - simpl. apply splitlines_one_line; [assumption|].
    intros ->. discriminate Hlast.
  - change (join [LF] (l :: l' :: lines'))
      with (l ++ LF :: join [LF] (l' :: lines')).
    rewrite splitlines_line_feed by assumption.
    rewrite IH; [reflexivity|].
    apply drop_empty_fixed. intros rest E.
    simpl List.rev in Hlast. simpl List.rev in E.
    rewrite E in Hlast. simpl in Hlast.
    pose proof (length_drop_empty (rest ++ [l])) as Hlen.
    rewrite Hlast in Hlen. simpl in Hlen. lia.
Qed.

(** *** The lines of a block *)

(** A text whose only line boundary is the line feed. *)
Definition plain (s : str) : Prop :=
  Forall (fun c => is_linebreak c = true -> c = LF) s.

Lemma Forall_split (P : char -> Prop) (c : char) (s : str) :
  Forall P s -> Forall (Forall P) (split c s).
Proof.
  induction 1 as [|x r Hx Hr IH]; simpl.
  - repeat constructor.
  - destruct (N.eqb x c).
    + constructor; [constructor|assumption].
    + destruct (split c r) as [|l ls].
      * repeat constructor. assumption.
      * inversion IH; subst. constructor; [|assumption].
        constructor; assumption.
Qed.

Lemma split_plain (s : str) : plain s -> Forall no_linebreak (split LF s).
Proof.
  intros Hs. pose proof (Forall_split _ LF s Hs) as H1.
  pose proof (split_lines_no_sep LF s) as H2.
  rewrite Forall_forall in *. intros l Hl.
  specialize (H1 l Hl). specialize (H2 l Hl).
  unfold no_linebreak, no_char in *. rewrite Forall_forall in *.
  intros x Hx. destruct (is_linebreak x) eqn:E; [|reflexivity].
  exfalso. apply (H2 x Hx). apply H1; assumption.
Qed.

Lemma no_linebreak_skipn (n : nat) (l : str) :
  no_linebreak l -> no_linebreak (skipn n l).
Proof.
  intros H. rewrite <- (firstn_skipn n l) in H.
  apply Forall_app in H. tauto.
Qed.

Lemma no_linebreak_cut_clean (m : str) (lines : list str) :
  Forall no_linebreak lines ->
  Forall no_linebreak (map (cut m) (clean lines)).
Proof.
  intros H. unfold clean. rewrite map_map. apply Forall_map.
  revert H. apply Forall_impl. intros l Hl.
  unfold cut, blank_to_empty.
  destruct (whitespace_only l).
  - destruct (startswith [] m); [|constructor].
    apply no_linebreak_skipn. constructor.
  - destruct (startswith l m); [|assumption].
    apply no_linebreak_skipn. assumption.
Qed.

(** The lines that [_dedent_lines] gives for the lines of a block. *)
Definition lines_of (lines : list str) : list str :=
  trim (map (cut (margin_of (indents (clean lines)))) (clean lines)).

Lemma dedent_lines_by_lines (block : str) :
  Forall no_linebreak (split LF block) ->
  _dedent_lines block = lines_of (split LF block).
Proof.
  intros H. unfold _dedent_lines, lines_of.
  rewrite dedent_by_lines.
  set (m := margin_of _).
  pose proof (no_linebreak_cut_clean m _ H) as Hcut.
  rewrite strip_join.
  - apply splitlines_join.
    + apply Forall_trim. assumption.
    + apply trim_trimmed.
  - revert Hcut. apply Forall_impl. apply no_linebreak_no_LF.
Qed.

(** Lines without a line boundary that are tidy, trimmed and without a
    common margin: what [_dedent_lines] gives for a plain block. *)
Definition settled (lines : list str) : Prop :=
  Forall no_linebreak lines /\ Forall tidy lines /\ trimmed lines /\
  margin_of (indents lines) = [].

Lemma indents_app (xs ys : list str) :
  indents (xs ++ ys) = indents xs ++ indents ys.
Proof. apply flat_map_app. Qed.

Lemma indents_repeat_empty (k : nat) : indents (repeat [] k) = [].
Proof. induction k as [|k IH]; [reflexivity|]. simpl. assumption. Qed.

Lemma indents_trim (lines : list str) : indents (trim lines) = indents lines.
Proof.
  destruct (trim_decompose lines) as (a & b & E).
  rewrite E at 2.
  rewrite !indents_app, !indents_repeat_empty, app_nil_r. reflexivity.
Qed.

Lemma lines_of_settled (lines : list str) :
  Forall no_linebreak lines -> settled (lines_of lines).
Proof.
  intros H. unfold settled, lines_of.
  destruct (dedented_lines lines) as [Htidy Hmargin].
  split; [|split; [|split]].
  - apply Forall_trim. apply no_linebreak_cut_clean. assumption.
  - apply Forall_trim. assumption.
  - apply trim_trimmed.
  - rewrite indents_trim. assumption.
Qed.

(** *** The lines of a normalised frame *)

(** A line of the block as [_dedent_lines] finds it in the frame: padded
    unless it was empty. *)
Definition refill (width : nat) (l : str) : str :=
  match l with
  | [] => []
  | _ :: _ => ljust width l
  end.

Lemma refill_nil_iff (width : nat) (l : str) : refill width l = [] <-> l = [].
Proof.
  destruct l as [|c l]; simpl; [tauto|]. split; discriminate.
Qed.

Lemma whitespace_only_spaces (n : nat) :
  whitespace_only (spaces n) = negb (Nat.eqb n 0).
Proof.
  destruct n as [|n]; [reflexivity|].
  unfold whitespace_only, spaces. cbn [repeat Nat.eqb negb].
  apply forallb_forall. intros x Hx.
  change (SPACE :: repeat SPACE n) with (repeat SPACE (S n)) in Hx.
  apply repeat_spec in Hx. subst. reflexivity.
Qed.

Lemma blank_to_empty_spaces (n : nat) : blank_to_empty (spaces n) = [].
Proof.
  unfold blank_to_empty. rewrite whitespace_only_spaces.
  destruct n; reflexivity.
Qed.

Lemma leading_whitespace_ljust (width : nat) (l i : str) :
  leading_whitespace l = Some i ->
  leading_whitespace (ljust width l) = Some i.
Proof.
  intros H. apply leading_whitespace_Some in H.
  destruct H as (c & r & -> & Hc & Hi).
  apply leading_whitespace_Some.
  exists c, (r ++ spaces (width - length (i ++ c :: r))).
  unfold ljust. rewrite <- app_assoc. auto.
Qed.

Lemma blank_to_empty_ljust (width : nat) (l : str) :
  tidy l -> blank_to_empty (ljust width l) = refill width l.
Proof.
  intros [->|[i Hi]].
  - unfold ljust. simpl. apply blank_to_empty_spaces.
  - pose proof (leading_whitespace_ljust width l i Hi) as Hj.
    assert (Hne : l <> []) by (intros ->; discriminate Hi).
    unfold blank_to_empty, whitespace_only.
    destruct (ljust width l) as [|c r] eqn:E.
    + discriminate Hj.
    + destruct (forallb is_space_or_tab (c :: r)) eqn:F.
      * apply leading_whitespace_None in F. rewrite F in Hj. discriminate.
      * rewrite <- E. destruct l; [congruence|reflexivity].
Qed.

Lemma leading_whitespace_refill (width : nat) (l : str) :
  tidy l -> leading_whitespace (refill width l) = leading_whitespace l.
Proof.
  intros [->|[i Hi]]; [reflexivity|].
  destruct l as [|c l]; [reflexivity|].
  simpl refill. rewrite Hi. apply leading_whitespace_ljust. assumption.
Qed.

Lemma clean_padded_lines (width height : nat) (lines : list str) :
  Forall tidy lines ->
  clean (padded_lines width height lines)
  = map (refill width) lines ++ repeat [] (height - length lines).
Proof.
  intros H. unfold clean, padded_lines. rewrite map_app, map_map. f_equal.
  - apply map_ext_in. intros l Hl. apply blank_to_empty_ljust.
    rewrite Forall_forall in H. auto.
  - generalize (height - length lines). intros k.
    induction k as [|k IH]; [reflexivity|].
    simpl. rewrite blank_to_empty_spaces, IH. reflexivity.
Qed.

Lemma indents_refill (width : nat) (lines : list str) :
  Forall tidy lines -> indents (map (refill width) lines) = indents lines.
Proof.
  induction 1 as [|l lines Hl Hlines IH]; [reflexivity|].
  change (indents (map (refill width) (l :: lines)))
    with (match leading_whitespace (refill width l) with
          | Some i => [i]
          | None => []
          end ++ indents (map (refill width) lines)).
  rewrite leading_whitespace_refill by assumption.
  rewrite IH. reflexivity.
Qed.

Lemma lines_of_padded_lines (width height : nat) (lines : list str) :
  settled lines ->
  lines_of (padded_lines width height lines) = map (refill width) lines.
Proof.
  intros (Hbreak & Htidy & Htrim & Hmargin). unfold lines_of.
  rewrite clean_padded_lines by assumption.
  rewrite indents_app, indents_repeat_empty, app_nil_r.
  rewrite indents_refill by assumption. rewrite Hmargin.
  rewrite map_ext with (g := fun l => l) by apply cut_nil_margin.
  rewrite map_id. apply trim_padded.
  apply trimmed_map; [apply refill_nil_iff|assumption].
Qed.

Lemma dedent_lines_pad_frame (width height : nat) (lines : list str) :
  settled lines -> 1 <= height ->
  _dedent_lines (pad_frame width height lines) = map (refill width) lines.
Proof.
  intros Hs Hh. rewrite pad_frame_join.
  assert (Hbreak : Forall no_linebreak (padded_lines width height lines)).
  { apply padded_lines_no_linebreak. apply Hs. }
  assert (Hsplit : split LF (join [LF] (padded_lines width height lines))
                   = padded_lines width height lines).
  { apply split_join.
    - intros E. apply (f_equal (@length str)) in E.
      rewrite length_padded_lines in E. simpl in E. lia.
    - revert Hbreak. apply Forall_impl. apply no_linebreak_no_LF. }
  rewrite dedent_lines_by_lines; rewrite Hsplit; [|assumption].
  apply lines_of_padded_lines. assumption.
Qed.

Lemma length_refill (width : nat) (l : str) :
  length l <= width ->
  length (refill width l) = match l with [] => 0 | _ :: _ => width end.
Proof.
  intros H. destruct l as [|c l]; [reflexivity|].
  simpl refill. rewrite length_ljust. lia.
Qed.

Lemma ljust_refill (width : nat) (l : str) :
  length l <= width -> ljust width (refill width l) = ljust width l.
Proof.
  intros H. destruct l as [|c l]; [reflexivity|].
  simpl refill. unfold ljust at 1. rewrite length_ljust.
  replace (width - Nat.max width (length (c :: l))) with 0 by lia.
  apply app_nil_r.
Qed.

Lemma pad_frame_refill (width height : nat) (lines : list str) :
  Forall (fun l => length l <= width) lines ->
  pad_frame width height (map (refill width) lines)
  = pad_frame width height lines.
Proof.
  intros H. rewrite !pad_frame_join. unfold padded_lines.
  rewrite length_map, map_map. f_equal. f_equal.
  apply map_ext_in. intros l Hl. apply ljust_refill.
  rewrite Forall_forall in H. auto.
Qed.

Lemma list_max_In (xs : list nat) : xs <> [] -> In (list_max xs) xs.
Proof.
  induction xs as [|x xs IH]; [congruence|]. intros _.
  destruct xs as [|y ys].
  - left. simpl. lia.
  - change (list_max (x :: y :: ys)) with (Nat.max x (list_max (y :: ys))).
    destruct (Nat.max_spec x (list_max (y :: ys))) as [[_ E]|[_ E]];
      rewrite E.
    + right. apply IH. discriminate.
    + left. reflexivity.
Qed.

Lemma width_of_refill (frames : list (list str)) :
  width_of (map (map (refill (width_of frames))) frames) = width_of frames.
Proof.
  set (w := width_of frames).
  assert (Hle : forall l, In l (concat frames) -> length l <= w).
  { intros l Hl. apply list_max_ge. apply in_map. assumption. }
  assert (Hw : w = list_max (map (@length char) (concat frames)))
    by reflexivity.
  unfold width_of. rewrite <- concat_map.
  set (M := concat frames) in *.
  apply Nat.le_antisymm.
  - apply list_max_le. rewrite map_map. apply Forall_map. apply Forall_forall.
    intros l Hl. specialize (Hle l Hl).
    rewrite length_refill by assumption. destruct l; lia.
  - destruct (Nat.eq_dec w 0) as [E0|Hpos]; [lia|].
    destruct M as [|l0 ls] eqn:E; [simpl in Hw; lia|].
    pose proof (list_max_In (map (@length char) (l0 :: ls))
                  ltac:(discriminate)) as Hin.
    rewrite <- Hw in Hin. apply in_map_iff in Hin.
    destruct Hin as (l & Hlen & Hl).
    apply list_max_ge. apply in_map_iff. exists (refill w l).
    split; [|apply in_map; assumption].
    rewrite length_refill by (apply Hle; assumption).
    destruct l; [simpl in Hlen; lia|reflexivity].
Qed.

Lemma height_of_refill (width : nat) (frames : list (list str)) :
  height_of (map (map (refill width)) frames) = height_of frames.
Proof.
  unfold height_of. rewrite map_map. f_equal.
  apply map_ext. intros l. apply length_map.
Qed.

End DedentFacts.

(** C3 (as amended): when no block of the input holds a line boundary
    other than the line feed (no carriage return, vertical tab, form
    feed, file, group or record separator, next line, line separator or
    paragraph separator) and [_normalize_frames] returns frames for it,
    then [_normalize_frames] applied to these frames returns the same
    frames. *)
Theorem normalize_frames_idempotent (raw_frames normalized : list str) :
  Forall DedentFacts.plain raw_frames ->
  _normalize_frames raw_frames = Ok normalized ->
  _normalize_frames normalized = Ok normalized.
Proof.
  intros Hplain Hok.
  set (frames := map _dedent_lines raw_frames).
  destruct (concat frames) as [|l0 ls] eqn:Hcat.
  { rewrite normalize_frames_error in Hok by exact Hcat. discriminate. }
  assert (Hne : concat frames <> []) by (rewrite Hcat; discriminate).
  rewrite normalize_frames_ok in Hok by exact Hne.
  fold frames in Hok. injection Hok as Hout.
  set (w := width_of frames) in *. set (h := height_of frames) in *.
  assert (Hsettled : Forall DedentFacts.settled frames).
  { unfold frames. apply Forall_map. revert Hplain. apply Forall_impl.
    intros b Hb. apply DedentFacts.split_plain in Hb.
    rewrite DedentFacts.dedent_lines_by_lines by assumption.
    apply DedentFacts.lines_of_settled. assumption. }
  assert (Hh : 1 <= h).
  { destruct frames as [|f fs] eqn:E; [simpl in Hne; congruence|].
    assert (Hex : exists f', In f' (f :: fs) /\ f' <> []).
    { clear -Hne.
      induction (f :: fs) as [|g gs IH]; [simpl in Hne; congruence|].
      destruct g as [|l g].
      - destruct IH as (f' & Hin & Hf'); [exact Hne|].
        exists f'. split; [right; assumption|assumption].
      - exists (l :: g). split; [left; reflexivity|discriminate]. }
    destruct Hex as (f' & Hin & Hf').
    pose proof (height_of_bound (f :: fs) f' Hin) as Hb. fold h in Hb.
    destruct f'; [congruence|simpl in Hb; lia]. }
  assert (Hlines : map _dedent_lines normalized
                   = map (map (DedentFacts.refill w)) frames).
  { rewrite <- Hout. unfold frames. rewrite !map_map.
    apply map_ext_in. intros b Hb.
    apply DedentFacts.dedent_lines_pad_frame; [|assumption].
    rewrite Forall_forall in Hsettled. apply Hsettled.
    unfold frames. apply in_map. assumption. }
  rewrite normalize_frames_ok; rewrite Hlines.
  - subst w h.
    rewrite DedentFacts.width_of_refill, DedentFacts.height_of_refill.
    f_equal. rewrite <- Hout at 2. rewrite <- Hout. rewrite map_map.
    apply map_ext_in. intros b Hb.
    assert (Hin : In (_dedent_lines b) frames)
      by (unfold frames; apply in_map; assumption).
    rewrite DedentFacts.dedent_lines_pad_frame.
    + apply DedentFacts.pad_frame_refill.
      apply width_of_bound. assumption.
    + rewrite Forall_forall in Hsettled. apply Hsettled. assumption.
    + assumption.
  - intros E. apply Hne. apply concat_nil_iff in E. apply concat_nil_iff.
    rewrite Forall_map in E. revert E. apply Forall_impl.
    intros f Hf. apply map_eq_nil in Hf. assumption.
Qed.

Lemma normalize_frames_idempotent_witness :
  _normalize_frames
    [[LF] ++ lit "    ab" ++ [LF; LF] ++ lit "      c" ++ [LF] ++ lit "  ";
     lit " d"]
  = Ok [lit "ab " ++ [LF] ++ lit "   " ++ [LF] ++ lit "  c";
        lit "d  " ++ [LF] ++ lit "   " ++ [LF] ++ lit "   "] /\
  _normalize_frames
    [lit "ab " ++ [LF] ++ lit "   " ++ [LF] ++ lit "  c";
     lit "d  " ++ [LF] ++ lit "   " ++ [LF] ++ lit "   "]
  = Ok [lit "ab " ++ [LF] ++ lit "   " ++ [LF] ++ lit "  c";
        lit "d  " ++ [LF] ++ lit "   " ++ [LF] ++ lit "   "].
Proof.
  assert (H : _normalize_frames
    [[LF] ++ lit "    ab" ++ [LF; LF] ++ lit "      c" ++ [LF] ++ lit "  ";
     lit " d"]
  = Ok [lit "ab " ++ [LF] ++ lit "   " ++ [LF] ++ lit "  c";
        lit "d  " ++ [LF] ++ lit "   " ++ [LF] ++ lit "   "])
    by reflexivity.
  split; [exact H|].
  apply (normalize_frames_idempotent
    [[LF] ++ lit "    ab" ++ [LF; LF] ++ lit "      c" ++ [LF] ++ lit "  ";
     lit " d"]); [|exact H].
  vm_compute. repeat (apply Forall_cons || apply Forall_nil).
  all: intros E; try reflexivity; discriminate E.
Defined.

(** *** The frames as the tests measure them *)

(** The tests take the lines of a frame with [splitlines]. These are the
    lines that were joined when the width is not 0. *)
Lemma splitlines_pad_frame (width height : nat) (frame : list str) :
  Forall no_linebreak frame ->
  Forall (fun l => length l <= width) frame ->
  1 <= width -> 1 <= height ->
  splitlines (pad_frame width height frame)
  = padded_lines width height frame.
Proof.
  intros Hbreak Hwidth Hw Hh. rewrite pad_frame_join.
  apply DedentFacts.splitlines_join.
  - apply padded_lines_no_linebreak. assumption.
  - apply DedentFacts.drop_empty_fixed. intros rest E.
    pose proof (padded_lines_width width height frame Hwidth) as Hall.
    apply Forall_rev in Hall. rewrite E in Hall.
    inversion Hall as [|? ? Hnil _]. simpl in Hnil. lia.
Qed.

(** A frame of width 0 comes from blocks in which a line boundary other
    than the line feed is all that is left; [splitlines] does not see its
    last line. *)
Lemma splitlines_width_zero :
  _normalize_frames [[CR]] = Ok [[]] /\
  split LF [] = [[]] /\
  splitlines [] = [].
Proof. repeat split. Qed.

(** ** PhraseGenerator *)

Module PhraseGeneratorFacts.

Import PhraseGenerator.

Definition with_counter (self : t) (c : Z) : t :=
  {| intros := intros self; claims := claims self; tag := tag self;
     counter := c |}.

(** The state after a construction that succeeded and any number of
    productions. *)
Definition valid (self : t) : Prop :=
  intros self <> [] /\ claims self <> [] /\ (0 <= counter self)%Z.

Lemma getitem_in_range {A : Type} (xs : list A) (i : nat) :
  i < length xs ->
  exists x, nth_error xs i = Some x /\ getitem xs (Z.of_nat i) = Ok x.
Proof.
  intros Hi. destruct (nth_error xs i) as [x|] eqn:E.
  - exists x. split; [reflexivity|]. unfold getitem.
    destruct (Z.ltb_spec (Z.of_nat i) 0); [lia|].
    destruct (Z.leb_spec 0 (Z.of_nat i)); [|lia].
    destruct (Z.ltb_spec (Z.of_nat i) (Z.of_nat (length xs))); [|lia].
    simpl. rewrite Nat2Z.id, E. reflexivity.
  - apply nth_error_None in E. lia.
Qed.

Lemma py_mod_of_nat (a b : nat) :
  b <> 0 -> py_mod (Z.of_nat a) (Z.of_nat b) = Ok (Z.of_nat (a mod b)).
Proof.
  intros Hb. unfold py_mod.
  destruct (Z.eqb_spec (Z.of_nat b) 0); [lia|].
  rewrite Nat2Z.inj_mod. reflexivity.
Qed.

Lemma py_floordiv_of_nat (a b : nat) :
  b <> 0 -> py_floordiv (Z.of_nat a) (Z.of_nat b) = Ok (Z.of_nat (a / b)).
Proof.
  intros Hb. unfold py_floordiv.
  destruct (Z.eqb_spec (Z.of_nat b) 0); [lia|].
  rewrite Nat2Z.inj_div. reflexivity.
Qed.

Lemma length_nonzero {A : Type} (xs : list A) : xs <> [] -> length xs <> 0.
Proof. destruct xs; simpl; congruence. Qed.

(** One production, from the counter value [c]. *)
Lemma next_at (self : t) (c : nat) :
  intros self <> [] -> claims self <> [] -> counter self = Z.of_nat c ->
  exists intro claim,
    nth_error (intros self) (c mod length (intros self)) = Some intro /\
    nth_error (claims self)
      ((c / length (intros self)) mod length (claims self)) = Some claim /\
    __next__ self =
      Ok (phrase intro claim (tag self) (Z.of_nat (S c)),
          with_counter self (Z.of_nat (S c))).
Proof.
  intros Hi Hc Hcount.
  apply length_nonzero in Hi. apply length_nonzero in Hc.
  destruct (getitem_in_range (intros self) (c mod length (intros self)))
    as (intro & Hintro & Gintro).
  { apply Nat.mod_upper_bound. assumption. }
  destruct (getitem_in_range (claims self)
              ((c / length (intros self)) mod length (claims self)))
    as (claim & Hclaim & Gclaim).
  { apply Nat.mod_upper_bound. assumption. }
  exists intro, claim. split; [assumption|]. split; [assumption|].
  unfold __next__. rewrite Hcount.
  rewrite py_mod_of_nat by assumption. simpl.
  rewrite Gintro. simpl.
  rewrite py_floordiv_of_nat by assumption. simpl.
  rewrite py_mod_of_nat by assumption. simpl.
  rewrite Gclaim. cbn [bind counter].
  replace (Z.of_nat c + 1)%Z with (Z.of_nat (S c)) by lia. reflexivity.
Qed.

(** [n] productions, from the counter value [c]. *)
Lemma productions_at (n : nat) : forall (self : t) (c : nat),
  intros self <> [] -> claims self <> [] -> counter self = Z.of_nat c ->
  exists outs,
    productions n self = Ok (outs, with_counter self (Z.of_nat (c + n))) /\
    length outs = n /\
    forall k, k < n ->
      exists intro claim,
        nth_error (intros self) ((c + k) mod length (intros self))
          = Some intro /\
        nth_error (claims self)
          (((c + k) / length (intros self)) mod length (claims self))
          = Some claim /\
        nth_error outs k
          = Some (phrase intro claim (tag self) (Z.of_nat (c + k + 1))).
Proof.
  induction n as [|n IH]; intros self c Hi Hc Hcount.
  - exists []. simpl. split.
    + rewrite Nat.add_0_r, <- Hcount. destruct self; reflexivity.
    + split; [reflexivity|]. intros k Hk. lia.
  - destruct (next_at self c Hi Hc Hcount)
      as (intro & claim & Hintro & Hclaim & Hnext).
    destruct (IH (with_counter self (Z.of_nat (S c))) (S c) Hi Hc eq_refl)
      as (outs & Hprod & Hlen & Hnth).
    exists (phrase intro claim (tag self) (Z.of_nat (S c)) :: outs).
    split; [|split].
    + cbn [productions]. rewrite Hnext. cbn [bind fst snd].
      rewrite Hprod. cbn [bind fst snd].
      unfold with_counter. cbn [intros claims tag counter].
      replace (c + S n) with (S c + n) by lia. reflexivity.
    + cbn [length]. rewrite Hlen. reflexivity.
    + intros [|k] Hk.
      * exists intro, claim. rewrite Nat.add_0_r.
        split; [assumption|]. split; [assumption|].
        cbn [nth_error]. replace (c + 1) with (S c) by lia. reflexivity.
      * destruct (Hnth k ltac:(lia))
          as (intro' & claim' & Hintro' & Hclaim' & Hout).
        cbn [with_counter intros claims tag] in Hintro', Hclaim', Hout.
        exists intro', claim'.
        replace (c + S k) with (S c + k) by lia.
        split; [assumption|]. split; [assumption|].
        cbn [nth_error]. rewrite Hout. reflexivity.
Qed.

Lemma next_advances (self self' : t) (s : str) :
  __next__ self = Ok (s, self') ->
  counter self' = (counter self + 1)%Z /\
  intros self' = intros self /\ claims self' = claims self /\
  tag self' = tag self.
Proof.
  unfold __next__, bind. intros H.
  destruct (py_mod _ _); [|discriminate].
  destruct (getitem _ _); [|discriminate].
  destruct (py_floordiv _ _); [|discriminate].
  destruct (py_mod _ _); [|discriminate].
  destruct (getitem _ _); [|discriminate].
  inversion H; subst; simpl. repeat split.
Qed.

(** *** The decimal number at the end of a phrase *)

Definition HASH : char := 35%N.

Lemma lit_app (a b : string) : lit (a ++ b) = lit a ++ lit b.
Proof.
  unfold lit. induction a as [|x a IH]; simpl; [reflexivity|].
  f_equal. assumption.
Qed.

Lemma lit_inj (a b : string) : lit a = lit b -> a = b.
Proof.
  unfold lit. revert b. induction a as [|x a IH]; intros [|y b] H;
    simpl in H; try discriminate; [reflexivity|].
  inversion H as [[Hxy Hab]].
  apply (f_equal ascii_of_N) in Hxy.
  rewrite !ascii_N_embedding in Hxy. subst. f_equal. apply IH. assumption.
Qed.

Lemma of_int_inj (n m : Z) : of_int n = of_int m -> n = m.
Proof.
  unfold of_int. intros H. apply lit_inj in H.
  apply (f_equal DecimalString.NilEmpty.int_of_string) in H.
  rewrite !DecimalString.NilEmpty.isi in H. inversion H as [H'].
  apply (f_equal Z.of_int) in H'. rewrite !DecimalZ.of_to in H'.
  assumption.
Qed.

Lemma string_of_uint_no_hash (d : Decimal.uint) :
  no_char HASH (lit (DecimalString.NilEmpty.string_of_uint d)).
Proof.
  induction d; simpl; constructor; try assumption; discriminate.
Qed.

Lemma of_int_no_hash (n : Z) : no_char HASH (of_int n).
Proof.
  unfold of_int. destruct (Z.to_int n) as [d|d]; simpl.
  - apply string_of_uint_no_hash.
  - constructor; [discriminate|]. apply string_of_uint_no_hash.
Qed.

Lemma app_sep_inj (c : char) (a b x y : str) :
  no_char c a -> no_char c b -> a ++ c :: x = b ++ c :: y -> a = b.
Proof.
  intros Ha Hb E. apply (f_equal (split c)) in E.
  rewrite !split_app_sep in E by assumption. congruence.
Qed.

(** Two phrases with different numbers differ. *)
Lemma phrase_inj (intro claim tag intro' claim' tag' : str) (n m : Z) :
  phrase intro claim tag n = phrase intro' claim' tag' m -> n = m.
Proof.
  unfold phrase. intros E.
  apply (f_equal (@List.rev char)) in E.
  repeat rewrite ?rev_app_distr, <- ?app_assoc in E.
  change (List.rev (lit " #")) with ([HASH] ++ List.rev (lit " ")) in E.
  rewrite <- !app_assoc in E. simpl in E.
  inversion E as [E'].
  apply app_sep_inj in E'.
  - apply rev_inj in E'. apply of_int_inj. assumption.
  - apply Forall_rev. apply of_int_no_hash.
  - apply Forall_rev. apply of_int_no_hash.
Qed.

Lemma index_pair_inj (I C i j : nat) :
  i < I * C -> j < I * C ->
  i mod I = j mod I -> (i / I) mod C = (j / I) mod C -> i = j.
Proof.
  intros Hi Hj Hm Hd.
  assert (HI : I <> 0) by (intros ->; simpl in Hi; lia).
  assert (Hqi : i / I < C) by (apply Nat.Div0.div_lt_upper_bound; lia).
  assert (Hqj : j / I < C) by (apply Nat.Div0.div_lt_upper_bound; lia).
  rewrite !Nat.mod_small in Hd by assumption.
  rewrite (Nat.div_mod_eq i I), (Nat.div_mod_eq j I). congruence.
Qed.

(** The productions of a generator that was just constructed. *)
Lemma init_productions (intros claims : list str) (tag : str) :
  intros <> [] -> claims <> [] ->
  exists self,
    __init__ intros claims tag = Ok self /\
    counter self = 0%Z /\
    forall n, exists outs,
      productions n self = Ok (outs, with_counter self (Z.of_nat n)) /\
      length outs = n /\
      forall k, k < n ->
        exists intro claim,
          nth_error intros (k mod length intros) = Some intro /\
          nth_error claims ((k / length intros) mod length claims)
            = Some claim /\
          nth_error outs k = Some (phrase intro claim tag (Z.of_nat (k + 1))).
Proof.
  intros Hi Hc.
  destruct intros as [|i0 is_]; [congruence|].
  destruct claims as [|c0 cs]; [congruence|].
  set (self := {| PhraseGenerator.intros := i0 :: is_;
                  PhraseGenerator.claims := c0 :: cs;
                  PhraseGenerator.tag := tag;
                  PhraseGenerator.counter := 0 |}).
  exists self. split; [reflexivity|]. split; [reflexivity|].
  intros n.
  destruct (productions_at n self 0 Hi Hc eq_refl) as (outs & Hp & Hl & Hk).
  exists outs. split; [exact Hp|]. split; [assumption|]. exact Hk.
Qed.

End PhraseGeneratorFacts.

(** C4: a PhraseGenerator made from non-empty [intros] and [claims] and a
    tag [t] is constructed without error, and for every [n] the first [n]
    productions succeed; production number [k + 1] is the text
    [<intro> <claim> (<t> #<k + 1>)] with [intro = intros[k % len(intros)]]
    and [claim = claims[(k // len(intros)) % len(claims)]], the counter is
    [n] after them, and every production adds one to the counter. The
    productions are a function of the construction and of [n]. *)
Theorem phrase_generator_nth_production (intros claims : list str)
    (tag : str) :
  intros <> [] -> claims <> [] ->
  exists self,
    PhraseGenerator.__init__ intros claims tag = Ok self /\
    PhraseGenerator.counter self = 0%Z /\
    (forall n, exists outs self',
       PhraseGenerator.productions n self = Ok (outs, self') /\
       PhraseGenerator.counter self' = Z.of_nat n /\
       length outs = n /\
       forall k, k < n ->
         exists intro claim,
           nth_error intros (k mod length intros) = Some intro /\
           nth_error claims ((k / length intros) mod length claims)
             = Some claim /\
           nth_error outs k
             = Some (PhraseGenerator.phrase intro claim tag
                       (Z.of_nat (k + 1)))) /\
    (forall n outs self' s self'',
       PhraseGenerator.productions n self = Ok (outs, self') ->
       PhraseGenerator.__next__ self' = Ok (s, self'') ->
       PhraseGenerator.counter self''
         = (PhraseGenerator.counter self' + 1)%Z).
Proof.
  intros Hi Hc.
  destruct (PhraseGeneratorFacts.init_productions intros claims tag Hi Hc)
    as (self & Hinit & Hzero & Hprod).
  exists self. split; [assumption|]. split; [assumption|]. split.
  - intros n. destruct (Hprod n) as (outs & Hp & Hlen & Hnth).
    exists outs, (PhraseGeneratorFacts.with_counter self (Z.of_nat n)).
    split; [assumption|]. split; [reflexivity|].
    split; [assumption|]. exact Hnth.
  - intros n outs self' s self'' _ Hnext.
    apply PhraseGeneratorFacts.next_advances in Hnext. tauto.
Qed.

Lemma phrase_generator_nth_production_witness :
  exists self,
    PhraseGenerator.__init__ [lit "a"; lit "b"] [lit "c"; lit "d"] (lit "tag")
      = Ok self /\
    PhraseGenerator.productions 3 self
      = Ok ([lit "a c (tag #1)"; lit "b c (tag #2)"; lit "a d (tag #3)"],
            PhraseGeneratorFacts.with_counter self 3).
Proof.
  destruct (phrase_generator_nth_production
              [lit "a"; lit "b"] [lit "c"; lit "d"] (lit "tag"))
    as (self & Hinit & _); [discriminate|discriminate|].
  exists self. split; [exact Hinit|].
  inversion Hinit; subst. reflexivity.
Defined.

(** C5: the first [N] productions of a PhraseGenerator made from non-empty
    [intros] and [claims] are [N] strings without a repetition, for every
    [N]; and among the first [len(intros) * len(claims)] productions, two
    different ones, number [k + 1] and number [l + 1], are made of
    [intros[k % len(intros)]] and [claims[(k // len(intros)) % len(claims)]]
    and of the same for [l], and these two pairs of indices differ; when
    neither list holds a text twice, the pairs of texts differ too. *)
Theorem phrase_generator_never_repeats (intros claims : list str)
    (tag : str) :
  intros <> [] -> claims <> [] ->
  exists self,
    PhraseGenerator.__init__ intros claims tag = Ok self /\
    (forall N, exists outs self',
       PhraseGenerator.productions N self = Ok (outs, self') /\
       length outs = N /\ NoDup outs) /\
    (exists outs self',
       PhraseGenerator.productions (length intros * length claims) self
       = Ok (outs, self') /\
       forall k l,
         k < length intros * length claims ->
         l < length intros * length claims ->
         k <> l ->
         exists intro_k claim_k intro_l claim_l,
           nth_error intros (k mod length intros) = Some intro_k /\
           nth_error claims ((k / length intros) mod length claims)
           = Some claim_k /\
           nth_error outs k
           = Some (PhraseGenerator.phrase intro_k claim_k tag
                     (Z.of_nat (k + 1))) /\
           nth_error intros (l mod length intros) = Some intro_l /\
           nth_error claims ((l / length intros) mod length claims)
           = Some claim_l /\
           nth_error outs l
           = Some (PhraseGenerator.phrase intro_l claim_l tag
                     (Z.of_nat (l + 1))) /\
           (k mod length intros, (k / length intros) mod length claims)
           <> (l mod length intros, (l / length intros) mod length claims) /\
           (NoDup intros -> NoDup claims ->
            (intro_k, claim_k) <> (intro_l, claim_l))).
Proof.
  intros Hi Hc.
  destruct (PhraseGeneratorFacts.init_productions intros claims tag Hi Hc)
    as (self & Hinit & _ & Hprod).
  exists self. split; [assumption|]. split.
  - intros N. destruct (Hprod N) as (outs & Hp & Hlen & Hnth).
    exists outs, (PhraseGeneratorFacts.with_counter self (Z.of_nat N)).
    split; [assumption|]. split; [assumption|].
    apply NoDup_nth_error. intros i j Hlt E.
    rewrite Hlen in Hlt.
    destruct (Hnth i Hlt) as (a & b & _ & _ & Hout). rewrite Hout in E.
    assert (Hj : j < N).
    { rewrite <- Hlen. apply nth_error_Some. rewrite <- E. discriminate. }
    destruct (Hnth j Hj) as (a' & b' & _ & _ & Hout'). rewrite Hout' in E.
    inversion E as [E']. apply PhraseGeneratorFacts.phrase_inj in E'. lia.
  - destruct (Hprod (length intros * length claims))
      as (outs & Hp & Hlen & Hnth).
    exists outs, (PhraseGeneratorFacts.with_counter self
                    (Z.of_nat (length intros * length claims))).
    split; [assumption|].
    intros k l Hk Hl Hne.
    destruct (Hnth k Hk) as (intro_k & claim_k & Hik & Hck & Hout_k).
    destruct (Hnth l Hl) as (intro_l & claim_l & Hil & Hcl & Hout_l).
    exists intro_k, claim_k, intro_l, claim_l.
    repeat (split; [assumption|]).
    assert (Hpair : k mod length intros = l mod length intros ->
                    (k / length intros) mod length claims
                    = (l / length intros) mod length claims -> False).
    { intros E1 E2. apply Hne.
      eapply PhraseGeneratorFacts.index_pair_inj; eassumption. }
    split.
    + intros E. inversion E as [[E1 E2]]. exact (Hpair E1 E2).
    + intros Hdi Hdc E. inversion E; subst intro_l claim_l.
      apply Hpair.
      * apply (proj1 (NoDup_nth_error intros) Hdi).
        -- apply nth_error_Some. rewrite Hik. discriminate.
        -- rewrite Hik, Hil. reflexivity.
      * apply (proj1 (NoDup_nth_error claims) Hdc).
        -- apply nth_error_Some. rewrite Hck. discriminate.
        -- rewrite Hck, Hcl. reflexivity.
Qed.

Lemma phrase_generator_never_repeats_witness :
  exists self,
    PhraseGenerator.__init__ [lit "a"; lit "b"] [lit "c"; lit "d"] (lit "tag")
      = Ok self /\
    (exists outs self',
       PhraseGenerator.productions 6 self = Ok (outs, self') /\
       length outs = 6 /\ NoDup outs) /\
    PhraseGenerator.productions 4 self
    = Ok ([lit "a c (tag #1)"; lit "b c (tag #2)"; lit "a d (tag #3)";
           lit "b d (tag #4)"],
          PhraseGeneratorFacts.with_counter self 4).
Proof.
  destruct (phrase_generator_never_repeats
              [lit "a"; lit "b"] [lit "c"; lit "d"] (lit "tag"))
    as (self & Hinit & Hprod & _); [discriminate|discriminate|].
  exists self. split; [exact Hinit|]. split; [exact (Hprod 6)|].
  inversion Hinit; subst. reflexivity.
Defined.

(** ** The animation loop *)

Module AnimationFacts.

Import Animation.

Lemma startswith_app (prefix s : str) : startswith (prefix ++ s) prefix = true.
Proof.
  induction prefix as [|c prefix IH]; simpl; [reflexivity|].
  rewrite N.eqb_refl. assumption.
Qed.



Section LoopFacts.

Variable World : Type.
Variable write_fn : str -> World -> outcome World.
Variable flush_fn : option (World -> outcome World).
Variable sleep_fn : float -> World -> outcome World.
Variable spinner : Spinner.t.
Variable iterations : option Z.

Local Abbreviation body := (Animation.body write_fn flush_fn sleep_fn spinner).
Local Abbreviation loop :=
  (Animation.loop write_fn flush_fn sleep_fn spinner iterations).
Local Abbreviation guarded :=
  (Animation.guarded write_fn flush_fn sleep_fn spinner iterations).
Local Abbreviation cap_reached := (Animation.cap_reached iterations).

Definition sleeps (t : list event) : nat := length (filter is_sleep t).

Lemma sleeps_app (t u : list event) : sleeps (t ++ u) = sleeps t + sleeps u.
Proof. unfold sleeps. rewrite filter_app, length_app. reflexivity. Qed.


Lemma written_app (t u : list event) :
  written (t ++ u) = written t ++ written u.
Proof. unfold written. apply flat_map_app. Qed.

(** *** A round calls [sleep_fn] at most once *)

Lemma body_sleeps (frame : str) (w : World) :
  sleeps (fst (body frame w)) <= 1.
Proof.
  unfold Animation.body, then_, skip, sleeps.
  destruct (write_fn _ w) as [w1|e w1]; [|simpl; lia].
  destruct (write_fn INSTRUCTION w1) as [w2|e w2]; [|simpl; lia].
  destruct flush_fn as [f|].
  - destruct (f w2) as [w3|e w3]; [|simpl; lia].
    destruct (sleep_fn _ w3); simpl; lia.
  - destruct (sleep_fn _ w2); simpl; lia.
Qed.

(** The rounds that remain from [index] on under the cap. *)
Definition rounds_left (index : nat) : option nat :=
  match iterations with
  | Some n => Some (Z.to_nat (Z.max 1 (n - Z.of_nat index)))
  | None => None
  end.

Lemma sleeps_nil : sleeps [] = 0.
Proof. reflexivity. Qed.

Lemma loop_sleeps_bound (fuel : nat) : forall (index : nat) (w : World),
  sleeps (fst (fst (loop fuel index w))) <= fuel /\
  forall r, rounds_left index = Some r ->
    sleeps (fst (fst (loop fuel index w))) <= r.
Proof.
  induction fuel as [|fuel IH]; intros index w.
  - cbn [Animation.loop fst]. rewrite sleeps_nil.
    split; [lia|]. intros r _. lia.
  - cbn [Animation.loop].
    destruct (Spinner.cycle spinner index) as [frame|].
    2:{ cbn [fst]. rewrite sleeps_nil. split; [lia|]. intros r _. lia. }
    pose proof (body_sleeps frame w) as Hb.
    destruct (body frame w) as [t [w'|e w']]; cbn [fst] in Hb.
    + destruct (cap_reached index) eqn:Hcap.
      * cbn [fst]. split; [lia|].
        unfold rounds_left. intros r Hr.
        destruct iterations as [n|]; [|discriminate].
        inversion Hr. lia.
      * destruct (IH (S index) w') as [IH1 IH2].
        destruct (loop fuel (S index) w') as [[t' s] w''].
        cbn [fst] in *. rewrite sleeps_app. split; [lia|].
        unfold rounds_left, Animation.cap_reached in *. intros r Hr.
        destruct iterations as [n|]; [|discriminate].
        inversion Hr; subst r.
        specialize (IH2 _ eq_refl).
        destruct (Z.geb_spec (Z.of_nat index + 1) n); [discriminate|]. lia.
    + cbn [fst]. split; [lia|].
      unfold rounds_left. intros r Hr.
      destruct iterations as [n|]; [|discriminate].
      inversion Hr. lia.
Qed.

Lemma guarded_sleeps (fuel : nat) (w : World) :
  sleeps (fst (fst (guarded fuel w)))
  = sleeps (fst (fst (loop fuel 0 w))).
Proof.
  unfold Animation.guarded.
  destruct (loop fuel 0 w) as [[t s] w'].
  destruct s as [|e|]; try reflexivity.
  destruct e; try reflexivity.
  destruct (write_fn GOODBYE w'); cbn [fst]; rewrite sleeps_app;
    unfold sleeps; simpl; lia.
Qed.

(** *** More fuel does not change a run that has ended *)

Lemma loop_fuel_mono (fuel : nat) : forall (index : nat) (w : World)
    (t : list event) (s : status) (w' : World) (fuel' : nat),
  loop fuel index w = (t, s, w') -> s <> Running -> fuel <= fuel' ->
  loop fuel' index w = (t, s, w').
Proof.
  induction fuel as [|fuel IH]; intros index w t s w' fuel' Hrun Hs Hle.
  - simpl in Hrun. inversion Hrun; subst. congruence.
  - destruct fuel' as [|fuel']; [lia|].
    cbn [Animation.loop] in *.
    destruct (Spinner.cycle spinner index) as [frame|]; [|assumption].
    destruct (body frame w) as [t0 [w0|e w0]]; [|assumption].
    destruct (Animation.cap_reached iterations index); [assumption|].
    destruct (loop fuel (S index) w0) as [[t1 s1] w1] eqn:E.
    inversion Hrun; subst.
    rewrite (IH _ _ _ _ _ fuel' E Hs ltac:(lia)). reflexivity.
Qed.

(** *** Rounds in which nothing raises *)

Definition returns1 {A : Type} (f : A -> World -> outcome World) : Prop :=
  forall a w, exists w', f a w = Returns w'.

Definition flush_returns : Prop :=
  forall f, flush_fn = Some f -> forall w, exists w', f w = Returns w'.

(** The calls of one round. *)
Definition round_events (frame : str) : list event :=
  [Write (CLEAR_AND_HOME ++ frame ++ [LF]); Write INSTRUCTION]
  ++ match flush_fn with
     | Some _ => [Flush]
     | None => []
     end
  ++ [Sleep (Spinner.delay spinner)].

Definition frame_at (index : nat) : str :=
  nth (index mod length (Spinner.frames spinner)) (Spinner.frames spinner) [].

(** The calls of [m] rounds from [index] on. *)
Definition rounds_events (index m : nat) : list event :=
  flat_map (fun i => round_events (frame_at i)) (seq index m).

Hypothesis write_returns : returns1 write_fn.
Hypothesis flush_ok : flush_returns.
Hypothesis sleep_returns : returns1 sleep_fn.

Lemma body_returns (frame : str) (w : World) :
  exists w', body frame w = (round_events frame, Returns w').
Proof.
  unfold Animation.body, then_, skip, round_events.
  destruct (write_returns (CLEAR_AND_HOME ++ frame ++ [LF]) w) as [w1 ->].
  destruct (write_returns INSTRUCTION w1) as [w2 ->].
  unfold flush_returns in flush_ok.
  destruct flush_fn as [f|].
  - destruct (flush_ok f eq_refl w2) as [w3 ->].
    destruct (sleep_returns (Spinner.delay spinner) w3) as [w4 ->].
    exists w4. reflexivity.
  - destruct (sleep_returns (Spinner.delay spinner) w2) as [w3 ->].
    exists w3. reflexivity.
Qed.

Lemma cycle_frame_at (index : nat) :
  Spinner.frames spinner <> [] ->
  Spinner.cycle spinner index = Some (frame_at index).
Proof.
  unfold Spinner.cycle, frame_at. intros Hne.
  destruct (Spinner.frames spinner) as [|f fs] eqn:E; [congruence|].
  apply nth_error_nth'. apply Nat.mod_upper_bound. discriminate.
Qed.

(** The loop runs [m + 1] rounds and ends when the cap is first reached
    in round [index + m]. *)
Lemma loop_rounds (m : nat) : forall (index fuel : nat) (w : World),
  Spinner.frames spinner <> [] ->
  (forall i, index <= i < index + m -> cap_reached i = false) ->
  cap_reached (index + m) = true ->
  m < fuel ->
  exists w', loop fuel index w = (rounds_events index (S m), Returned, w').
Proof.
  induction m as [|m IH]; intros index fuel w Hne Hbefore Hcap Hfuel.
  - destruct fuel as [|fuel]; [lia|].
    cbn [Animation.loop]. rewrite cycle_frame_at by assumption.
    destruct (body_returns (frame_at index) w) as [w' ->].
    rewrite Nat.add_0_r in Hcap. rewrite Hcap.
    exists w'. unfold rounds_events. simpl. rewrite app_nil_r. reflexivity.
  - destruct fuel as [|fuel]; [lia|].
    cbn [Animation.loop]. rewrite cycle_frame_at by assumption.
    destruct (body_returns (frame_at index) w) as [w' ->].
    rewrite (Hbefore index) by lia.
    destruct (IH (S index) fuel w' Hne) as [w'' Hloop].
    + intros i Hi. apply Hbefore. lia.
    + replace (S index + m) with (index + S m) by lia. assumption.
    + lia.
    + rewrite Hloop. exists w''. reflexivity.
Qed.


Lemma round_events_sleeps (frame : str) : sleeps (round_events frame) = 1.
Proof.
  unfold round_events, sleeps. destruct flush_fn; reflexivity.
Qed.

Lemma round_events_written (frame : str) :
  written (round_events frame)
  = [CLEAR_AND_HOME ++ frame ++ [LF]; INSTRUCTION].
Proof.
  unfold round_events. destruct flush_fn; reflexivity.
Qed.


Lemma rounds_events_sleeps (m : nat) : forall index,
  sleeps (rounds_events index m) = m.
Proof.
  unfold rounds_events.
  induction m as [|m IH]; intros index; [reflexivity|].
  cbn [seq flat_map]. rewrite sleeps_app, round_events_sleeps, IH.
  reflexivity.
Qed.

Lemma rounds_events_written (m : nat) : forall index,
  written (rounds_events index m)
  = flat_map (fun i => [CLEAR_AND_HOME ++ frame_at i ++ [LF]; INSTRUCTION])
             (seq index m).
Proof.
  unfold rounds_events.
  induction m as [|m IH]; intros index; [reflexivity|].
  cbn [seq flat_map]. rewrite written_app, round_events_written, IH.
  reflexivity.
Qed.

End LoopFacts.

Arguments returns1 {World A} f.
Arguments flush_returns {World} flush_fn.
Arguments round_events {World} flush_fn spinner frame.
Arguments rounds_events {World} flush_fn spinner index m.

Section Interrupts.

Variable World : Type.
Variable write_fn : str -> World -> outcome World.
Variable flush_fn : option (World -> outcome World).
Variable sleep_fn : float -> World -> outcome World.
Variable spinner : Spinner.t.
Variable iterations : option Z.

(** What a call of the trace does in a world. *)
Definition call_outcome (e : event) (w : World) : outcome World :=
  match e with
  | Write text => write_fn text w
  | Flush =>
      match flush_fn with
      | Some f => f w
      | None => Returns w
      end
  | Sleep seconds => sleep_fn seconds w
  end.

Lemma body_raised_by_call (frame : str) (w w' : World) (t : list event)
    (e : exn) :
  Animation.body write_fn flush_fn sleep_fn spinner frame w
  = (t, Raises e w') ->
  exists t0 ev w0, t = t0 ++ [ev] /\ call_outcome ev w0 = Raises e w'.
Proof.
  unfold Animation.body, then_, skip.
  destruct (write_fn (CLEAR_AND_HOME ++ frame ++ [LF]) w) as [w1|e1 w1] eqn:E1.
  2:{ intros H. inversion H; subst.
      exists [], (Write (CLEAR_AND_HOME ++ frame ++ [LF])), w.
      split; [reflexivity|exact E1]. }
  destruct (write_fn INSTRUCTION w1) as [w2|e2 w2] eqn:E2.
  2:{ intros H. inversion H; subst.
      exists [Write (CLEAR_AND_HOME ++ frame ++ [LF])], (Write INSTRUCTION), w1.
      split; [reflexivity|exact E2]. }
  destruct flush_fn as [f|] eqn:Ef.
  - destruct (f w2) as [w3|e3 w3] eqn:E3.
    2:{ intros H. inversion H; subst.
        exists [Write (CLEAR_AND_HOME ++ frame ++ [LF]); Write INSTRUCTION],
          Flush, w2.
        split; [reflexivity|]. simpl. rewrite Ef. exact E3. }
    destruct (sleep_fn (Spinner.delay spinner) w3) as [w4|e4 w4] eqn:E4;
      intros H; inversion H; subst.
    exists [Write (CLEAR_AND_HOME ++ frame ++ [LF]); Write INSTRUCTION; Flush],
      (Sleep (Spinner.delay spinner)), w3.
    split; [reflexivity|exact E4].
  - destruct (sleep_fn (Spinner.delay spinner) w2) as [w3|e3 w3] eqn:E3;
      intros H; inversion H; subst.
    exists [Write (CLEAR_AND_HOME ++ frame ++ [LF]); Write INSTRUCTION],
      (Sleep (Spinner.delay spinner)), w2.
    split; [reflexivity|exact E3].
Qed.

(** When the loop ends with an exception, the last call of the trace
    raised it. *)
Lemma loop_raised_by_call (fuel : nat) : forall (index : nat) (w w' : World)
    (t : list event) (e : exn),
  Animation.loop write_fn flush_fn sleep_fn spinner iterations fuel index w
  = (t, Raised e, w') ->
  exists t0 ev w0, t = t0 ++ [ev] /\ call_outcome ev w0 = Raises e w'.
Proof.
  induction fuel as [|fuel IH]; intros index w w' t e Hloop.
  - discriminate Hloop.
  - cbn [Animation.loop] in Hloop.
    destruct (Spinner.cycle spinner index) as [frame|]; [|discriminate Hloop].
    destruct (Animation.body write_fn flush_fn sleep_fn spinner frame w)
      as [t1 [w1|e1 w1]] eqn:Hbody.
    + destruct (Animation.cap_reached iterations index);
        [discriminate Hloop|].
      destruct (Animation.loop write_fn flush_fn sleep_fn spinner iterations
                  fuel (S index) w1) as [[t2 s2] w2] eqn:Hrest.
      inversion Hloop; subst.
      destruct (IH _ _ _ _ _ Hrest) as (t0 & ev & w0 & -> & Hcall).
      exists (t1 ++ t0), ev, w0. split; [apply app_assoc|assumption].
    + inversion Hloop; subst.
      apply body_raised_by_call in Hbody. exact Hbody.
Qed.

End Interrupts.

Lemma flat_map_seq_nth {A B : Type} (f : A -> list B) (d : A) (l : list A) :
  forall (g : nat -> A),
  (forall i, i < length l -> g i = nth i l d) ->
  flat_map (fun i => f (g i)) (seq 0 (length l)) = flat_map f l.
Proof.
  induction l as [|x l IH] using rev_ind; intros g Hg; [reflexivity|].
  rewrite length_app. simpl. rewrite Nat.add_1_r, seq_S.
  rewrite !flat_map_app. simpl. rewrite !app_nil_r.
  rewrite IH.
  - rewrite Hg by (rewrite length_app; simpl; lia).
    rewrite app_nth2 by lia. rewrite Nat.sub_diag. reflexivity.
  - intros i Hi. rewrite Hg by (rewrite length_app; simpl; lia).
    apply app_nth1. assumption.
Qed.

(** With the cap [k], the number of frames, the loop shows each frame
    once, in order, and ends. *)
Lemma loop_frames_once (World : Type)
    (write_fn : str -> World -> outcome World)
    (flush_fn : option (World -> outcome World))
    (sleep_fn : float -> World -> outcome World)
    (spinner : Spinner.t) (k fuel : nat) (w : World) :
  returns1 write_fn -> flush_returns flush_fn -> returns1 sleep_fn ->
  length (Spinner.frames spinner) = k -> 1 <= k -> k <= fuel ->
  (exists w',
     loop write_fn flush_fn sleep_fn spinner (Some (Z.of_nat k)) fuel 0 w
     = (rounds_events flush_fn spinner 0 k, Returned, w')) /\
  written (rounds_events flush_fn spinner 0 k)
  = flat_map (fun frame => [CLEAR_AND_HOME ++ frame ++ [LF]; INSTRUCTION])
             (Spinner.frames spinner).
Proof.
  intros Hwrite Hflush Hsleep Hk Hk1 Hfuel.
  assert (Hne : Spinner.frames spinner <> []).
  { intros E. rewrite E in Hk. simpl in Hk. lia. }
  split.
  - destruct (loop_rounds World write_fn flush_fn sleep_fn spinner
                (Some (Z.of_nat k)) Hwrite Hflush Hsleep (k - 1) 0 fuel w Hne)
      as [w' Hloop].
    + intros i Hi. unfold cap_reached.
      destruct (Z.geb_spec (Z.of_nat i + 1) (Z.of_nat k)); [lia|reflexivity].
    + unfold cap_reached.
      destruct (Z.geb_spec (Z.of_nat (0 + (k - 1)) + 1) (Z.of_nat k));
        [reflexivity|lia].
    + lia.
    + replace (S (k - 1)) with k in Hloop by lia. exists w'. exact Hloop.
  - rewrite rounds_events_written. rewrite <- Hk.
    apply (flat_map_seq_nth
             (fun frame => [CLEAR_AND_HOME ++ frame ++ [LF]; INSTRUCTION]) []).
    intros i Hi. unfold frame_at.
    rewrite Nat.mod_small by assumption. reflexivity.
Qed.

(** [sleep_fn or time.sleep]: a sleep function that is true is the one
    called, and one that is false is replaced by [time.sleep]. *)
Lemma choose_sleep_truthy (World : Type) (env : environment World)
    (f : sleep_function World) :
  sleep_truthy f = true -> choose_sleep env (Some f) = sleep_call f.
Proof. intros H. unfold choose_sleep. rewrite H. reflexivity. Qed.

Lemma choose_sleep_falsy (World : Type) (env : environment World)
    (f : sleep_function World) :
  sleep_truthy f = false -> choose_sleep env (Some f) = time_sleep env.
Proof. intros H. unfold choose_sleep. rewrite H. reflexivity. Qed.

End AnimationFacts.

(** The setting of the test of [animate]: the world is the buffer of a
    [FakeWriter], and the sleep function is [lambda _: None]. *)
Definition test_env : Animation.environment (list str) :=
  {| Animation.sys_stdout := Animation.FakeWriter;
     Animation.time_sleep := fun _ buffer => Animation.Returns buffer;
     Animation.os_name_is_nt := false;
     Animation.console := ConsoleRaises |}.

Definition no_sleep : Animation.sleep_function (list str) :=
  Animation.py_function (fun _ buffer => Animation.Returns buffer).

(** A sleep function that is interrupted. *)
Definition interrupted_sleep : Animation.sleep_function (list str) :=
  Animation.py_function
    (fun _ buffer => Animation.Raises KeyboardInterrupt buffer).

(** A writer whose every write is interrupted. *)
Definition interrupted_writer : Animation.writer (list str) :=
  {| Animation.truthy := true;
     Animation.write_attr :=
       Some (fun _ buffer => Animation.Raises KeyboardInterrupt buffer);
     Animation.flush_attr := None;
     Animation.call :=
       fun _ buffer => Animation.Raises (OtherException 0) buffer |}.

Definition two_frames : Spinner.t :=
  {| Spinner.frames := [lit "/"; lit "-"];
     Spinner.delay := Spinner.default_delay |}.



(** With the cap 0 the sleep function is called once: more often than
    the cap. *)
Lemma animate_zero_cap_sleeps_once :
  AnimationFacts.sleeps
    (Animation.trace
       (Animation.animate test_env 1 two_frames (Some 0%Z)
          (Some Animation.FakeWriter) (Some no_sleep) None [])) = 1 /\
  ~ (Z.of_nat
       (AnimationFacts.sleeps
          (Animation.trace
             (Animation.animate test_env 1 two_frames (Some 0%Z)
                (Some Animation.FakeWriter) (Some no_sleep) None [])))
     <= 0)%Z.
Proof.
  split; [reflexivity|]. intros H. vm_compute in H. apply H. reflexivity.
Qed.

(** C7 (as amended): for every Spinner, writer, sleep function and cap
    [n], [animate] never calls the sleep function more than [max(n, 1)]
    times, however long it runs: not more than [n] times when [n >= 1],
    and not more than once when [n <= 0]. *)
Theorem animate_sleeps_at_most_cap (World : Type)
    (env : Animation.environment World) (fuel : nat) (spinner : Spinner.t)
    (n : Z) (writer_arg : option (Animation.writer World))
    (sleep_arg : option (Animation.sleep_function World))
    (_enabled : option bool) (w : World) :
  AnimationFacts.sleeps
    (Animation.trace
       (Animation.animate env fuel spinner (Some n) writer_arg sleep_arg
          _enabled w))
  <= Z.to_nat (Z.max 1 n).
Proof.
  unfold Animation.animate.
  set (write_fn := Animation.write_fn_of _).
  set (flush_fn := Animation.flush_attr _).
  set (sleep_fn := Animation.choose_sleep _ _).
  pose proof (AnimationFacts.guarded_sleeps World write_fn flush_fn sleep_fn
                spinner (Some n) fuel w) as Hg.
  destruct (AnimationFacts.loop_sleeps_bound World write_fn flush_fn sleep_fn
              spinner (Some n) fuel 0 w) as [_ Hb].
  specialize (Hb _ eq_refl).
  destruct (Animation.guarded _ _ _ _ _ _ _) as [[t s] w'].
  cbn [Animation.trace fst] in *. rewrite Hg.
  replace (n - Z.of_nat 0)%Z with n in Hb by lia. exact Hb.
Qed.

(** When the writes are the source of the interrupt, the write of the
    goodbye message is one of them: with a writer whose every write
    raises [KeyboardInterrupt], the interrupt of the first write is
    caught, the goodbye write raises again outside the [try], and
    [animate] does not return normally but raises [KeyboardInterrupt]. *)
Lemma animate_interrupt_raised_again :
  let r := Animation.animate test_env 1 two_frames None
             (Some interrupted_writer) (Some no_sleep) None [] in
  Animation.trace r
  = [Animation.Write (CLEAR_AND_HOME ++ lit "/" ++ [LF]);
     Animation.Write Animation.GOODBYE] /\
  Animation.final r = Animation.Raised KeyboardInterrupt /\
  Animation.final r <> Animation.Returned.
Proof.
  split; [reflexivity|]. split; [reflexivity|]. discriminate.
Qed.

(** C8 (as amended): when a call of the loop (a write, the flush or the
    sleep) raises [KeyboardInterrupt], [animate] catches it and makes one
    more call, the write of the clear-and-home sequence followed by the
    goodbye message, and when that write returns [animate] returns
    normally. *)
Theorem animate_catches_interrupt (World : Type)
    (env : Animation.environment World) (fuel : nat) (spinner : Spinner.t)
    (iterations : option Z) (writer_arg : option (Animation.writer World))
    (sleep_arg : option (Animation.sleep_function World))
    (_enabled : option bool) (w w1 w2 : World) (t : list Animation.event) :
  let writer := Animation.choose_writer env writer_arg in
  Animation.loop (Animation.write_fn_of writer) (Animation.flush_attr writer)
    (Animation.choose_sleep env sleep_arg) spinner iterations fuel 0 w
  = (t, Animation.Raised KeyboardInterrupt, w1) ->
  Animation.write_fn_of writer Animation.GOODBYE w1 = Animation.Returns w2 ->
  forall fuel', fuel <= fuel' ->
    let r := Animation.animate env fuel' spinner iterations writer_arg
               sleep_arg _enabled w in
    Animation.trace r = t ++ [Animation.Write Animation.GOODBYE] /\
    Animation.final r = Animation.Returned /\
    Animation.world r = w2.
Proof.
  intros writer Hloop Hbye fuel' Hfuel.
  apply AnimationFacts.loop_fuel_mono with (fuel' := fuel') in Hloop;
    [|discriminate|assumption].
  unfold Animation.animate, Animation.guarded. fold writer.
  rewrite Hloop, Hbye. repeat split.
Qed.

Lemma animate_catches_interrupt_witness :
  let r := Animation.animate test_env 5 two_frames None
             (Some Animation.FakeWriter) (Some interrupted_sleep) None [] in
  Animation.trace r
  = [Animation.Write (CLEAR_AND_HOME ++ lit "/" ++ [LF]);
     Animation.Write Animation.INSTRUCTION; Animation.Flush;
     Animation.Sleep Spinner.default_delay]
    ++ [Animation.Write Animation.GOODBYE] /\
  Animation.final r = Animation.Returned /\
  Animation.world r
  = [CLEAR_AND_HOME ++ lit "/" ++ [LF]; Animation.INSTRUCTION;
     Animation.GOODBYE].
Proof.
  apply (animate_catches_interrupt (list str) test_env 1 two_frames None
           (Some Animation.FakeWriter) (Some interrupted_sleep) None []
           [CLEAR_AND_HOME ++ lit "/" ++ [LF]; Animation.INSTRUCTION]).
  - reflexivity.
  - reflexivity.
  - lia.
Defined.



(** *** The output as the test measures it *)

Module RecordingFacts.

Import Animation.

Definition ESC_CHAR : char := 27%N.

Lemma join_empty_sep (parts : list str) : join [] parts = concat parts.
Proof.
  induction parts as [|p rest IH]; [reflexivity|].
  destruct rest as [|q rest'].
  - simpl. symmetry. apply app_nil_r.
  - change (join [] (p :: q :: rest')) with (p ++ join [] (q :: rest')).
    rewrite IH. reflexivity.
Qed.

Lemma count_from_skip (sub p rest : str) :
  count_from sub (length p) (p ++ rest) = count_from sub 0 rest.
Proof.
  induction p as [|c p IH]; simpl.
  - destruct rest; reflexivity.
  - assumption.
Qed.

Lemma count_from_match (sub rest : str) :
  sub <> [] -> count_from sub 0 (sub ++ rest) = S (count_from sub 0 rest).
Proof.
  destruct sub as [|c sub]; [congruence|]. intros _.
  cbn [app count_from].
  change (startswith (c :: sub ++ rest) (c :: sub))
    with (startswith ((c :: sub) ++ rest) (c :: sub)).
  rewrite AnimationFacts.startswith_app.
  cbn [length Nat.pred]. rewrite count_from_skip. reflexivity.
Qed.

Lemma count_from_other (c : char) (sub text rest : str) :
  hd_error sub = Some c -> no_char c text ->
  count_from sub 0 (text ++ rest) = count_from sub 0 rest.
Proof.
  destruct sub as [|c' sub]; [discriminate|].
  intros E. injection E as ->.
  induction 1 as [|x text Hx Htext IH]; [reflexivity|].
  cbn [app count_from startswith].
  apply N.eqb_neq in Hx. rewrite Hx. cbn [andb]. assumption.
Qed.

Lemma no_escape_instruction : no_char ESC_CHAR INSTRUCTION.
Proof.
  vm_compute. repeat (apply Forall_cons || apply Forall_nil); discriminate.
Qed.

(** The texts of the rounds, joined, hold the clear-and-home sequence
    once per frame when no frame holds the escape character. *)
Lemma count_clear_rounds (frames : list str) :
  Forall (no_char ESC_CHAR) frames ->
  Str.count CLEAR_AND_HOME
    (concat (flat_map (fun frame => [CLEAR_AND_HOME ++ frame ++ [LF];
                                     INSTRUCTION]) frames))
  = length frames.
Proof.
  assert (Hhd : hd_error CLEAR_AND_HOME = Some ESC_CHAR) by reflexivity.
  assert (Hne : CLEAR_AND_HOME <> []) by discriminate.
  change (Str.count CLEAR_AND_HOME) with (count_from CLEAR_AND_HOME 0).
  induction 1 as [|frame frames Hframe Hframes IH]; [reflexivity|].
  set (g := fun frame => [CLEAR_AND_HOME ++ frame ++ [LF]; INSTRUCTION]) in *.
  assert (E : concat (flat_map g (frame :: frames))
              = CLEAR_AND_HOME ++ frame ++ [LF] ++ INSTRUCTION
                ++ concat (flat_map g frames)).
  { cbn [flat_map]. unfold g at 1. cbn [app concat].
    rewrite <- !app_assoc. reflexivity. }
  rewrite E. rewrite count_from_match by assumption.
  rewrite (count_from_other ESC_CHAR) by assumption.
  rewrite (count_from_other ESC_CHAR _ [LF])
    by (assumption || (repeat constructor; discriminate)).
  rewrite (count_from_other ESC_CHAR)
    by (assumption || apply no_escape_instruction).
  rewrite IH. reflexivity.
Qed.

(** A [FakeWriter] and a sleep function that leaves the buffer alone: the
    buffer grows by the texts written. *)
Lemma fake_writer_loop (spinner : Spinner.t) (iterations : option Z)
    (sleep_fn : float -> list str -> outcome (list str)) (fuel : nat) :
  (forall seconds buffer, sleep_fn seconds buffer = Returns buffer) ->
  forall index buffer,
    snd (loop (write_fn_of FakeWriter) (flush_attr FakeWriter) sleep_fn
           spinner iterations fuel index buffer)
    = buffer ++ written (fst (fst (loop (write_fn_of FakeWriter)
                                     (flush_attr FakeWriter) sleep_fn
                                     spinner iterations fuel index buffer))).
Proof.
  intros Hsleep. induction fuel as [|fuel IH]; intros index buffer.
  - simpl. symmetry. apply app_nil_r.
  - cbn [loop]. destruct (Spinner.cycle spinner index) as [frame|].
    2:{ simpl. symmetry. apply app_nil_r. }
    unfold body, then_. cbn [write_fn_of FakeWriter write_attr flush_attr].
    rewrite Hsleep. cbn [app].
    destruct (cap_reached iterations index).
    + cbn [fst snd written flat_map app]. rewrite <- app_assoc. reflexivity.
    + specialize (IH (S index)
                    ((buffer ++ [CLEAR_AND_HOME ++ frame ++ [LF]])
                     ++ [INSTRUCTION])).
      destruct (loop _ _ _ _ _ fuel (S index) _) as [[t s] w'].
      cbn [fst snd] in *. rewrite IH.
      cbn [written flat_map app]. rewrite <- !app_assoc. reflexivity.
Qed.

End RecordingFacts.

(** The test of [animate], for any Spinner whose frames do not hold the
    escape character: after [animate] with [iterations = k], a
    [FakeWriter] and a sleep function that does nothing, the joined
    output holds the clear-and-home sequence exactly [k] times, counted
    as [str.count] does, and holds the instruction line. *)
Lemma animate_output_counts (spinner : Spinner.t) (k : nat)
    (_enabled : option bool) :
  length (Spinner.frames spinner) = k -> 1 <= k ->
  Forall (no_char RecordingFacts.ESC_CHAR) (Spinner.frames spinner) ->
  let r := Animation.animate test_env k spinner (Some (Z.of_nat k))
             (Some Animation.FakeWriter) (Some no_sleep) _enabled [] in
  Animation.final r = Animation.Returned /\
  Str.count CLEAR_AND_HOME (Animation.joined (Animation.world r)) = k /\
  In Animation.INSTRUCTION (Animation.world r).
Proof.
  intros Hk Hk1 Hesc r.
  destruct (AnimationFacts.loop_frames_once (list str)
              (Animation.write_fn_of Animation.FakeWriter)
              (Animation.flush_attr Animation.FakeWriter)
              (Animation.sleep_call no_sleep) spinner k k [])
    as [[w' Hloop] Hwritten]; try assumption; try lia.
  { intros text buffer. eexists. reflexivity. }
  { intros f Hf buffer. inversion Hf; subst. eexists. reflexivity. }
  { intros seconds buffer. eexists. reflexivity. }
  pose proof (RecordingFacts.fake_writer_loop spinner (Some (Z.of_nat k))
                (Animation.sleep_call no_sleep) k (fun _ _ => eq_refl) 0 [])
    as Hbuffer.
  rewrite Hloop in Hbuffer. cbn [fst snd app] in Hbuffer.
  rewrite Hwritten in Hbuffer.
  assert (Hr : Animation.final r = Animation.Returned /\
               Animation.world r = w').
  { unfold r, Animation.animate, Animation.guarded.
    cbn [Animation.choose_writer Animation.truthy Animation.FakeWriter].
    rewrite (AnimationFacts.choose_sleep_truthy _ test_env no_sleep eq_refl).
    rewrite Hloop. split; reflexivity. }
  destruct Hr as [Hfinal Hworld].
  split; [assumption|]. rewrite Hworld, Hbuffer. split.
  - unfold Animation.joined.
    rewrite RecordingFacts.join_empty_sep, <- Hk.
    apply RecordingFacts.count_clear_rounds. assumption.
  - destruct (Spinner.frames spinner) as [|f fs]; [simpl in Hk; lia|].
    simpl. right. left. reflexivity.
Qed.

(** ** Construction and choice parsing *)

Module ChoiceFacts.

Lemma eqb_eq (a b : str) : Str.eqb a b = true <-> a = b.
Proof.
  revert b. induction a as [|x a IH]; intros [|y b]; simpl;
    try (split; [discriminate|discriminate]); [tauto|].
  rewrite andb_true_iff, N.eqb_eq, IH. split.
  - intros [-> ->]. reflexivity.
  - intros E. inversion E. tauto.
Qed.

Lemma mem_In (x : str) (set : list str) : mem x set = true <-> In x set.
Proof.
  unfold mem. rewrite existsb_exists. split.
  - intros (y & Hin & E). apply eqb_eq in E. subst. assumption.
  - intros Hin. exists x. split; [assumption|]. apply eqb_eq. reflexivity.
Qed.

(** Comparisons of a code point with constants, settled by [lia]. *)
Ltac settle_comparisons :=
  repeat match goal with
  | |- context [N.leb ?a ?b] =>
      first [ replace (N.leb a b) with true
                by (symmetry; apply N.leb_le; lia)
            | replace (N.leb a b) with false
                by (symmetry; apply N.leb_gt; lia) ]
  | |- context [N.eqb ?a ?b] =>
      first [ replace (N.eqb a b) with false
                by (symmetry; apply N.eqb_neq; lia)
            | replace (N.eqb a b) with true
                by (symmetry; apply N.eqb_eq; lia) ]
  | |- context [N.ltb ?a ?b] =>
      first [ replace (N.ltb a b) with true
                by (symmetry; apply N.ltb_lt; lia)
            | replace (N.ltb a b) with false
                by (symmetry; apply N.ltb_ge; lia) ]
  end.

Definition lowercase_letter (c : char) : Prop := (97 <= c <= 122)%N.

Lemma ascii_lower_letter (c : char) :
  lowercase_letter (ascii_lower c) ->
  (c < 128)%N /\ isspace c = false.
Proof.
  unfold lowercase_letter, ascii_lower.
  destruct ((65 <=? c) && (c <=? 90))%N eqn:E.
  - apply andb_true_iff in E. destruct E as [E1 E2].
    apply N.leb_le in E1. apply N.leb_le in E2.
    intros _. split; [lia|]. unfold isspace. settle_comparisons. reflexivity.
  - intros H. split; [lia|]. unfold isspace. settle_comparisons. reflexivity.
Qed.

Lemma lstrip_by_all (p : char -> bool) (before rest : str) :
  Forall (fun c => p c = true) before ->
  lstrip_by p (before ++ rest) = lstrip_by p rest.
Proof.
  induction 1 as [|c before Hc Hb IH]; simpl; [reflexivity|].
  rewrite Hc. assumption.
Qed.

Lemma lstrip_by_stop (p : char -> bool) (c : char) (rest : str) :
  p c = false -> lstrip_by p (c :: rest) = c :: rest.
Proof. intros H. simpl. rewrite H. reflexivity. Qed.

(** Stripping removes the surrounding characters and only them. *)
Lemma strip_by_padded (p : char -> bool) (before word after : str) :
  Forall (fun c => p c = true) before ->
  Forall (fun c => p c = true) after ->
  word <> [] ->
  Forall (fun c => p c = false) word ->
  strip_by p (before ++ word ++ after) = word.
Proof.
  intros Hb Ha Hne Hw. unfold strip_by, rstrip_by.
  rewrite lstrip_by_all by assumption.
  destruct word as [|c word]; [congruence|].
  inversion Hw as [|? ? Hc Hw']; subst.
  rewrite <- app_comm_cons, lstrip_by_stop by assumption.
  rewrite app_comm_cons, rev_app_distr.
  rewrite lstrip_by_all by (apply Forall_rev; assumption).
  assert (Hrev : Forall (fun c => p c = false) (List.rev (c :: word)))
    by (apply Forall_rev; assumption).
  destruct (List.rev (c :: word)) as [|d rest] eqn:E.
  - apply (f_equal (@List.rev char)) in E. rewrite rev_involutive in E.
    discriminate.
  - inversion Hrev; subst. rewrite lstrip_by_stop by assumption.
    rewrite <- E. apply rev_involutive.
Qed.

Lemma lower_from_ascii (lower_full : str -> char -> str -> str) (s : str) :
  Forall (fun c => (c < 128)%N) s ->
  forall before, lower_from lower_full before s = map ascii_lower s.
Proof.
  induction 1 as [|c s Hc Hs IH]; intros before; simpl; [reflexivity|].
  apply N.ltb_lt in Hc. rewrite Hc, IH. reflexivity.
Qed.

(** The text between the white space is the word in any mix of cases. *)
Lemma normalized_padded (lower_full : str -> char -> str -> str)
    (before word after target : str) :
  Forall (fun c => isspace c = true) before ->
  Forall (fun c => isspace c = true) after ->
  target <> [] ->
  Forall lowercase_letter target ->
  map ascii_lower word = target ->
  lower lower_full (strip (before ++ word ++ after)) = target.
Proof.
  intros Hb Ha Hne Hletters Hmap.
  assert (Hword : Forall (fun c => (c < 128)%N /\ isspace c = false) word).
  { subst target. rewrite Forall_map in Hletters.
    revert Hletters. apply Forall_impl. apply ascii_lower_letter. }
  unfold strip. rewrite strip_by_padded; try assumption.
  - unfold lower. rewrite lower_from_ascii; [assumption|].
    revert Hword. apply Forall_impl. tauto.
  - intros ->. simpl in Hmap. congruence.
  - revert Hword. apply Forall_impl. tauto.
Qed.

End ChoiceFacts.

(** C9: the validations happen in the call itself. Constructing a Spinner
    from an empty frame sequence raises [ValueError]; constructing a
    PhraseGenerator from empty [intros] or empty [claims] raises
    [ValueError]; and [parse_choice], with [lowered] the input stripped
    of surrounding white space and put in lower case, returns [chip] when
    [lowered] is [chip] or [c], returns [cockroach] when it is
    [cockroach], [roach] or [r], and raises [ValueError] for every other
    input. In particular the five words are accepted in any mix of upper
    and lower case and with any white space around them. *)
Theorem validation_errors (lower_full : str -> char -> str -> str) :
  (forall delay, Spinner.__init__ [] delay = Raise ValueError) /\
  (forall intros claims tag,
     intros = [] \/ claims = [] ->
     PhraseGenerator.__init__ intros claims tag = Raise ValueError) /\
  (forall value,
     let lowered := lower lower_full (strip value) in
     (In lowered [lit "chip"; lit "c"] ->
      parse_choice lower_full value = Ok (lit "chip")) /\
     (In lowered [lit "cockroach"; lit "roach"; lit "r"] ->
      parse_choice lower_full value = Ok (lit "cockroach")) /\
     (~ In lowered [lit "chip"; lit "c"; lit "cockroach"; lit "roach";
                    lit "r"] ->
      parse_choice lower_full value = Raise ValueError)) /\
  (forall before word after,
     Forall (fun c => isspace c = true) before ->
     Forall (fun c => isspace c = true) after ->
     (In (map ascii_lower word) [lit "chip"; lit "c"] ->
      parse_choice lower_full (before ++ word ++ after) = Ok (lit "chip")) /\
     (In (map ascii_lower word) [lit "cockroach"; lit "roach"; lit "r"] ->
      parse_choice lower_full (before ++ word ++ after)
      = Ok (lit "cockroach"))).
Proof.
  split; [reflexivity|]. split.
  { intros intros claims tag [-> | ->]; [reflexivity|].
    destruct intros; reflexivity. }
  assert (Hparse : forall value,
     let lowered := lower lower_full (strip value) in
     (In lowered [lit "chip"; lit "c"] ->
      parse_choice lower_full value = Ok (lit "chip")) /\
     (In lowered [lit "cockroach"; lit "roach"; lit "r"] ->
      parse_choice lower_full value = Ok (lit "cockroach")) /\
     (~ In lowered [lit "chip"; lit "c"; lit "cockroach"; lit "roach";
                    lit "r"] ->
      parse_choice lower_full value = Raise ValueError)).
  { intros value lowered. unfold parse_choice. fold lowered.
    split; [|split].
    - intros Hin. apply ChoiceFacts.mem_In in Hin. rewrite Hin. reflexivity.
    - intros Hin.
      destruct (mem lowered [lit "chip"; lit "c"]) eqn:E.
      + apply ChoiceFacts.mem_In in E.
        destruct Hin as [<-|[<-|[<-|[]]]];
          destruct E as [E|[E|[]]]; discriminate E.
      + apply ChoiceFacts.mem_In in Hin. rewrite Hin. reflexivity.
    - intros Hnot.
      destruct (mem lowered [lit "chip"; lit "c"]) eqn:E1.
      { apply ChoiceFacts.mem_In in E1. exfalso. apply Hnot.
        simpl in *. tauto. }
      destruct (mem lowered [lit "cockroach"; lit "roach"; lit "r"]) eqn:E2.
      { apply ChoiceFacts.mem_In in E2. exfalso. apply Hnot.
        simpl in *. tauto. }
      reflexivity. }
  split; [exact Hparse|].
  intros before word after Hb Ha.
  assert (Hnorm : forall target,
            In target [lit "chip"; lit "c"; lit "cockroach"; lit "roach";
                       lit "r"] ->
            map ascii_lower word = target ->
            lower lower_full (strip (before ++ word ++ after)) = target).
  { intros target Hin Hmap.
    apply ChoiceFacts.normalized_padded; try assumption.
    - destruct Hin as [<-|[<-|[<-|[<-|[<-|[]]]]]]; discriminate.
    - unfold ChoiceFacts.lowercase_letter.
      destruct Hin as [<-|[<-|[<-|[<-|[<-|[]]]]]];
        repeat constructor; discriminate. }
  split.
  - intros Hin. apply (Hparse (before ++ word ++ after)).
    rewrite (Hnorm (map ascii_lower word)); [assumption| |reflexivity].
    simpl in *. tauto.
  - intros Hin. apply (Hparse (before ++ word ++ after)).
    rewrite (Hnorm (map ascii_lower word)); [assumption| |reflexivity].
    simpl in *. tauto.
Qed.

(** The Kelvin sign, whose lower case is the letter k, and the identity
    on the other code points beyond ASCII. *)
Definition sample_lower_full (before : str) (c : char) (after : str) : str :=
  if N.eqb c 8490 then [107%N] else [c].

Lemma validation_errors_witness :
  PhraseGenerator.__init__ [lit "a"] [] (lit "tag") = Raise ValueError /\
  parse_choice sample_lower_full (lit "C") = Ok (lit "chip") /\
  parse_choice sample_lower_full ([TAB] ++ lit " RoAcH " ++ [LF])
    = Ok (lit "cockroach") /\
  parse_choice sample_lower_full (lit "coc" ++ [8490%N] ++ lit "roach")
    = Ok (lit "cockroach") /\
  parse_choice sample_lower_full (lit "invalid") = Raise ValueError.
Proof.
  destruct (validation_errors sample_lower_full)
    as (_ & Hgen & Hparse & Hpadded).
  split; [apply Hgen; right; reflexivity|].
  split.
  { apply (proj1 (Hpadded [] (lit "C") []
                    (Forall_nil _) (Forall_nil _))).
    right. left. reflexivity. }
  split.
  { apply (proj2 (Hpadded ([TAB] ++ lit " ") (lit "RoAcH") (lit " " ++ [LF])
                    ltac:(repeat constructor) ltac:(repeat constructor))).
    right. left. reflexivity. }
  split.
  { apply (proj1 (proj2 (Hparse (lit "coc" ++ [8490%N] ++ lit "roach")))).
    left. reflexivity. }
  apply (proj2 (proj2 (Hparse (lit "invalid")))).
  vm_compute. intros H.
  repeat (destruct H as [H|H]; [discriminate H|]). exact H.
Defined.

(** * Further properties *)

(** ** Frame normalisation *)

Module NormalizeFacts.

Import DedentFacts.

Lemma height_of_positive (frames : list (list str)) :
  concat frames <> [] -> 1 <= height_of frames.
Proof.
  intros Hne.
  assert (Hex : exists f, In f frames /\ f <> []).
  { induction frames as [|g gs IH]; [simpl in Hne; congruence|].
    destruct g as [|l g].
    - destruct IH as (f & Hin & Hf); [exact Hne|].
      exists f. split; [right; assumption|assumption].
    - exists (l :: g). split; [left; reflexivity|discriminate]. }
  destruct Hex as (f & Hin & Hf).
  pose proof (height_of_bound frames f Hin) as Hb.
  destruct f; [congruence|simpl in Hb; lia].
Qed.

(** What [_normalize_frames] returned, when it returned. *)
Lemma normalize_frames_inv (raw_frames normalized : list str) :
  _normalize_frames raw_frames = Ok normalized ->
  concat (map _dedent_lines raw_frames) <> [] /\
  normalized
  = map (fun b => pad_frame (width_of (map _dedent_lines raw_frames))
                    (height_of (map _dedent_lines raw_frames))
                    (_dedent_lines b)) raw_frames.
Proof.
  intros Hok.
  destruct (concat (map _dedent_lines raw_frames)) as [|l0 ls] eqn:Hcat.
  { rewrite normalize_frames_error in Hok by exact Hcat. discriminate. }
  assert (Hne : concat (map _dedent_lines raw_frames) <> [])
    by (rewrite Hcat; discriminate).
  rewrite normalize_frames_ok in Hok by exact Hne.
  injection Hok as Hout. split; [discriminate|]. symmetry. exact Hout.
Qed.

Lemma split_pad_frame (width height : nat) (frame : list str) :
  Forall no_linebreak frame -> 1 <= height ->
  split LF (pad_frame width height frame) = padded_lines width height frame.
Proof.
  intros Hbreak Hh. rewrite pad_frame_join. apply split_join.
  - intros E. apply (f_equal (@length str)) in E.
    rewrite length_padded_lines in E. simpl in E. lia.
  - eapply Forall_impl; [apply no_linebreak_no_LF|].
    apply padded_lines_no_linebreak. assumption.
Qed.

(** A settled list of lines is what [_dedent_lines] makes of it. *)
Lemma lines_of_fixed (lines : list str) :
  settled lines -> lines_of lines = lines.
Proof.
  intros (Hbreak & Htidy & Htrim & Hmargin). unfold lines_of.
  assert (Hclean : clean lines = lines).
  { unfold clean. rewrite <- (map_id lines) at 2.
    apply map_ext_in. intros l Hl. rewrite Forall_forall in Htidy.
    unfold blank_to_empty.
    destruct (Htidy l Hl) as [->|[i Hi]]; [reflexivity|].
    destruct (Textwrap.whitespace_only l) eqn:E; [|reflexivity].
    unfold Textwrap.whitespace_only in E. destruct l; [discriminate|].
    apply leading_whitespace_None in E. rewrite E in Hi. discriminate. }
  rewrite Hclean, Hmargin.
  rewrite map_ext with (g := fun l => l) by apply cut_nil_margin.
  rewrite map_id. rewrite <- (app_nil_r lines) at 1.
  apply (trim_padded lines 0). assumption.
Qed.

Lemma dedent_lines_settled (block : str) :
  plain block -> settled (_dedent_lines block).
Proof.
  intros Hb. apply split_plain in Hb.
  rewrite dedent_lines_by_lines by assumption.
  apply lines_of_settled. assumption.
Qed.

(** The longest common prefix is the greatest one. *)
Lemma lcp_greatest (m a b : str) :
  prefix m a -> prefix m b -> prefix m (lcp a b).
Proof.
  intros [ra ->] [rb ->]. rewrite lcp_app. eexists. reflexivity.
Qed.

Lemma fold_lcp_greatest (m : str) (indents : list str) : forall a,
  prefix m a -> Forall (prefix m) indents ->
  prefix m (fold_left lcp indents a).
Proof.
  induction indents as [|i indents IH]; intros a Ha Hall; simpl.
  - assumption.
  - inversion Hall; subst. apply IH; [|assumption].
    apply lcp_greatest; assumption.
Qed.

Lemma prefix_nil (m : str) : prefix m [] -> m = [].
Proof.
  intros [r Hr]. symmetry in Hr. apply app_eq_nil in Hr. tauto.
Qed.

(** A run of spaces and tabs at the start of a line that has another
    character is part of its indent. *)
Lemma prefix_of_indent (m l i : str) :
  forallb Textwrap.is_space_or_tab m = true ->
  Textwrap.leading_whitespace l = Some i ->
  prefix m l -> prefix m i.
Proof.
  intros Hm Hi Hpre. apply leading_whitespace_Some in Hi.
  destruct Hi as (c & r & -> & Hc & _).
  revert i Hpre. induction m as [|x m IH]; intros i [rest Hrest].
  - exists i. reflexivity.
  - simpl in Hm. apply andb_true_iff in Hm. destruct Hm as [Hx Hm].
    destruct i as [|y i]; simpl in Hrest.
    + inversion Hrest; subst. congruence.
    + inversion Hrest; subst.
      destruct (IH Hm i) as [r' Hr']; [exists rest; assumption|].
      exists r'. simpl. rewrite <- Hr'. reflexivity.
Qed.

Lemma indents_In (l i : str) (lines : list str) :
  In l lines -> Textwrap.leading_whitespace l = Some i ->
  In i (indents lines).
Proof.
  intros Hin Hi. unfold indents. apply in_flat_map.
  exists l. split; [assumption|]. rewrite Hi. left. reflexivity.
Qed.

Lemma In_indents (i : str) (lines : list str) :
  In i (indents lines) ->
  exists l, In l lines /\ Textwrap.leading_whitespace l = Some i.
Proof.
  unfold indents. intros Hin. apply in_flat_map in Hin.
  destruct Hin as (l & Hl & Hi). exists l. split; [assumption|].
  destruct (Textwrap.leading_whitespace l); [|contradiction].
  destruct Hi as [->|[]]. reflexivity.
Qed.

(** Lines without a margin share no indentation. *)
Lemma no_common_indent (lines : list str) (m : str) :
  margin_of (indents lines) = [] ->
  (exists l, In l lines /\ l <> []) ->
  Forall tidy lines ->
  forallb Textwrap.is_space_or_tab m = true ->
  Forall (fun l => l = [] \/ prefix m l) lines ->
  m = [].
Proof.
  intros Hmargin (l0 & Hl0 & Hne0) Htidy Hm Hall.
  rewrite Forall_forall in Htidy, Hall.
  assert (Hind : Forall (prefix m) (indents lines)).
  { apply Forall_forall. intros i Hi.
    apply In_indents in Hi. destruct Hi as (l & Hl & Hi).
    apply (prefix_of_indent m l i Hm Hi).
    destruct (Hall l Hl) as [->|H]; [discriminate Hi|assumption]. }
  destruct (Htidy l0 Hl0) as [E|[i0 Hi0]]; [congruence|].
  pose proof (indents_In l0 i0 lines Hl0 Hi0) as Hin0.
  destruct (indents lines) as [|i rest] eqn:E; [contradiction|].
  simpl in Hmargin. inversion Hind; subst.
  apply prefix_nil. rewrite <- Hmargin.
  apply fold_lcp_greatest; assumption.
Qed.

Lemma tidy_inked (l : str) :
  tidy l ->
  l = [] \/ exists c, In c l /\ c <> SPACE /\ c <> TAB.
Proof.
  intros [->|[i Hi]]; [left; reflexivity|right].
  apply leading_whitespace_Some in Hi.
  destruct Hi as (c & r & -> & Hc & _). exists c.
  split; [apply in_or_app; right; left; reflexivity|].
  unfold Textwrap.is_space_or_tab in Hc. apply orb_false_iff in Hc.
  destruct Hc as [H1 H2]. apply N.eqb_neq in H1. apply N.eqb_neq in H2.
  tauto.
Qed.

Lemma trimmed_ends (lines : list str) :
  trimmed lines ->
  (forall rest, lines <> [] :: rest) /\
  (forall rest, lines <> rest ++ [[]]).
Proof.
  intros [H1 H2]. split.
  - intros rest E. rewrite E in H1. simpl in H1.
    pose proof (length_drop_empty rest) as Hlen. rewrite H1 in Hlen.
    simpl in Hlen. lia.
  - intros rest E. rewrite E, rev_app_distr in H2. simpl in H2.
    pose proof (length_drop_empty (List.rev rest)) as Hlen.
    rewrite H2 in Hlen. simpl in Hlen. lia.
Qed.

(** A block of spaces, tabs and line feeds has no lines. *)
Lemma blank_block_no_lines (block : str) :
  Forall (fun c => c = SPACE \/ c = TAB \/ c = LF) block ->
  _dedent_lines block = [].
Proof.
  intros Hblank.
  assert (Hplain : plain block).
  { revert Hblank. apply Forall_impl. intros c [-> | [-> | ->]] E;
      try discriminate E; reflexivity. }
  rewrite dedent_lines_by_lines by (apply split_plain; assumption).
  pose proof (Forall_split _ LF block Hblank) as Hlines.
  pose proof (split_lines_no_sep LF block) as Hsep.
  assert (Hclean : clean (split LF block)
                   = repeat [] (length (split LF block))).
  { revert Hlines Hsep. generalize (split LF block). intros lines.
    induction lines as [|l lines IH]; intros Hl Hs; [reflexivity|].
    inversion Hl as [|? ? Hl1 Hl2]; inversion Hs as [|? ? Hs1 Hs2]; subst.
    simpl. rewrite IH by assumption. f_equal.
    unfold blank_to_empty, Textwrap.whitespace_only.
    destruct l as [|c l]; [reflexivity|].
    replace (forallb Textwrap.is_space_or_tab (c :: l)) with true;
      [reflexivity|].
    symmetry. apply forallb_forall. intros x Hx.
    unfold no_char in Hs1. rewrite Forall_forall in Hl1, Hs1.
    specialize (Hl1 x Hx). specialize (Hs1 x Hx).
    unfold Textwrap.is_space_or_tab.
    destruct Hl1 as [-> | [-> | ->]]; [reflexivity|reflexivity|congruence]. }
  unfold lines_of. rewrite Hclean, indents_repeat_empty.
  rewrite map_ext with (g := fun l => l) by apply cut_nil_margin.
  rewrite map_id.
  apply (trim_padded [] (length (split LF block))).
  split; reflexivity.
Qed.

End NormalizeFacts.

(** X1: whenever [_normalize_frames] returns frames, there is one frame
    per block, [height] is at least 1, and every frame, also that of a
    block without lines, has exactly [height] lines of exactly [width]
    characters between its line feeds; when [width] is not 0 these are
    also the lines that [splitlines] gives, as the tests measure them. *)
Theorem normalized_frames_same_size (raw_frames normalized : list str) :
  _normalize_frames raw_frames = Ok normalized ->
  let width := width_of (map _dedent_lines raw_frames) in
  let height := height_of (map _dedent_lines raw_frames) in
  1 <= height /\
  length normalized = length raw_frames /\
  Forall (fun frame =>
            length (split LF frame) = height /\
            Forall (fun line => length line = width) (split LF frame) /\
            (1 <= width -> splitlines frame = split LF frame))
         normalized.
Proof.
  intros Hok width height.
  apply NormalizeFacts.normalize_frames_inv in Hok.
  destruct Hok as [Hne ->]. fold width height.
  pose proof (NormalizeFacts.height_of_positive _ Hne) as Hh.
  fold height in Hh.
  split; [assumption|]. split; [apply length_map|].
  apply Forall_map. apply Forall_forall. intros b Hb.
  assert (Hin : In (_dedent_lines b) (map _dedent_lines raw_frames))
    by (apply in_map; assumption).
  pose proof (splitlines_no_linebreak
                (strip_chars [LF] (Textwrap.dedent b))) as Hbreak.
  fold (_dedent_lines b) in Hbreak.
  rewrite NormalizeFacts.split_pad_frame by assumption.
  split; [|split].
  - rewrite length_padded_lines.
    pose proof (height_of_bound _ _ Hin) as Hle. fold height in Hle. lia.
  - apply padded_lines_width. apply width_of_bound. assumption.
  - intros Hw. apply splitlines_pad_frame; try assumption.
    apply width_of_bound. assumption.
Qed.

Lemma normalized_frames_same_size_witness :
  let raw_frames := [lit " a"; lit "bcd" ++ [LF] ++ lit "e"] in
  let normalized :=
    [lit "a  " ++ [LF] ++ lit "   "; lit "bcd" ++ [LF] ++ lit "e  "] in
  _normalize_frames raw_frames = Ok normalized /\
  1 <= 2 /\
  length normalized = length raw_frames /\
  Forall (fun frame =>
            length (split LF frame) = 2 /\
            Forall (fun line => length line = 3) (split LF frame) /\
            (1 <= 3 -> splitlines frame = split LF frame))
         normalized.
Proof.
  split; [reflexivity|].
  apply (normalized_frames_same_size
           [lit " a"; lit "bcd" ++ [LF] ++ lit "e"]
           [lit "a  " ++ [LF] ++ lit "   "; lit "bcd" ++ [LF] ++ lit "e  "]).
  reflexivity.
Defined.

(** X2: for a block whose only line boundary is the line feed, the lines
    that [_dedent_lines] returns hold no line boundary, are each empty or
    hold a character other than space and tab, do not start and do not
    end with an empty line, and share no indentation: a run of spaces and
    tabs that starts every line that is not empty is the empty run. *)
Theorem dedent_lines_invariants (block : str) :
  DedentFacts.plain block ->
  let lines := _dedent_lines block in
  Forall no_linebreak lines /\
  Forall (fun l => l = [] \/ exists c, In c l /\ c <> SPACE /\ c <> TAB)
         lines /\
  (forall rest, lines <> [] :: rest) /\
  (forall rest, lines <> rest ++ [[]]) /\
  (forall m,
     lines <> [] ->
     forallb Textwrap.is_space_or_tab m = true ->
     Forall (fun l => l = [] \/ DedentFacts.prefix m l) lines ->
     m = []).
Proof.
  intros Hplain lines.
  destruct (NormalizeFacts.dedent_lines_settled block Hplain)
    as (Hbreak & Htidy & Htrim & Hmargin).
  fold lines in Hbreak, Htidy, Htrim, Hmargin.
  destruct (NormalizeFacts.trimmed_ends lines Htrim) as [Hhead Hlast].
  split; [assumption|]. split.
  { revert Htidy. apply Forall_impl. apply NormalizeFacts.tidy_inked. }
  split; [assumption|]. split; [assumption|].
  intros m Hne Hm Hall.
  apply (NormalizeFacts.no_common_indent lines m); try assumption.
  destruct lines as [|l rest]; [congruence|].
  exists l. split; [left; reflexivity|].
  intros ->. apply (Hhead rest). reflexivity.
Qed.

Lemma dedent_lines_invariants_witness :
  let lines := [lit "a"; []; lit "  b"] in
  Forall no_linebreak lines /\
  Forall (fun l => l = [] \/ exists c, In c l /\ c <> SPACE /\ c <> TAB)
         lines /\
  (forall rest, lines <> [] :: rest) /\
  (forall rest, lines <> rest ++ [[]]) /\
  (forall m,
     lines <> [] ->
     forallb Textwrap.is_space_or_tab m = true ->
     Forall (fun l => l = [] \/ DedentFacts.prefix m l) lines ->
     m = []).
Proof.
  apply (dedent_lines_invariants
           ([LF] ++ lit "  a" ++ [LF] ++ lit "   " ++ [LF] ++ lit "    b"
            ++ [LF] ++ lit " ")).
  vm_compute. repeat (apply Forall_cons || apply Forall_nil).
  all: intros E; try reflexivity; discriminate E.
Defined.

(** X3: for a block whose only line boundary is the line feed, joining the
    lines that [_dedent_lines] returns with line feeds and applying
    [_dedent_lines] again returns the same lines. *)
Theorem dedent_lines_round_trip (block : str) :
  DedentFacts.plain block ->
  _dedent_lines (join [LF] (_dedent_lines block)) = _dedent_lines block.
Proof.
  intros Hplain.
  pose proof (NormalizeFacts.dedent_lines_settled block Hplain) as Hs.
  destruct (_dedent_lines block) as [|l ls] eqn:E; [reflexivity|].
  assert (Hsplit : split LF (join [LF] (l :: ls)) = l :: ls).
  { apply split_join; [discriminate|].
    eapply Forall_impl; [apply no_linebreak_no_LF|]. apply Hs. }
  rewrite DedentFacts.dedent_lines_by_lines; rewrite Hsplit.
  - apply NormalizeFacts.lines_of_fixed. assumption.
  - apply Hs.
Qed.

Lemma dedent_lines_round_trip_witness :
  _dedent_lines (join [LF] (_dedent_lines
     ([LF] ++ lit "  a" ++ [LF] ++ lit "   " ++ [LF] ++ lit "    b")))
  = [lit "a"; []; lit "  b"].
Proof.
  rewrite (dedent_lines_round_trip
             ([LF] ++ lit "  a" ++ [LF] ++ lit "   " ++ [LF] ++ lit "    b")).
  - reflexivity.
  - vm_compute. repeat (apply Forall_cons || apply Forall_nil).
    all: intros E; try reflexivity; discriminate E.
Defined.

(** X4: a block that consists of spaces, tabs and line feeds has no lines,
    and [_normalize_frames] fails with [ValueError] on every list of such
    blocks. *)
Theorem blank_blocks_rejected (raw_frames : list str) :
  Forall (Forall (fun c => c = SPACE \/ c = TAB \/ c = LF)) raw_frames ->
  Forall (fun block => _dedent_lines block = []) raw_frames /\
  _normalize_frames raw_frames = Raise ValueError.
Proof.
  intros Hblank.
  assert (Hall : Forall (fun block => _dedent_lines block = []) raw_frames).
  { revert Hblank. apply Forall_impl.
    apply NormalizeFacts.blank_block_no_lines. }
  split; [assumption|].
  apply normalize_frames_error. apply concat_nil_iff.
  apply Forall_map. assumption.
Qed.

Lemma blank_blocks_rejected_witness :
  Forall (fun block => _dedent_lines block = [])
         [[LF] ++ lit "   " ++ [TAB; LF] ++ lit " "; []] /\
  _normalize_frames [[LF] ++ lit "   " ++ [TAB; LF] ++ lit " "; []]
  = Raise ValueError.
Proof.
  apply (blank_blocks_rejected [[LF] ++ lit "   " ++ [TAB; LF] ++ lit " "; []]).
  vm_compute. repeat (apply Forall_cons || apply Forall_nil); tauto.
Defined.

(** ** The animation loop *)

Module AnimateMore.

Import Animation.
Import AnimationFacts.

Section Rounds.

Variable World : Type.
Variable write_fn : str -> World -> outcome World.
Variable flush_fn : option (World -> outcome World).
Variable sleep_fn : float -> World -> outcome World.
Variable spinner : Spinner.t.

Hypothesis write_returns : returns1 write_fn.
Hypothesis flush_ok : flush_returns flush_fn.
Hypothesis sleep_returns : returns1 sleep_fn.
Hypothesis frames_not_empty : Spinner.frames spinner <> [].

(** Without a cap the loop is still running after any number of rounds. *)
Lemma loop_uncapped (fuel : nat) : forall (index : nat) (w : World),
  exists w',
    loop write_fn flush_fn sleep_fn spinner None fuel index w
    = (rounds_events flush_fn spinner index fuel, Running, w').
Proof.
  induction fuel as [|fuel IH]; intros index w.
  - exists w. reflexivity.
  - cbn [loop]. rewrite cycle_frame_at by assumption.
    destruct (body_returns World write_fn flush_fn sleep_fn spinner
                write_returns flush_ok sleep_returns (frame_at spinner index) w)
      as [w' ->].
    cbn [cap_reached]. destruct (IH (S index) w') as [w'' ->].
    exists w''. reflexivity.
Qed.

(** With a cap [n >= 1] the loop runs [n] rounds and ends. *)
Lemma loop_capped (n : Z) (fuel : nat) (w : World) :
  (1 <= n)%Z -> Z.to_nat n <= fuel ->
  exists w',
    loop write_fn flush_fn sleep_fn spinner (Some n) fuel 0 w
    = (rounds_events flush_fn spinner 0 (Z.to_nat n), Returned, w').
Proof.
  intros Hn Hfuel.
  destruct (loop_rounds World write_fn flush_fn sleep_fn spinner (Some n)
              write_returns flush_ok sleep_returns (Z.to_nat n - 1) 0 fuel w
              frames_not_empty) as [w' Hloop].
  - intros i Hi. unfold cap_reached.
    destruct (Z.geb_spec (Z.of_nat i + 1) n); [lia|reflexivity].
  - unfold cap_reached.
    destruct (Z.geb_spec (Z.of_nat (0 + (Z.to_nat n - 1)) + 1) n);
      [reflexivity|lia].
  - lia.
  - replace (S (Z.to_nat n - 1)) with (Z.to_nat n) in Hloop by lia.
    exists w'. exact Hloop.
Qed.

End Rounds.

(** The calls of [m] rounds from round 0 on, written out. *)
Definition expected_rounds {World : Type}
    (flush_fn : option (World -> outcome World)) (spinner : Spinner.t)
    (m : nat) : list event :=
  flat_map
    (fun i =>
       [Write (CLEAR_AND_HOME
               ++ nth (i mod length (Spinner.frames spinner))
                    (Spinner.frames spinner) []
               ++ [LF]);
        Write INSTRUCTION]
       ++ match flush_fn with
          | Some _ => [Flush]
          | None => []
          end
       ++ [Sleep (Spinner.delay spinner)])
    (seq 0 m).

Lemma expected_rounds_events {World : Type}
    (flush_fn : option (World -> outcome World)) (spinner : Spinner.t)
    (m : nat) :
  rounds_events flush_fn spinner 0 m = expected_rounds flush_fn spinner m.
Proof. reflexivity. Qed.



(** A recording writer and a sleep function that is interrupted when its
    count of calls left is 0. The world is the count and the buffer. *)
Definition counting_writer : writer (nat * list str) :=
  {| truthy := true;
     write_attr := Some (fun text w => Returns (fst w, snd w ++ [text]));
     flush_attr := Some (fun w => Returns w);
     call := fun _ w => Raises (OtherException 0) w |}.

Definition countdown_sleep : sleep_function (nat * list str) :=
  py_function
    (fun _ w =>
       match fst w with
       | O => Raises KeyboardInterrupt w
       | S n => Returns (n, snd w)
       end).

Definition frame_texts (spinner : Spinner.t) (index m : nat) : list str :=
  flat_map (fun i => [CLEAR_AND_HOME ++ frame_at spinner i ++ [LF];
                      INSTRUCTION]) (seq index m).

Lemma countdown_body_more (spinner : Spinner.t) (frame : str) (j : nat)
    (buffer : list str) :
  body (write_fn_of counting_writer) (flush_attr counting_writer)
    (sleep_call countdown_sleep) spinner frame (S j, buffer)
  = (round_events (flush_attr counting_writer) spinner frame,
     Returns (j, (buffer ++ [CLEAR_AND_HOME ++ frame ++ [LF]])
                 ++ [INSTRUCTION])).
Proof. reflexivity. Qed.

Lemma countdown_body_last (spinner : Spinner.t) (frame : str)
    (buffer : list str) :
  body (write_fn_of counting_writer) (flush_attr counting_writer)
    (sleep_call countdown_sleep) spinner frame (0, buffer)
  = (round_events (flush_attr counting_writer) spinner frame,
     Raises KeyboardInterrupt
       (0, (buffer ++ [CLEAR_AND_HOME ++ frame ++ [LF]])
           ++ [INSTRUCTION])).
Proof. reflexivity. Qed.

Lemma countdown_loop (spinner : Spinner.t) (iterations : option Z)
    (j : nat) : forall (index fuel : nat) (buffer : list str),
  Spinner.frames spinner <> [] ->
  (forall i, index <= i < index + j -> cap_reached iterations i = false) ->
  j < fuel ->
  loop (write_fn_of counting_writer) (flush_attr counting_writer)
    (sleep_call countdown_sleep) spinner iterations fuel index (j, buffer)
  = (rounds_events (flush_attr counting_writer) spinner index (S j),
     Raised KeyboardInterrupt,
     (0, buffer ++ frame_texts spinner index (S j))).
Proof.
  induction j as [|j IH]; intros index fuel buffer Hne Hcap Hfuel.
  - destruct fuel as [|fuel]; [lia|].
    cbn [loop]. rewrite cycle_frame_at by assumption.
    rewrite countdown_body_last.
    unfold frame_texts, rounds_events. cbn [seq flat_map].
    rewrite !app_nil_r, <- app_assoc. reflexivity.
  - destruct fuel as [|fuel]; [lia|].
    cbn [loop]. rewrite cycle_frame_at by assumption.
    rewrite countdown_body_more.
    rewrite (Hcap index) by lia.
    rewrite IH; [|assumption|intros i Hi; apply Hcap; lia|lia].
    unfold frame_texts, rounds_events. cbn [seq flat_map].
    rewrite <- !app_assoc. reflexivity.
Qed.

End AnimateMore.



(** X6: without a cap, for a Spinner with a frame and a writer and a sleep
    function whose calls return, [animate] never returns: after any number
    of rounds it is still running, and it has shown the frames in order,
    again and again. *)
Theorem animate_without_cap_runs_on (World : Type)
    (env : Animation.environment World) (spinner : Spinner.t)
    (writer_arg : option (Animation.writer World))
    (sleep_arg : option (Animation.sleep_function World))
    (_enabled : option bool) (w : World) :
  Spinner.frames spinner <> [] ->
  AnimationFacts.returns1
    (Animation.write_fn_of (Animation.choose_writer env writer_arg)) ->
  AnimationFacts.flush_returns
    (Animation.flush_attr (Animation.choose_writer env writer_arg)) ->
  AnimationFacts.returns1 (Animation.choose_sleep env sleep_arg) ->
  forall fuel,
    let r := Animation.animate env fuel spinner None writer_arg sleep_arg
               _enabled w in
    Animation.final r = Animation.Running /\
    Animation.trace r
    = AnimateMore.expected_rounds
        (Animation.flush_attr (Animation.choose_writer env writer_arg))
        spinner fuel.
Proof.
  intros Hne Hwrite Hflush Hsleep fuel.
  destruct (AnimateMore.loop_uncapped World _ _ _ spinner Hwrite Hflush
              Hsleep Hne fuel 0 w) as [w' Hloop].
  unfold Animation.animate, Animation.guarded. rewrite Hloop.
  split; reflexivity.
Qed.

Lemma animate_without_cap_runs_on_witness :
  let r := Animation.animate test_env 5 two_frames None
             (Some Animation.FakeWriter) (Some no_sleep) None [] in
  Animation.final r = Animation.Running /\
  Animation.trace r
  = AnimateMore.expected_rounds
      (Animation.flush_attr Animation.FakeWriter) two_frames 5.
Proof.
  apply (animate_without_cap_runs_on (list str) test_env two_frames
           (Some Animation.FakeWriter) (Some no_sleep) None []).
  - discriminate.
  - intros text buffer. eexists. reflexivity.
  - intros f Hf buffer. inversion Hf; subst. eexists. reflexivity.
  - intros seconds buffer. eexists. reflexivity.
Defined.

(** A sleep function that raises an exception other than the interrupt. *)
Definition failing_sleep : Animation.sleep_function (list str) :=
  Animation.py_function
    (fun _ buffer => Animation.Raises (OtherException 7) buffer).

(** X7: an exception other than [KeyboardInterrupt] that a call of the
    loop raises leaves [animate]: no goodbye message is written, the
    calls made are those of the loop, and [animate] raises that
    exception. *)
Theorem animate_propagates_other_exceptions (World : Type)
    (env : Animation.environment World) (fuel : nat) (spinner : Spinner.t)
    (iterations : option Z) (writer_arg : option (Animation.writer World))
    (sleep_arg : option (Animation.sleep_function World))
    (_enabled : option bool) (w w1 : World) (t : list Animation.event)
    (e : exn) :
  let writer := Animation.choose_writer env writer_arg in
  Animation.loop (Animation.write_fn_of writer) (Animation.flush_attr writer)
    (Animation.choose_sleep env sleep_arg) spinner iterations fuel 0 w
  = (t, Animation.Raised e, w1) ->
  e <> KeyboardInterrupt ->
  forall fuel', fuel <= fuel' ->
    let r := Animation.animate env fuel' spinner iterations writer_arg
               sleep_arg _enabled w in
    Animation.trace r = t /\
    Animation.final r = Animation.Raised e /\
    Animation.world r = w1.
Proof.
  intros writer Hloop He fuel' Hfuel.
  apply AnimationFacts.loop_fuel_mono with (fuel' := fuel') in Hloop;
    [|discriminate|assumption].
  unfold Animation.animate, Animation.guarded. fold writer.
  rewrite Hloop. destruct e; try congruence; repeat split.
Qed.

Lemma animate_propagates_other_exceptions_witness :
  let r := Animation.animate test_env 4 two_frames (Some 2%Z)
             (Some Animation.FakeWriter) (Some failing_sleep) None [] in
  Animation.trace r
  = [Animation.Write (CLEAR_AND_HOME ++ lit "/" ++ [LF]);
     Animation.Write Animation.INSTRUCTION; Animation.Flush;
     Animation.Sleep Spinner.default_delay] /\
  Animation.final r = Animation.Raised (OtherException 7) /\
  Animation.world r
  = [CLEAR_AND_HOME ++ lit "/" ++ [LF]; Animation.INSTRUCTION].
Proof.
  apply (animate_propagates_other_exceptions (list str) test_env 1
           two_frames (Some 2%Z) (Some Animation.FakeWriter)
           (Some failing_sleep) None []).
  - reflexivity.
  - discriminate.
  - lia.
Defined.

(** X8: when a call of the loop raises [KeyboardInterrupt] and the write
    of the goodbye message raises too, [animate] does not return: it
    raises the exception of that write. *)
Theorem animate_goodbye_can_fail (World : Type)
    (env : Animation.environment World) (fuel : nat) (spinner : Spinner.t)
    (iterations : option Z) (writer_arg : option (Animation.writer World))
    (sleep_arg : option (Animation.sleep_function World))
    (_enabled : option bool) (w w1 w2 : World) (t : list Animation.event)
    (e : exn) :
  let writer := Animation.choose_writer env writer_arg in
  Animation.loop (Animation.write_fn_of writer) (Animation.flush_attr writer)
    (Animation.choose_sleep env sleep_arg) spinner iterations fuel 0 w
  = (t, Animation.Raised KeyboardInterrupt, w1) ->
  Animation.write_fn_of writer Animation.GOODBYE w1
  = Animation.Raises e w2 ->
  forall fuel', fuel <= fuel' ->
    let r := Animation.animate env fuel' spinner iterations writer_arg
               sleep_arg _enabled w in
    Animation.trace r = t ++ [Animation.Write Animation.GOODBYE] /\
    Animation.final r = Animation.Raised e /\
    Animation.world r = w2.
Proof.
  intros writer Hloop Hbye fuel' Hfuel.
  apply AnimationFacts.loop_fuel_mono with (fuel' := fuel') in Hloop;
    [|discriminate|assumption].
  unfold Animation.animate, Animation.guarded. fold writer.
  rewrite Hloop, Hbye. repeat split.
Qed.

Lemma animate_goodbye_can_fail_witness :
  let r := Animation.animate test_env 2 two_frames None
             (Some interrupted_writer) (Some no_sleep) None [] in
  Animation.trace r
  = [Animation.Write (CLEAR_AND_HOME ++ lit "/" ++ [LF])]
    ++ [Animation.Write Animation.GOODBYE] /\
  Animation.final r = Animation.Raised KeyboardInterrupt /\
  Animation.world r = [].
Proof.
  apply (animate_goodbye_can_fail (list str) test_env 1 two_frames None
           (Some interrupted_writer) (Some no_sleep) None [] [] []).
  - reflexivity.
  - reflexivity.
  - lia.
Defined.

Module CountFacts.

Import Animation.

Lemma flat_map_map {A B C : Type} (f : A -> B) (g : B -> list C)
    (l : list A) :
  flat_map g (map f l) = flat_map (fun x => g (f x)) l.
Proof.
  induction l as [|x l IH]; [reflexivity|]. simpl. rewrite IH. reflexivity.
Qed.

Lemma frame_at_no_escape (spinner : Spinner.t) (i : nat) :
  Spinner.frames spinner <> [] ->
  Forall (no_char RecordingFacts.ESC_CHAR) (Spinner.frames spinner) ->
  no_char RecordingFacts.ESC_CHAR (AnimationFacts.frame_at spinner i).
Proof.
  intros Hne Hall. rewrite Forall_forall in Hall. apply Hall.
  unfold AnimationFacts.frame_at. apply nth_In.
  apply Nat.mod_upper_bound.
  destruct (Spinner.frames spinner); [congruence|discriminate].
Qed.

(** The escape character occurs in no frame: a test that computes. *)
Definition no_escape (frames : list str) : bool :=
  forallb (forallb (fun c => negb (N.eqb c RecordingFacts.ESC_CHAR))) frames.

Lemma no_escape_spec (frames : list str) :
  no_escape frames = true ->
  Forall (no_char RecordingFacts.ESC_CHAR) frames.
Proof.
  unfold no_escape. rewrite forallb_forall. intros H.
  apply Forall_forall. intros f Hf. specialize (H f Hf).
  rewrite forallb_forall in H. apply Forall_forall. intros c Hc.
  specialize (H c Hc). apply negb_true_iff in H. apply N.eqb_neq. exact H.
Qed.

(** The buffer of a [FakeWriter] after [m] rounds that nothing stops. *)
Lemma fake_writer_rounds (spinner : Spinner.t) (n : Z) (fuel : nat) :
  (1 <= n)%Z -> Spinner.frames spinner <> [] -> Z.to_nat n <= fuel ->
  loop (write_fn_of FakeWriter) (flush_attr FakeWriter)
    (sleep_call no_sleep) spinner (Some n) fuel 0 []
  = (AnimationFacts.rounds_events (flush_attr FakeWriter) spinner 0
       (Z.to_nat n),
     Returned,
     flat_map (fun frame => [CLEAR_AND_HOME ++ frame ++ [LF]; INSTRUCTION])
       (map (AnimationFacts.frame_at spinner) (seq 0 (Z.to_nat n)))).
Proof.
  intros Hn Hne Hfuel.
  destruct (AnimateMore.loop_capped (list str)
              (write_fn_of FakeWriter) (flush_attr FakeWriter)
              (sleep_call no_sleep) spinner)
    with (n := n) (fuel := fuel) (w := @nil str)
    as [w' Hloop]; try assumption.
  { intros text buffer. eexists. reflexivity. }
  { intros f Hf buffer. inversion Hf; subst. eexists. reflexivity. }
  { intros seconds buffer. eexists. reflexivity. }
  pose proof (RecordingFacts.fake_writer_loop spinner (Some n)
                (sleep_call no_sleep) fuel (fun _ _ => eq_refl) 0 [])
    as Hbuffer.
  rewrite Hloop in Hbuffer. cbn [fst snd app] in Hbuffer.
  rewrite AnimationFacts.rounds_events_written in Hbuffer.
  rewrite Hloop, Hbuffer, flat_map_map. reflexivity.
Qed.

End CountFacts.

(** X9: the test of [animate] for any cap. For a Spinner with a frame
    whose frames do not hold the escape character, after [animate] with a
    cap [n >= 1], a [FakeWriter] and a sleep function that does nothing,
    the joined output holds the clear-and-home sequence exactly [n]
    times, counted as [str.count] does, and the instruction line was
    written. *)
Theorem animate_output_count_is_cap (spinner : Spinner.t) (n : Z)
    (_enabled : option bool) :
  (1 <= n)%Z ->
  Spinner.frames spinner <> [] ->
  Forall (no_char RecordingFacts.ESC_CHAR) (Spinner.frames spinner) ->
  forall fuel, Z.to_nat n <= fuel ->
    let r := Animation.animate test_env fuel spinner (Some n)
               (Some Animation.FakeWriter) (Some no_sleep) _enabled [] in
    Animation.final r = Animation.Returned /\
    Str.count CLEAR_AND_HOME (Animation.joined (Animation.world r))
    = Z.to_nat n /\
    In Animation.INSTRUCTION (Animation.world r).
Proof.
  intros Hn Hne Hesc fuel Hfuel r.
  pose proof (CountFacts.fake_writer_rounds spinner n fuel Hn Hne Hfuel)
    as Hloop.
  assert (Hr : Animation.final r = Animation.Returned /\
               Animation.world r
               = flat_map (fun frame => [CLEAR_AND_HOME ++ frame ++ [LF];
                                         Animation.INSTRUCTION])
                   (map (AnimationFacts.frame_at spinner)
                      (seq 0 (Z.to_nat n)))).
  { unfold r, Animation.animate, Animation.guarded.
    cbn [Animation.choose_writer Animation.truthy Animation.FakeWriter].
    rewrite (AnimationFacts.choose_sleep_truthy _ test_env no_sleep eq_refl).
    rewrite Hloop. split; reflexivity. }
  destruct Hr as [Hfinal Hworld].
  split; [assumption|]. rewrite Hworld. split.
  - unfold Animation.joined. rewrite RecordingFacts.join_empty_sep.
    rewrite RecordingFacts.count_clear_rounds.
    + rewrite length_map, length_seq. reflexivity.
    + apply Forall_map. apply Forall_forall. intros i _.
      apply CountFacts.frame_at_no_escape; assumption.
  - destruct (Z.to_nat n) as [|m] eqn:E; [lia|].
    simpl. right. left. reflexivity.
Qed.

(** The test [test_animate_runs_requested_iterations]: the chip, three
    iterations. *)
Lemma animate_output_count_is_cap_witness :
  exists chip,
    chip_spinner = Ok chip /\
    let r := Animation.animate test_env 3 chip (Some 3%Z)
               (Some Animation.FakeWriter) (Some no_sleep) None [] in
    Animation.final r = Animation.Returned /\
    Str.count CLEAR_AND_HOME (Animation.joined (Animation.world r)) = 3 /\
    In Animation.INSTRUCTION (Animation.world r).
Proof.
  destruct chip_spinner as [chip|e] eqn:E; [|vm_compute in E; discriminate E].
  exists chip. split; [reflexivity|].
  assert (Hframes : CountFacts.no_escape (Spinner.frames chip) = true
                    /\ Spinner.frames chip <> []).
  { vm_compute in E. injection E as <-. split; [reflexivity|discriminate]. }
  apply (animate_output_count_is_cap chip 3 None).
  - lia.
  - apply Hframes.
  - apply CountFacts.no_escape_spec. apply Hframes.
  - simpl. lia.
Defined.

(** X10: an interrupt ends an animation that has no cap, or a cap above
    [j]. With a recording writer and a sleep function that returns [j]
    times and is interrupted by [KeyboardInterrupt] at the next call,
    [animate] returns normally; it has called the sleep function [j + 1]
    times, and the texts written are those of [j + 1] rounds followed by
    the goodbye message. *)
Theorem animate_runs_until_interrupt
    (env : Animation.environment (nat * list str)) (spinner : Spinner.t)
    (iterations : option Z) (j : nat) (_enabled : option bool) :
  Spinner.frames spinner <> [] ->
  (forall n, iterations = Some n -> (Z.of_nat j < n)%Z) ->
  forall fuel, j < fuel ->
    let r := Animation.animate env fuel spinner iterations
               (Some AnimateMore.counting_writer)
               (Some AnimateMore.countdown_sleep) _enabled (j, []) in
    Animation.final r = Animation.Returned /\
    AnimationFacts.sleeps (Animation.trace r) = S j /\
    Animation.world r
    = (0, AnimateMore.frame_texts spinner 0 (S j) ++ [Animation.GOODBYE]).
Proof.
  intros Hne Hcap fuel Hfuel r.
  assert (Hloop := AnimateMore.countdown_loop spinner iterations j 0 fuel
                     [] Hne).
  specialize (Hloop ltac:(intros i Hi; unfold Animation.cap_reached;
                          destruct iterations as [n|]; [|reflexivity];
                          specialize (Hcap n eq_refl);
                          destruct (Z.geb_spec (Z.of_nat i + 1) n);
                          [lia|reflexivity])
                    Hfuel).
  unfold r, Animation.animate, Animation.guarded.
  cbn [Animation.choose_writer Animation.truthy
       AnimateMore.counting_writer].
  rewrite (AnimationFacts.choose_sleep_truthy _ env
             AnimateMore.countdown_sleep eq_refl).
  rewrite Hloop.
  cbn [Animation.write_fn_of Animation.write_attr
       AnimateMore.counting_writer fst snd app Animation.trace
       Animation.final Animation.world].
  split; [reflexivity|]. split; [|reflexivity].
  rewrite AnimationFacts.sleeps_app, AnimationFacts.rounds_events_sleeps.
  unfold AnimationFacts.sleeps. simpl. lia.
Qed.

Lemma animate_runs_until_interrupt_witness :
  let env :=
    {| Animation.sys_stdout := AnimateMore.counting_writer;
       Animation.time_sleep :=
         Animation.sleep_call AnimateMore.countdown_sleep;
       Animation.os_name_is_nt := false;
       Animation.console := ConsoleRaises |} in
  let r := Animation.animate env 9 two_frames None
             (Some AnimateMore.counting_writer)
             (Some AnimateMore.countdown_sleep) None (2, []) in
  Animation.final r = Animation.Returned /\
  AnimationFacts.sleeps (Animation.trace r) = 3 /\
  Animation.world r
  = (0, AnimateMore.frame_texts two_frames 0 3 ++ [Animation.GOODBYE]).
Proof.
  intros env.
  apply (animate_runs_until_interrupt env two_frames None 2 None).
  - discriminate.
  - intros n Hn. discriminate Hn.
  - lia.
Defined.

(** ** The console mode *)

(** The attribute after a run of calls of
    [enable_virtual_terminal_processing], one console result per call. *)
Definition enabled_after (os_name_is_nt : bool)
    (results : list console_result) (_enabled : option bool) : option bool :=
  fold_left (fun flag result =>
               enable_virtual_terminal_processing os_name_is_nt result flag)
            results _enabled.

Lemma enabled_after_true (os_name_is_nt : bool)
    (results : list console_result) :
  enabled_after os_name_is_nt results (Some true) = Some true.
Proof.
  induction results as [|c results IH]; [reflexivity|].
  unfold enabled_after in *. simpl.
  destruct os_name_is_nt; simpl; exact IH.
Qed.

(** X11: over any run of calls of [enable_virtual_terminal_processing],
    the cached attribute is [True] at the end exactly when it was [True]
    at the start or the system is Windows and some call set the console
    mode; on another system the attribute never changes. A failed attempt,
    also one that stored [False], is tried again by the next call. *)
Theorem vt_enabled_iff_some_success (os_name_is_nt : bool)
    (results : list console_result) (_enabled : option bool) :
  (enabled_after os_name_is_nt results _enabled = Some true <->
   _enabled = Some true \/
   (os_name_is_nt = true /\ In ConsoleModeSet results)) /\
  (os_name_is_nt = false ->
   enabled_after os_name_is_nt results _enabled = _enabled).
Proof.
  split.
  - revert _enabled. induction results as [|c results IH]; intros flag.
    + simpl. split; [tauto|]. intros [H|[_ []]]. exact H.
    + change (enabled_after os_name_is_nt (c :: results) flag)
        with (enabled_after os_name_is_nt results
                (enable_virtual_terminal_processing os_name_is_nt c flag)).
      rewrite IH. unfold enable_virtual_terminal_processing.
      destruct os_name_is_nt; simpl.
      * destruct flag as [[|]|]; destruct c; simpl;
          intuition (try discriminate; try congruence; auto).
      * intuition discriminate.
  - intros ->. revert _enabled.
    induction results as [|c results IH]; intros flag; [reflexivity|].
    apply IH.
Qed.

Lemma vt_enabled_iff_some_success_witness :
  enabled_after true
    [ConsoleRaises; GetConsoleModeFails; ConsoleModeSet; ConsoleRaises] None
  = Some true /\
  enabled_after false [ConsoleModeSet] (Some false) = Some false.
Proof.
  split.
  - apply (proj1 (vt_enabled_iff_some_success true
             [ConsoleRaises; GetConsoleModeFails; ConsoleModeSet;
              ConsoleRaises] None)).
    right. split; [reflexivity|]. right. right. left. reflexivity.
  - apply (proj2 (vt_enabled_iff_some_success false [ConsoleModeSet]
                    (Some false))).
    reflexivity.
Defined.

(** X12: the console mode that is set, for a mode that fits a [DWORD]:
    it fits a [DWORD] too, has the bit of [ENABLE_VT_FLAG] (bit 2) set and
    every other bit as in the mode read, and setting it again changes
    nothing. *)
Theorem new_console_mode_bits (mode : Z) :
  (0 <= mode < 2 ^ 32)%Z ->
  (0 <= new_console_mode mode < 2 ^ 32)%Z /\
  Z.testbit (new_console_mode mode) 2 = true /\
  (forall i, i <> 2%Z ->
     Z.testbit (new_console_mode mode) i = Z.testbit mode i) /\
  new_console_mode (new_console_mode mode) = new_console_mode mode.
Proof.
  intros [Hlo Hhi]. unfold new_console_mode, ENABLE_VT_FLAG.
  split; [|split; [|split]].
  - split; [apply Z.lor_nonneg; lia|].
    destruct (Z.eq_dec (Z.lor mode 4) 0) as [E|Hne]; [rewrite E; lia|].
    assert (Hpos : (0 < Z.lor mode 4)%Z).
    { assert (0 <= Z.lor mode 4)%Z by (apply Z.lor_nonneg; lia). lia. }
    apply Z.log2_lt_pow2; [assumption|].
    rewrite Z.log2_lor by lia.
    destruct (Z.eq_dec mode 0) as [->|Hm]; [simpl; lia|].
    assert (Z.log2 mode < 32)%Z by (apply Z.log2_lt_pow2; lia).
    change (Z.log2 4) with 2%Z. lia.
  - rewrite Z.lor_spec. change (Z.testbit 4 2) with true.
    apply orb_true_r.
  - intros i Hi. rewrite Z.lor_spec.
    replace (Z.testbit 4 i) with false; [apply orb_false_r|].
    symmetry. change 4%Z with (2 ^ 2)%Z.
    destruct (Z.lt_ge_cases i 0) as [Hneg|Hpos].
    + apply Z.testbit_neg_r. assumption.
    + apply Z.pow2_bits_false. congruence.
  - rewrite <- Z.lor_assoc. reflexivity.
Qed.

Lemma new_console_mode_bits_witness :
  (0 <= new_console_mode 3 < 2 ^ 32)%Z /\
  Z.testbit (new_console_mode 3) 2 = true /\
  (forall i, i <> 2%Z ->
     Z.testbit (new_console_mode 3) i = Z.testbit 3 i) /\
  new_console_mode (new_console_mode 3) = new_console_mode 3.
Proof. apply (new_console_mode_bits 3). lia. Defined.

(** ** PhraseGenerator *)

Module PhraseMore.

Import PhraseGenerator.
Import PhraseGeneratorFacts.

Lemma getitem_Z_in_range {A : Type} (xs : list A) (i : Z) :
  (0 <= i < Z.of_nat (length xs))%Z ->
  exists x, In x xs /\ getitem xs i = Ok x.
Proof.
  intros Hi.
  destruct (getitem_in_range xs (Z.to_nat i)) as (x & Hnth & Hget); [lia|].
  exists x. split; [eapply nth_error_In; eassumption|].
  rewrite Z2Nat.id in Hget by lia. assumption.
Qed.

End PhraseMore.

(** X13: a PhraseGenerator with an intro and a claim does not raise in
    [next] for any counter, also a negative one, whose successor is
    within the limit of digits that [str] formats: the indices are in
    range by the floor division and modulo of Python, and the call
    returns the text of an intro of the list, a claim of the list and the
    counter plus one, and stores the counter plus one. *)
Theorem phrase_generator_next_total (self : PhraseGenerator.t) :
  PhraseGenerator.intros self <> [] ->
  PhraseGenerator.claims self <> [] ->
  formattable (PhraseGenerator.counter self + 1) ->
  exists intro claim,
    In intro (PhraseGenerator.intros self) /\
    In claim (PhraseGenerator.claims self) /\
    PhraseGenerator.__next__ self
    = Ok (PhraseGenerator.phrase intro claim (PhraseGenerator.tag self)
            (PhraseGenerator.counter self + 1),
          PhraseGeneratorFacts.with_counter self
            (PhraseGenerator.counter self + 1)).
Proof.
  intros Hi Hc _.
  apply PhraseGeneratorFacts.length_nonzero in Hi.
  apply PhraseGeneratorFacts.length_nonzero in Hc.
  set (I := Z.of_nat (length (PhraseGenerator.intros self))).
  set (C := Z.of_nat (length (PhraseGenerator.claims self))).
  set (c := PhraseGenerator.counter self).
  destruct (PhraseMore.getitem_Z_in_range (PhraseGenerator.intros self)
              (c mod I)) as (intro & Hintro & Gintro).
  { apply Z.mod_pos_bound. unfold I. lia. }
  destruct (PhraseMore.getitem_Z_in_range (PhraseGenerator.claims self)
              ((c / I) mod C)) as (claim & Hclaim & Gclaim).
  { apply Z.mod_pos_bound. unfold C. lia. }
  exists intro, claim. split; [assumption|]. split; [assumption|].
  unfold PhraseGenerator.__next__, py_mod, py_floordiv.
  fold I C c.
  destruct (Z.eqb_spec I 0) as [E|_]; [unfold I in E; lia|].
  destruct (Z.eqb_spec C 0) as [E|_]; [unfold C in E; lia|].
  cbn [bind]. rewrite Gintro. cbn [bind]. rewrite Gclaim. reflexivity.
Qed.

Lemma phrase_generator_next_total_witness :
  exists intro claim,
    In intro [lit "a"; lit "b"] /\
    In claim [lit "c"; lit "d"] /\
    PhraseGenerator.__next__
      {| PhraseGenerator.intros := [lit "a"; lit "b"];
         PhraseGenerator.claims := [lit "c"; lit "d"];
         PhraseGenerator.tag := lit "tag";
         PhraseGenerator.counter := (-3)%Z |}
    = Ok (PhraseGenerator.phrase intro claim (lit "tag") (-3 + 1),
          PhraseGeneratorFacts.with_counter
            {| PhraseGenerator.intros := [lit "a"; lit "b"];
               PhraseGenerator.claims := [lit "c"; lit "d"];
               PhraseGenerator.tag := lit "tag";
               PhraseGenerator.counter := (-3)%Z |} (-3 + 1)).
Proof.
  apply (phrase_generator_next_total
           {| PhraseGenerator.intros := [lit "a"; lit "b"];
              PhraseGenerator.claims := [lit "c"; lit "d"];
              PhraseGenerator.tag := lit "tag";
              PhraseGenerator.counter := (-3)%Z |}).
  - discriminate.
  - discriminate.
  - unfold formattable. vm_compute. reflexivity.
Defined.

(** X14: a PhraseGenerator made from non-empty [intros] and [claims] uses
    every pair of an intro and a claim within its first
    [len(intros) * len(claims)] productions: production number
    [j * len(intros) + i + 1] is made of [intros[i]] and [claims[j]]. The
    pairs then come again in the same order: the productions number
    [k + 1] and [k + 1 + len(intros) * len(claims)] use the same intro and
    the same claim. *)
Theorem phrase_generator_covers_pairs (intros claims : list str)
    (tag : str) :
  intros <> [] -> claims <> [] ->
  exists self,
    PhraseGenerator.__init__ intros claims tag = Ok self /\
    (forall i j intro claim,
       nth_error intros i = Some intro ->
       nth_error claims j = Some claim ->
       exists outs self',
         PhraseGenerator.productions (length intros * length claims) self
         = Ok (outs, self') /\
         nth_error outs (j * length intros + i)
         = Some (PhraseGenerator.phrase intro claim tag
                   (Z.of_nat (j * length intros + i + 1)))) /\
    (forall k,
       let period := length intros * length claims in
       exists outs self' intro claim,
         PhraseGenerator.productions (k + period + 1) self
         = Ok (outs, self') /\
         nth_error outs k
         = Some (PhraseGenerator.phrase intro claim tag (Z.of_nat (k + 1))) /\
         nth_error outs (k + period)
         = Some (PhraseGenerator.phrase intro claim tag
                   (Z.of_nat (k + period + 1)))).
Proof.
  intros Hi Hc.
  destruct (PhraseGeneratorFacts.init_productions intros claims tag Hi Hc)
    as (self & Hinit & _ & Hprod).
  exists self. split; [assumption|].
  pose proof (PhraseGeneratorFacts.length_nonzero intros Hi) as HI.
  pose proof (PhraseGeneratorFacts.length_nonzero claims Hc) as HC.
  split.
  - intros i j intro claim Hintro Hclaim.
    assert (Hlti : i < length intros)
      by (apply nth_error_Some; rewrite Hintro; discriminate).
    assert (Hltj : j < length claims)
      by (apply nth_error_Some; rewrite Hclaim; discriminate).
    destruct (Hprod (length intros * length claims))
      as (outs & Hp & _ & Hnth).
    exists outs. eexists. split; [exact Hp|].
    destruct (Hnth (j * length intros + i)) as (a & b & Ha & Hb & Hout).
    { nia. }
    rewrite (Nat.add_comm (j * length intros) i) in Ha.
    rewrite Nat.Div0.mod_add, Nat.mod_small in Ha by assumption.
    rewrite Nat.div_add_l, Nat.div_small, Nat.add_0_r, Nat.mod_small in Hb
      by assumption.
    rewrite Hout. congruence.
  - intros k period.
    destruct (Hprod (k + period + 1)) as (outs & Hp & _ & Hnth).
    destruct (Hnth k) as (a & b & Ha & Hb & Hout);
      [generalize period; intros; lia|].
    destruct (Hnth (k + period)) as (a' & b' & Ha' & Hb' & Hout');
      [generalize period; intros; lia|].
    exists outs. eexists. exists a, b. split; [exact Hp|].
    split; [assumption|].
    assert (Ea : (k + period) mod length intros = k mod length intros).
    { unfold period. rewrite (Nat.mul_comm (length intros)).
      apply Nat.Div0.mod_add. }
    assert (Eb : ((k + period) / length intros) mod length claims
                 = (k / length intros) mod length claims).
    { unfold period. rewrite (Nat.mul_comm (length intros)).
      rewrite Nat.div_add by assumption.
      replace (k / length intros + length claims)
        with (k / length intros + 1 * length claims) by lia.
      apply Nat.Div0.mod_add. }
    rewrite Ea in Ha'. rewrite Eb in Hb'. rewrite Hout'. congruence.
Qed.

Lemma phrase_generator_covers_pairs_witness :
  exists self,
    PhraseGenerator.__init__ [lit "a"; lit "b"] [lit "c"; lit "d"] (lit "tag")
    = Ok self /\
    exists outs self',
      PhraseGenerator.productions 4 self = Ok (outs, self') /\
      nth_error outs 3 = Some (lit "b d (tag #4)").
Proof.
  destruct (phrase_generator_covers_pairs
              [lit "a"; lit "b"] [lit "c"; lit "d"] (lit "tag"))
    as (self & Hinit & Hpairs & _); [discriminate|discriminate|].
  exists self. split; [exact Hinit|].
  exact (Hpairs 1 1 (lit "b") (lit "d") eq_refl eq_refl).
Defined.

(** ** prompt_choice *)

Module PromptFacts.

Import Animation.
Import Prompt.

(** The exception of [input] at the end of the input. *)
Definition EOFError : exn := OtherException 2.

(** A console for the tests of [prompt_choice]: the world is the list of
    the lines that will be typed and the list of the texts written. *)
Definition console : Type := (list str * list str)%type.

Definition typed_input : str -> console -> answer console :=
  fun _ w =>
    match fst w with
    | [] => Fails EOFError w
    | line :: rest => Answers line (rest, snd w)
    end.

Definition console_env : environment console :=
  {| sys_stdout :=
       {| truthy := true;
          write_attr := Some (fun text w => Returns (fst w, snd w ++ [text]));
          flush_attr := Some (fun w => Returns w);
          call := fun _ w => Raises (OtherException 0) w |};
     time_sleep := fun _ w => Returns w;
     os_name_is_nt := false;
     Animation.console := ConsoleRaises |}.

(** The calls and the output of one rejected line. *)
Definition rejected (bad : list str) : list event :=
  flat_map (fun _ => [Ask PROMPT; Out (Write HINT); Out (Write [LF])]) bad.

Definition hints (bad : list str) : list str :=
  flat_map (fun _ => [HINT; [LF]]) bad.

Lemma prompt_rejects (lower_full : str -> char -> str -> str)
    (bad : list str) :
  Forall (fun line => parse_choice lower_full line = Raise ValueError) bad ->
  forall fuel rest printed,
    prompt_choice lower_full console_env typed_input (length bad + fuel)
      (bad ++ rest, printed)
    = (let '(t, s, w) :=
         prompt_choice lower_full console_env typed_input fuel
           (rest, printed ++ hints bad) in
       (rejected bad ++ t, s, w)).
Proof.
  induction 1 as [|line bad Hline Hbad IH]; intros fuel rest printed.
  - cbn [length Nat.add app hints rejected flat_map]. rewrite app_nil_r.
    destruct (prompt_choice lower_full console_env typed_input fuel
                (rest, printed)) as [[t s] w].
    reflexivity.
  - cbn [length Nat.add app prompt_choice].
    unfold typed_input at 1. cbn [fst snd]. rewrite Hline.
    unfold print, then_. cbn [write_attr sys_stdout console_env fst snd].
    rewrite IH.
    unfold hints, rejected. cbn [flat_map app map].
    rewrite <- !app_assoc. cbn [app].
    destruct (prompt_choice lower_full console_env typed_input fuel
                (rest, printed ++ HINT :: [LF] :: hints bad))
      as [[t s] w] eqn:E.
    unfold hints in E. rewrite E. reflexivity.
Qed.

(** What [parse_choice] returns when it returns. *)
Lemma parse_choice_values (lower_full : str -> char -> str -> str)
    (value choice : str) :
  parse_choice lower_full value = Ok choice ->
  choice = lit "chip" \/ choice = lit "cockroach".
Proof.
  unfold parse_choice.
  destruct (mem _ [lit "chip"; lit "c"]).
  - intros E. injection E as <-. left. reflexivity.
  - destruct (mem _ [lit "cockroach"; lit "roach"; lit "r"]).
    + intros E. injection E as <-. right. reflexivity.
    + discriminate.
Qed.

End PromptFacts.

(** X15: [prompt_choice] asks until a line is a valid choice. When the
    lines typed are some lines that [parse_choice] rejects followed by one
    that it accepts, [prompt_choice] returns the choice of that line; it
    has asked once per line up to it, has printed the hint once per
    rejected line and nothing else, and has not read the lines after
    it. *)
Theorem prompt_choice_returns_first_valid
    (lower_full : str -> char -> str -> str)
    (bad : list str) (good : str) (rest printed : list str) (choice : str) :
  Forall (fun line => parse_choice lower_full line = Raise ValueError) bad ->
  parse_choice lower_full good = Ok choice ->
  forall fuel, length bad < fuel ->
    Prompt.prompt_choice lower_full PromptFacts.console_env
      PromptFacts.typed_input fuel (bad ++ good :: rest, printed)
    = (PromptFacts.rejected bad ++ [Prompt.Ask Prompt.PROMPT],
       Prompt.Chosen choice,
       (rest, printed ++ PromptFacts.hints bad)).
Proof.
  intros Hbad Hgood fuel Hfuel.
  replace fuel with (length bad + S (fuel - length bad - 1)) by lia.
  rewrite PromptFacts.prompt_rejects by assumption.
  cbn [Prompt.prompt_choice]. unfold PromptFacts.typed_input.
  cbn [fst snd]. rewrite Hgood. reflexivity.
Qed.

Lemma prompt_choice_returns_first_valid_witness :
  Prompt.prompt_choice sample_lower_full PromptFacts.console_env
    PromptFacts.typed_input 5
    ([lit "invalid"; lit ""] ++ lit " Roach" :: [lit "chip"], [])
  = (PromptFacts.rejected [lit "invalid"; lit ""]
     ++ [Prompt.Ask Prompt.PROMPT],
     Prompt.Chosen (lit "cockroach"),
     ([lit "chip"], [] ++ PromptFacts.hints [lit "invalid"; lit ""])).
Proof.
  apply (prompt_choice_returns_first_valid sample_lower_full
           [lit "invalid"; lit ""] (lit " Roach") [lit "chip"] []
           (lit "cockroach")).
  - repeat constructor.
  - reflexivity.
  - simpl. lia.
Defined.

(** X16: when the input ends before a valid choice was typed,
    [prompt_choice] does not return: after the hint for every rejected
    line, the exception of the input function leaves it. *)
Theorem prompt_choice_end_of_input
    (lower_full : str -> char -> str -> str)
    (bad printed : list str) :
  Forall (fun line => parse_choice lower_full line = Raise ValueError) bad ->
  forall fuel, length bad < fuel ->
    Prompt.prompt_choice lower_full PromptFacts.console_env
      PromptFacts.typed_input fuel (bad, printed)
    = (PromptFacts.rejected bad ++ [Prompt.Ask Prompt.PROMPT],
       Prompt.Raised PromptFacts.EOFError,
       ([], printed ++ PromptFacts.hints bad)).
Proof.
  intros Hbad fuel Hfuel.
  replace fuel with (length bad + S (fuel - length bad - 1)) by lia.
  assert (E : (bad, printed) = (bad ++ [], printed))
    by (rewrite app_nil_r; reflexivity).
  rewrite E. rewrite PromptFacts.prompt_rejects by assumption.
  reflexivity.
Qed.

Lemma prompt_choice_end_of_input_witness :
  Prompt.prompt_choice sample_lower_full PromptFacts.console_env
    PromptFacts.typed_input 3 ([lit "potato"], [])
  = (PromptFacts.rejected [lit "potato"] ++ [Prompt.Ask Prompt.PROMPT],
     Prompt.Raised PromptFacts.EOFError,
     ([], [] ++ PromptFacts.hints [lit "potato"])).
Proof.
  apply (prompt_choice_end_of_input sample_lower_full [lit "potato"] []).
  - repeat constructor.
  - simpl. lia.
Defined.

(** X17: whatever the input function and the output do, a value that
    [prompt_choice] returns is [chip] or [cockroach], and the last call
    before it returned was a call of the input function. *)
Theorem prompt_choice_returns_canonical (World : Type)
    (lower_full : str -> char -> str -> str)
    (env : Animation.environment World)
    (input_fn : str -> World -> Prompt.answer World) (fuel : nat) :
  forall (w w' : World) (t : list Prompt.event) (choice : str),
    Prompt.prompt_choice lower_full env input_fn fuel w
    = (t, Prompt.Chosen choice, w') ->
    (choice = lit "chip" \/ choice = lit "cockroach") /\
    exists t0, t = t0 ++ [Prompt.Ask Prompt.PROMPT].
Proof.
  induction fuel as [|fuel IH]; intros w w' t choice H.
  - discriminate H.
  - cbn [Prompt.prompt_choice] in H.
    destruct (input_fn Prompt.PROMPT w) as [line w1|e w1];
      [|discriminate H].
    destruct (parse_choice lower_full line) as [value|e] eqn:Hparse.
    + inversion H; subst. split.
      * eapply PromptFacts.parse_choice_values. eassumption.
      * exists []. reflexivity.
    + destruct e; try discriminate H.
      destruct (print env Prompt.HINT w1) as [t1 [w2|e w2]];
        [|discriminate H].
      destruct (Prompt.prompt_choice lower_full env input_fn fuel w2)
        as [[t2 s2] w3] eqn:Hrest.
      inversion H; subst.
      destruct (IH _ _ _ _ Hrest) as [Hc [t0 ->]].
      split; [assumption|].
      exists (Prompt.Ask Prompt.PROMPT :: map (@Prompt.Out) t1 ++ t0).
      simpl. rewrite <- app_assoc. reflexivity.
Qed.

Lemma prompt_choice_returns_canonical_witness :
  (lit "chip" = lit "chip" \/ lit "chip" = lit "cockroach") /\
  exists t0,
    [Prompt.Ask Prompt.PROMPT] = t0 ++ [Prompt.Ask Prompt.PROMPT].
Proof.
  apply (prompt_choice_returns_canonical PromptFacts.console
           sample_lower_full PromptFacts.console_env
           PromptFacts.typed_input 2 ([lit "C"], []) ([], [])
           [Prompt.Ask Prompt.PROMPT] (lit "chip")).
  reflexivity.
Defined.

(** ** The figures and the debate *)

Module DebateFacts.

Import Animation.
Import Debate.

(** The frames of a figure as the tests measure them: the number of lines
    and the length of each line. *)
Definition same_size (height width : nat) (frames : list str) : bool :=
  forallb (fun frame =>
             Nat.eqb (length (splitlines frame)) height
             && forallb (fun line => Nat.eqb (length line) width)
                        (splitlines frame))
          frames.

Lemma same_size_spec (height width : nat) (frames : list str) :
  same_size height width frames = true ->
  Forall (fun frame =>
            length (splitlines frame) = height /\
            Forall (fun line => length line = width) (splitlines frame))
         frames.
Proof.
  unfold same_size. rewrite forallb_forall. intros H.
  apply Forall_forall. intros f Hf. specialize (H f Hf).
  apply andb_true_iff in H. destruct H as [H1 H2].
  apply Nat.eqb_eq in H1. split; [assumption|].
  rewrite forallb_forall in H2. apply Forall_forall. intros l Hl.
  apply Nat.eqb_eq. apply H2. assumption.
Qed.

(** Both figures are constructed. *)
Lemma spinners_constructed :
  exists chip roach,
    chip_spinner = Ok chip /\ cockroach_spinner = Ok roach /\
    length (Spinner.frames chip) = 4 /\
    length (Spinner.frames roach) = 4 /\
    same_size 10 26 (Spinner.frames chip) = true /\
    same_size 12 34 (Spinner.frames roach) = true /\
    Spinner.delay chip = Spinner.default_delay /\
    Spinner.delay roach = Spinner.default_delay.
Proof.
  destruct chip_spinner as [chip|e] eqn:Ec; [|vm_compute in Ec; discriminate].
  destruct cockroach_spinner as [roach|e] eqn:Er;
    [|vm_compute in Er; discriminate].
  exists chip, roach. split; [reflexivity|]. split; [reflexivity|].
  vm_compute in Ec. injection Ec as <-.
  vm_compute in Er. injection Er as <-.
  repeat split; vm_compute; reflexivity.
Qed.

Section Steps.

Variable World : Type.
Variable env : environment World.

Lemma and_then_not_returned (a b : step World) (st : state World) :
  (forall st', snd (fst (b st')) <> Returned) ->
  snd (fst (and_then a b st)) <> Returned.
Proof.
  intros Hb. unfold and_then.
  destruct (a st) as [[t s] st'].
  destruct s as [|e|].
  - specialize (Hb st'). destruct (b st') as [[t' s'] st''].
    exact Hb.
  - discriminate.
  - discriminate.
Qed.

Lemma forever_not_returned (fuel inner : nat) (chip roach : Spinner.t)
    (st : state World) :
  snd (fst (forever env fuel inner chip roach st)) <> Returned.
Proof.
  revert st. induction fuel as [|fuel IH]; intros st.
  - discriminate.
  - cbn [forever]. apply and_then_not_returned. exact IH.
Qed.

(** The calls of [print(text)]. *)
Definition printed (text : str) : list event := [Write text; Write [LF]].

Variable write : str -> World -> outcome World.
Hypothesis stdout_write : write_attr (sys_stdout env) = Some write.
Hypothesis write_returns : AnimationFacts.returns1 write.
Hypothesis flush_ok :
  AnimationFacts.flush_returns (flush_attr (sys_stdout env)).

Lemma print_returns (text : str) (w : World) :
  exists w', print env text w = (printed text, Returns w').
Proof.
  unfold print, then_. rewrite stdout_write.
  destruct (write_returns text w) as [w1 ->].
  destruct (write_returns [LF] w1) as [w2 ->].
  exists w2. reflexivity.
Qed.

Lemma lift_print (text : str) (st : state World) :
  exists w',
    lift (print env text) st = (printed text, Returned, with_world st w').
Proof.
  unfold lift. destruct (print_returns text (world st)) as [w' ->].
  exists w'. reflexivity.
Qed.

Lemma write_fn_of_stdout : write_fn_of (sys_stdout env) = write.
Proof. unfold write_fn_of. rewrite stdout_write. reflexivity. Qed.

(** The generators of a state, at the count [c] of rounds done. *)
Definition at_round (g1 g2 : PhraseGenerator.t) (c : nat)
    (st : state World) : Prop :=
  pro_claude st = PhraseGeneratorFacts.with_counter g1 (Z.of_nat c) /\
  pro_chatgpt st = PhraseGeneratorFacts.with_counter g2 (Z.of_nat c).

(** What a generator says in round [c]. *)
Definition said (g : PhraseGenerator.t) (c : nat) : str :=
  PhraseGenerator.phrase
    (nth (c mod length (PhraseGenerator.intros g))
       (PhraseGenerator.intros g) [])
    (nth ((c / length (PhraseGenerator.intros g))
          mod length (PhraseGenerator.claims g))
       (PhraseGenerator.claims g) [])
    (PhraseGenerator.tag g) (Z.of_nat (c + 1)).

Lemma next_said (g : PhraseGenerator.t) (c : nat) :
  PhraseGenerator.intros g <> [] -> PhraseGenerator.claims g <> [] ->
  PhraseGenerator.__next__
    (PhraseGeneratorFacts.with_counter g (Z.of_nat c))
  = Ok (said g c, PhraseGeneratorFacts.with_counter g (Z.of_nat (S c))).
Proof.
  intros Hi Hc.
  destruct (PhraseGeneratorFacts.next_at
              (PhraseGeneratorFacts.with_counter g (Z.of_nat c)) c Hi Hc
              eq_refl)
    as (intro & claim & Hintro & Hclaim & Hnext).
  rewrite Hnext. unfold said.
  cbn [PhraseGeneratorFacts.with_counter PhraseGenerator.intros
       PhraseGenerator.claims PhraseGenerator.tag] in *.
  rewrite (nth_error_nth _ _ [] Hintro), (nth_error_nth _ _ [] Hclaim).
  replace (c + 1) with (S c) by lia. reflexivity.
Qed.

(** The generators as [run_debate] constructs them. *)
Definition claude0 : PhraseGenerator.t :=
  {| PhraseGenerator.intros := pro_claude_intros;
     PhraseGenerator.claims := pro_claude_claims;
     PhraseGenerator.tag := lit "claude-support";
     PhraseGenerator.counter := 0 |}.

Definition chatgpt0 : PhraseGenerator.t :=
  {| PhraseGenerator.intros := pro_chatgpt_intros;
     PhraseGenerator.claims := pro_chatgpt_claims;
     PhraseGenerator.tag := lit "chatgpt-defense";
     PhraseGenerator.counter := 0 |}.


Lemma say_chip_returns (c : nat) (st : state World) :
  at_round claude0 chatgpt0 c st ->
  exists st',
    say_chip env st = (printed (lit "Chip: " ++ said claude0 c), Returned, st')
    /\ pro_claude st'
       = PhraseGeneratorFacts.with_counter claude0 (Z.of_nat (S c))
    /\ pro_chatgpt st' = pro_chatgpt st.
Proof.
  intros [H1 H2]. unfold say_chip. rewrite H1.
  rewrite next_said by discriminate.
  match goal with
  | |- context [lift ?a ?st0] =>
      destruct (lift_print (lit "Chip: " ++ said claude0 c) st0) as [w' ->]
  end.
  eexists. split; [reflexivity|]. split; reflexivity.
Qed.


Hypothesis sleep_returns : AnimationFacts.returns1 (time_sleep env).





End Steps.

Section Interrupted.

Variable World : Type.
Variable env : environment World.
Variable write : str -> World -> outcome World.
Hypothesis stdout_write : write_attr (sys_stdout env) = Some write.
Hypothesis write_returns : AnimationFacts.returns1 write.
Hypothesis flush_ok :
  AnimationFacts.flush_returns (flush_attr (sys_stdout env)).
Hypothesis sleep_interrupted :
  forall seconds w,
    exists w', time_sleep env seconds w = Raises KeyboardInterrupt w'.

(** The calls of an animation that the first sleep interrupts. *)
Definition interrupted_calls (spinner : Spinner.t) : list event :=
  [Write (CLEAR_AND_HOME ++ nth 0 (Spinner.frames spinner) [] ++ [LF]);
   Write INSTRUCTION]
  ++ match flush_attr (sys_stdout env) with
     | Some _ => [Flush]
     | None => []
     end
  ++ [Sleep (Spinner.delay spinner); Write GOODBYE].

Lemma animate_all_interrupted (inner : nat) (spinner : Spinner.t)
    (st : state World) :
  Spinner.frames spinner <> [] -> 1 <= inner ->
  exists st',
    animate_all env inner spinner st
    = (interrupted_calls spinner, Returned, st')
    /\ pro_claude st' = pro_claude st /\ pro_chatgpt st' = pro_chatgpt st.
Proof.
  intros Hne Hinner. destruct inner as [|inner]; [lia|].
  unfold animate_all, animate, guarded.
  cbn [choose_writer choose_sleep loop].
  rewrite AnimationFacts.cycle_frame_at by assumption.
  rewrite (write_fn_of_stdout World env write stdout_write).
  unfold body, then_, skip, interrupted_calls.
  replace (AnimationFacts.frame_at spinner 0)
    with (nth 0 (Spinner.frames spinner) []).
  2:{ unfold AnimationFacts.frame_at. rewrite Nat.Div0.mod_0_l.
      reflexivity. }
  destruct (write_returns (CLEAR_AND_HOME
                           ++ nth 0 (Spinner.frames spinner) [] ++ [LF])
              (world st)) as [w1 ->].
  destruct (write_returns INSTRUCTION w1) as [w2 ->].
  unfold AnimationFacts.flush_returns in flush_ok.
  destruct (flush_attr (sys_stdout env)) as [f|].
  - destruct (flush_ok f eq_refl w2) as [w3 ->].
    destruct (sleep_interrupted (Spinner.delay spinner) w3) as [w4 ->].
    destruct (write_returns GOODBYE w4) as [w5 ->].
    eexists. split; [reflexivity|]. split; reflexivity.
  - destruct (sleep_interrupted (Spinner.delay spinner) w2) as [w3 ->].
    destruct (write_returns GOODBYE w3) as [w4 ->].
    eexists. split; [reflexivity|]. split; reflexivity.
Qed.

Lemma pause_interrupted (st : state World) :
  exists w',
    pause env st
    = ([Sleep PAUSE], Raised KeyboardInterrupt, with_world st w').
Proof.
  unfold pause, lift.
  destruct (sleep_interrupted PAUSE (world st)) as [w' ->].
  exists w'. reflexivity.
Qed.

Lemma forever_interrupted (fuel inner : nat) (chip roach : Spinner.t)
    (st : state World) :
  Spinner.frames chip <> [] -> 1 <= inner -> 1 <= fuel ->
  at_round World claude0 chatgpt0 0 st ->
  exists st',
    forever env fuel inner chip roach st
    = (interrupted_calls chip
       ++ printed (lit "Chip: " ++ said claude0 0) ++ [Sleep PAUSE],
       Raised KeyboardInterrupt, st').
Proof.
  intros Hne Hinner Hfuel Hst. destruct fuel as [|fuel]; [lia|].
  cbn [forever]. unfold and_then at 1. unfold round, and_then.
  destruct (animate_all_interrupted inner chip st Hne Hinner)
    as (st1 & -> & E1 & E2).
  destruct (say_chip_returns World env write stdout_write write_returns
              0 st1) as (st2 & -> & _).
  { destruct Hst as [H1 H2]. split; congruence. }
  destruct (pause_interrupted st2) as (w3 & ->).
  eexists. reflexivity.
Qed.

End Interrupted.

End DebateFacts.

(** X18: [chip_spinner()] and [cockroach_spinner()] construct their
    Spinners without error, with four frames each and the delay 0.12; as
    the tests measure them with [splitlines], all frames of the chip have
    10 lines of 26 characters and all frames of the cockroach have 12
    lines of 34 characters. *)
Theorem figures_frames_same_size :
  exists chip roach,
    chip_spinner = Ok chip /\ cockroach_spinner = Ok roach /\
    length (Spinner.frames chip) = 4 /\
    length (Spinner.frames roach) = 4 /\
    Spinner.delay chip = Spinner.default_delay /\
    Spinner.delay roach = Spinner.default_delay /\
    Forall (fun frame =>
              length (splitlines frame) = 10 /\
              Forall (fun line => length line = 26) (splitlines frame))
           (Spinner.frames chip) /\
    Forall (fun frame =>
              length (splitlines frame) = 12 /\
              Forall (fun line => length line = 34) (splitlines frame))
           (Spinner.frames roach).
Proof.
  destruct DebateFacts.spinners_constructed
    as (chip & roach & Hc & Hr & Hlc & Hlr & Hsc & Hsr & Hdc & Hdr).
  exists chip, roach. repeat (split; [assumption|]).
  split; apply DebateFacts.same_size_spec; assumption.
Qed.

(** X19: [run_debate] constructs its Spinners and generators without
    error and then never returns normally, whatever the output and the
    sleep function do: after any number of rounds it is still running or
    has raised an exception. *)
Theorem run_debate_never_returns (World : Type)
    (env : Animation.environment World) (fuel inner : nat)
    (enabled : option bool) (w : World) :
  exists t s st,
    Debate.run_debate env fuel inner enabled w = Ok (t, s, st) /\
    s <> Animation.Returned.
Proof.
  destruct DebateFacts.spinners_constructed
    as (chip & roach & Hc & Hr & _).
  unfold Debate.run_debate. rewrite Hc, Hr. cbn [bind].
  cbn [PhraseGenerator.__init__ Debate.pro_claude_intros
       Debate.pro_claude_claims Debate.pro_chatgpt_intros
       Debate.pro_chatgpt_claims bind].
  match goal with
  | |- exists t s st, Ok ?x = _ /\ _ =>
      pose proof (DebateFacts.and_then_not_returned World) as H;
      destruct x as [[t s] st] eqn:E
  end.
  exists t, s, st. split; [reflexivity|].
  match type of E with
  | Debate.and_then ?a ?b ?st0 = _ =>
      specialize (H a b st0
                    (DebateFacts.forever_not_returned World env fuel inner
                       chip roach))
  end.
  rewrite E in H. exact H.
Qed.



(** An environment whose [time.sleep] is always interrupted. *)
Definition interrupted_env : Animation.environment (list str) :=
  {| Animation.sys_stdout := Animation.FakeWriter;
     Animation.time_sleep :=
       fun _ buffer => Animation.Raises KeyboardInterrupt buffer;
     Animation.os_name_is_nt := false;
     Animation.console := ConsoleRaises |}.

(** X21: an interrupt inside [animate] does not stop [run_debate], one in
    its own [time.sleep(3)] does.  With a standard output whose [write] and
    [flush] return and a [time.sleep] that raises KeyboardInterrupt at each
    call, the first animation shows the first frame of the chip, is
    interrupted in its sleep, writes the goodbye line and returns;
    [run_debate] goes on and prints the first phrase of the chip, and the
    pause that follows raises KeyboardInterrupt out of [run_debate]. *)
Theorem run_debate_interrupt_escapes_in_pause (World : Type)
    (env : Animation.environment World)
    (write : str -> World -> Animation.outcome World)
    (fuel inner : nat) (enabled : option bool) (w : World) :
  Animation.write_attr (Animation.sys_stdout env) = Some write ->
  AnimationFacts.returns1 write ->
  AnimationFacts.flush_returns
    (Animation.flush_attr (Animation.sys_stdout env)) ->
  (forall seconds w0,
     exists w', Animation.time_sleep env seconds w0
                = Animation.Raises KeyboardInterrupt w') ->
  1 <= fuel -> 1 <= inner ->
  exists chip st,
    chip_spinner = Ok chip /\
    Debate.run_debate env fuel inner enabled w
    = Ok (DebateFacts.printed Debate.STARTING
          ++ DebateFacts.interrupted_calls World env chip
          ++ DebateFacts.printed
               (lit "Chip: " ++ DebateFacts.said DebateFacts.claude0 0)
          ++ [Animation.Sleep Debate.PAUSE],
          Animation.Raised KeyboardInterrupt, st).
Proof.
  intros Hwrite Hw Hf Hs Hfuel Hinner.
  destruct DebateFacts.spinners_constructed
    as (chip & roach & Hc & Hr & Hlc & Hlr & _).
  exists chip.
  unfold Debate.run_debate. rewrite Hc, Hr. cbn [bind].
  cbn [PhraseGenerator.__init__ Debate.pro_claude_intros
       Debate.pro_claude_claims Debate.pro_chatgpt_intros
       Debate.pro_chatgpt_claims bind].
  unfold Debate.and_then.
  match goal with
  | |- context [Debate.lift ?a ?st0] =>
      destruct (DebateFacts.lift_print World env write Hwrite Hw
                  (lit "Starting with the chip. Ctrl+C to exit.") st0)
        as [w1 E]
  end.
  unfold Debate.STARTING in *. rewrite E. clear E.
  match goal with
  | |- context [Debate.forever env fuel inner chip roach ?st1] =>
      destruct (DebateFacts.forever_interrupted World env write Hwrite Hw
                  Hf Hs fuel inner chip roach st1) as (st2 & E)
  end.
  { intros E. rewrite E in Hlc. discriminate. }
  { assumption. }
  { assumption. }
  { split; reflexivity. }
  rewrite E. exists st2. split; reflexivity.
Qed.

Lemma run_debate_interrupt_escapes_in_pause_witness :
  exists chip st,
    chip_spinner = Ok chip /\
    Debate.run_debate interrupted_env 5 4 None []
    = Ok (DebateFacts.printed Debate.STARTING
          ++ DebateFacts.interrupted_calls (list str) interrupted_env chip
          ++ DebateFacts.printed
               (lit "Chip: " ++ DebateFacts.said DebateFacts.claude0 0)
          ++ [Animation.Sleep Debate.PAUSE],
          Animation.Raised KeyboardInterrupt, st).
Proof.
  apply (run_debate_interrupt_escapes_in_pause (list str) interrupted_env
           (fun text buffer => Animation.Returns (buffer ++ [text]))
           5 4 None []).
  - reflexivity.
  - intros text buffer. eexists. reflexivity.
  - intros f Hf buffer. inversion Hf; subst. eexists. reflexivity.
  - intros seconds buffer. eexists. reflexivity.
  - lia.
  - lia.
Defined.
